(** * PyCAS: canonicalisation and rule-based calculus over a small AST

    A shallow embedding of [pycas/normalizer.py], [pycas/normalizer_rules.py],
    [pycas/rules.py], [pycas/core.py] and [pycas/pretty_printer.py], followed
    by the properties of the normal form and of the two rewrite engines.

    Python dictionaries with a ["type"] key become constructors of [expr];
    exact numbers ([int] and [fractions.Fraction]) become rationals in lowest
    terms; a Python exception becomes the [Raise] outcome. Floating-point
    constants (a literal such as [1.5]) are outside the model. *)

From Stdlib Require Import ZArith QArith Qreduction List String Ascii Bool Lia.
From Stdlib Require Import DecimalString Qpower.
Import ListNotations.

#[local] Set Warnings "-register-all".

Local Open Scope string_scope.
Local Open Scope list_scope.
Local Open Scope Z_scope.

(** ** Outcomes of a Python call *)

Inductive exn : Type :=
| KeyError (key : string)
| TypeError
| IndexError
| AttributeError.

Inductive outcome (A : Type) : Type :=
| Ret (a : A)
| Raise (e : exn).

Arguments Ret {A} a.
Arguments Raise {A} e.

Definition bind {A B : Type} (m : outcome A) (k : A -> outcome B) : outcome B :=
  match m with
  | Ret a => k a
  | Raise e => Raise e
  end.

Notation "x <- m ;; k" := (bind m (fun x => k))
  (at level 61, m at next level, right associativity).

(** [[f(x) for x in l]]: every element is evaluated, in order; the first
    exception ends the comprehension. *)
Definition mapM {A B : Type} (f : A -> outcome B) : list A -> outcome (list B) :=
  fix go (l : list A) : outcome (list B) :=
    match l with
    | [] => Ret []
    | x :: l' => y <- f x ;; ys <- go l' ;; Ret (y :: ys)
    end.

(** ** Exact numbers

    An [int] [n] is [n # 1]; a [Fraction] is kept in lowest terms, as Python
    keeps it, so every product is reduced. [==] on numbers is [Qeq_bool]. *)

Definition qmul (a b : Q) : Q := Qred (a * b).

(** [Fraction(num, den)] for [den <> 0] (both call sites sit behind a guard
    that excludes a zero denominator). *)
Definition Fraction (num den : Z) : Q := Qred (inject_Z num / inject_Z den).

(** [str(z)] of an [int], its decimal digits. Total here; see [digits_ok]
    for the limit CPython puts on the conversion. *)
Definition str_Z (z : Z) : string := NilZero.string_of_int (Z.to_int z).

(** [str(v)] of an exact number: [n] for an integer, [n/d] otherwise. *)
Definition str_num (v : Q) : string :=
  if (Qden v =? 1)%positive then str_Z (Qnum v)
  else (str_Z (Qnum v) ++ "/" ++ str_Z (Zpos (Qden v)))%string.

(** ** The AST

    The seven node kinds, the error dictionary built by [unsupported] (a
    dictionary without a ["type"] key) and [None], the two other values that
    can flow where a node is expected. *)

Inductive expr : Type :=
| Const (value : Q)
| Var (variable : string)
| Power (base : expr) (exp : Z)
| Mul (const : Q) (e : expr)
| Prod (factors : list expr)
| Sum (terms : list expr)
| Func (name : string) (arg : expr)
| ErrorObj (reason : string)
| NoneVal.

(** [errors.unsupported], where its result is used as a node. *)
Definition unsupported (reason : string) : expr := ErrorObj reason.

(** [e["type"]]. *)
Definition type_of (e : expr) : outcome string :=
  match e with
  | Const _ => Ret "const"
  | Var _ => Ret "var"
  | Power _ _ => Ret "power"
  | Mul _ _ => Ret "mul"
  | Prod _ => Ret "prod"
  | Sum _ => Ret "sum"
  | Func _ _ => Ret "func"
  | ErrorObj _ => Raise (KeyError "type")
  | NoneVal => Raise TypeError
  end.

(** ** normalizer_rules.py *)

Definition prod_order_key (factor : expr) : outcome Z :=
  match factor with
  | Var _ => Ret 0
  | Power _ _ => Ret 1
  | Func _ _ => Ret 2
  | ErrorObj _ => Raise (KeyError "type")
  | NoneVal => Raise TypeError
  | _ => Ret 99
  end.

(** [sorted(l, key=key)]: the keys are computed first, one call per element,
    then the elements are put in non-decreasing key order; the sort is stable,
    which determines the result. *)
Fixpoint insert_keyed {A : Type} (x : Z * A) (l : list (Z * A)) : list (Z * A) :=
  match l with
  | [] => [x]
  | y :: l' => if fst x <=? fst y then x :: l else y :: insert_keyed x l'
  end.

Definition sort_keyed {A : Type} (l : list (Z * A)) : list (Z * A) :=
  fold_right insert_keyed [] l.

Definition sorted {A : Type} (l : list A) (key : A -> outcome Z) : outcome (list A) :=
  keys <- mapM key l ;;
  Ret (map snd (sort_keyed (combine keys l))).

Definition normalize_power (normalize : expr -> outcome expr)
    (base : expr) (exp : Z) : outcome expr :=
  base <- normalize base ;;
  if exp =? 0 then Ret (Const 1)
  else if exp =? 1 then Ret base
  else Ret (Power base exp).

Definition normalize_mul (normalize : expr -> outcome expr)
    (constant : Q) (e : expr) : outcome expr :=
  if Qeq_bool constant 0 then Ret (Const 0)
  else
    inner_expr <- normalize e ;;
    match inner_expr with
    | ErrorObj _ => Raise (KeyError "type")
    | NoneVal => Raise TypeError
    | Const value => Ret (Const (qmul value constant))
    | Mul c e' => Ret (Mul (qmul constant c) e')
    | _ => if Qeq_bool constant 1 then Ret inner_expr
           else Ret (Mul constant inner_expr)
    end.

(** Step 1 of [normalize_prod]: normalize and flatten nested products. *)
Definition prod_flatten (normalize : expr -> outcome expr)
    : list expr -> list expr -> outcome (list expr) :=
  fix go (todo factors : list expr) : outcome (list expr) :=
    match todo with
    | [] => Ret factors
    | factor :: rest =>
        f <- normalize factor ;;
        match f with
        | ErrorObj _ => Raise (KeyError "type")
        | NoneVal => Raise TypeError
        | Prod fs => go rest (factors ++ fs)
        | _ => go rest (factors ++ [f])
        end
    end.

(** Step 2: absorb constants and collect atomic factors. The loop either
    returns from [normalize_prod] or falls through with both accumulators. *)
Inductive absorbed : Type :=
| Returned (v : expr)
| Collected (product_of_const : Q) (atomic_factors : list expr).

Fixpoint prod_absorb (factors : list expr) (product_of_const : Q)
    (atomic_factors : list expr) : outcome absorbed :=
  match factors with
  | [] => Ret (Collected product_of_const atomic_factors)
  | factor :: rest =>
      match factor with
      | ErrorObj _ => Raise (KeyError "type")
      | NoneVal => Raise TypeError
      | Const value =>
          if Qeq_bool value 0 then Ret (Returned (Const 0))
          else prod_absorb rest (qmul product_of_const value) atomic_factors
      | Var _ | Power _ _ | Func _ _ =>
          prod_absorb rest product_of_const (atomic_factors ++ [factor])
      | Mul _ _ =>
          Ret (Returned (unsupported "Unsupported Factor Type in Product: mul"))
      | Prod _ =>
          Ret (Returned (unsupported "Unsupported Factor Type in Product: prod"))
      | Sum _ =>
          Ret (Returned (unsupported "Unsupported Factor Type in Product: sum"))
      end
  end.

(** Step 2.5: the first variable node seen, bare or as the base of a power. *)
Fixpoint prod_canonical_var (atomic_factors : list expr) : outcome (option expr) :=
  match atomic_factors with
  | [] => Ret None
  | factor :: rest =>
      match factor with
      | ErrorObj _ => Raise (KeyError "type")
      | NoneVal => Raise TypeError
      | Var _ => Ret (Some factor)
      | Power base _ =>
          match base with
          | ErrorObj _ => Raise (KeyError "type")
          | NoneVal => Raise TypeError
          | Var _ => Ret (Some base)
          | _ => prod_canonical_var rest
          end
      | _ => prod_canonical_var rest
      end
  end.

(** Step 3: add up the exponents of the variable. *)
Fixpoint prod_combine (atomic_factors : list expr) (power_sum : Z)
    (other_factors : list expr) : outcome (Z * list expr) :=
  match atomic_factors with
  | [] => Ret (power_sum, other_factors)
  | factor :: rest =>
      match factor with
      | ErrorObj _ => Raise (KeyError "type")
      | NoneVal => Raise TypeError
      | Var _ => prod_combine rest (power_sum + 1) other_factors
      | Power base exp =>
          match base with
          | ErrorObj _ => Raise (KeyError "type")
          | NoneVal => Raise TypeError
          | Var _ => prod_combine rest (power_sum + exp) other_factors
          | _ => prod_combine rest power_sum (other_factors ++ [factor])
          end
      | _ => prod_combine rest power_sum (other_factors ++ [factor])
      end
  end.

(** [canonical_var] where it is appended or used as a base: [None] stays
    [None]. *)
Definition node_or_none (canonical_var : option expr) : expr :=
  match canonical_var with
  | Some v => v
  | None => NoneVal
  end.

Definition prod_append_var (canonical_var : option expr) (power_sum : Z)
    (other_factors : list expr) : list expr :=
  if power_sum =? 1 then other_factors ++ [node_or_none canonical_var]
  else if power_sum >=? 2 then
    other_factors ++ [Power (node_or_none canonical_var) power_sum]
  else other_factors.

(** Step 5: rebuild the node. *)
Definition prod_rebuild (product_of_const : Q) (other_factors : list expr) : expr :=
  match other_factors with
  | [] => Const product_of_const
  | [f] => if Qeq_bool product_of_const 1 then f
           else Mul product_of_const f
  | _ => if negb (Qeq_bool product_of_const 1)
         then Mul product_of_const (Prod other_factors)
         else Prod other_factors
  end.

(** Steps 2 to 5, on the flattened factor list. *)
Definition prod_assemble (factors : list expr) : outcome expr :=
  a <- prod_absorb factors 1 [] ;;
  match a with
  | Returned v => Ret v
  | Collected product_of_const atomic_factors =>
      canonical_var <- prod_canonical_var atomic_factors ;;
      c <- prod_combine atomic_factors 0 [] ;;
      let other_factors := prod_append_var canonical_var (fst c) (snd c) in
      other_factors <- sorted other_factors prod_order_key ;;
      Ret (prod_rebuild product_of_const other_factors)
  end.

Definition normalize_prod (normalize : expr -> outcome expr)
    (factors : list expr) : outcome expr :=
  factors <- prod_flatten normalize factors [] ;;
  prod_assemble factors.

(** The loop of [normalize_sum] over the normalized terms. *)
Fixpoint sum_collect (terms new_terms : list expr) : outcome (list expr) :=
  match terms with
  | [] => Ret new_terms
  | term :: rest =>
      match term with
      | ErrorObj _ => Raise (KeyError "type")
      | NoneVal => Raise TypeError
      | Sum ts => sum_collect rest (new_terms ++ ts)
      | Const value =>
          if Qeq_bool value 0 then sum_collect rest new_terms
          else sum_collect rest (new_terms ++ [term])
      | _ => sum_collect rest (new_terms ++ [term])
      end
  end.

Definition normalize_sum (normalize : expr -> outcome expr)
    (terms : list expr) : outcome expr :=
  terms <- mapM normalize terms ;;
  new_terms <- sum_collect terms [] ;;
  match new_terms with
  | [] => Ret (Const 0)
  | [t] => Ret t
  | _ => Ret (Sum new_terms)
  end.

Definition normalize_func (normalize : expr -> outcome expr)
    (name : string) (arg : expr) : outcome expr :=
  arg <- normalize arg ;;
  match arg with
  | ErrorObj _ => Raise (KeyError "type")
  | NoneVal => Raise TypeError
  | Var _ => Ret (Func name arg)
  | _ => Ret (unsupported ("Unsupported argument in function: " ++ name)%string)
  end.

(** ** normalizer.py *)

Fixpoint normalize (e : expr) : outcome expr :=
  match e with
  | ErrorObj _ => Raise (KeyError "type")
  | NoneVal => Raise TypeError
  | Const _ => Ret e
  | Var _ => Ret e
  | Power base exp => normalize_power normalize base exp
  | Mul constant inner => normalize_mul normalize constant inner
  | Prod factors => normalize_prod normalize factors
  | Sum terms => normalize_sum normalize terms
  | Func name arg => normalize_func normalize name arg
  end.

(** ** pretty_printer.py *)

Section Engine.

(** [str(float(value))], the decimal rendering of a non-integral fraction;
    Python's float formatting is left abstract. *)
Variable str_float : Q -> string.

(** The ["const"] case of [to_string]. *)
Definition const_to_string (value : Q) (mode : string) : string :=
  if (Qden value =? 1)%positive then str_Z (Qnum value)
  else if String.eqb mode "fraction"
       then (str_Z (Qnum value) ++ "/" ++ str_Z (Zpos (Qden value)))%string
       else str_float value.

(** One round of the loop of the ["sum"] case: [s.startswith("-")]. *)
Definition join_term (result s : string) : string :=
  match s with
  | String "-" rest => (result ++ " - " ++ rest)%string
  | _ => (result ++ " + " ++ s)%string
  end.

(** The loop of the ["sum"] case over [terms[1:]]. *)
Definition join_terms (render : expr -> outcome string)
    : list expr -> string -> outcome string :=
  fix loop (l : list expr) (result : string) : outcome string :=
    match l with
    | [] => Ret result
    | term :: l' => s <- render term ;; loop l' (join_term result s)
    end.

Fixpoint to_string (e : expr) (mode var_name : string) : outcome string :=
  match e with
  | ErrorObj _ => Raise (KeyError "type")
  | NoneVal => Raise TypeError
  | Const value => Ret (const_to_string value mode)
  | Var _ => Ret var_name
  | Power base exp =>
      base_str <- to_string base mode var_name ;;
      base_type <- type_of base ;;
      let base_str := if String.eqb base_type "func"
                      then ("(" ++ base_str ++ ")")%string else base_str in
      Ret (base_str ++ "^" ++ str_Z exp)%string
  | Mul constant expression =>
      inner_str <- to_string expression mode var_name ;;
      expression_type <- type_of expression ;;
      let inner_str :=
        if String.eqb expression_type "sum" || String.eqb expression_type "prod"
        then ("(" ++ inner_str ++ ")")%string else inner_str in
      if Qeq_bool constant (-1) then Ret ("-" ++ inner_str)%string
      else Ret (const_to_string constant mode ++ inner_str)%string
  | Prod factors =>
      parts <- mapM (fun factor => to_string factor mode var_name) factors ;;
      Ret (String.concat "" parts)
  | Sum terms =>
      match terms with
      | [] => Raise IndexError
      | first :: rest =>
          result <- to_string first mode var_name ;;
          join_terms (fun term => to_string term mode var_name) rest result
      end
  | Func name _ => Ret (name ++ "(" ++ var_name ++ ")")%string
  end.

(** ** rules.py *)

(** A step trace: description lines, and the traces of sub-terms nested as
    lists. *)
Inductive step : Type :=
| Line (s : string)
| Nested (sub : list step).

(** The success dictionary. [constant] is the optional ["constant"] key and
    [rendered] the ["string"] key, which [core] adds. *)
Record out : Type := mkOut {
  result : expr;
  steps : list step;
  constant : option bool;
  rendered : option string
}.

(** What a rule or a dispatcher returns: the success dictionary, or the
    dictionary [{"error": True, "reason": reason}] of [errors.unsupported]. *)
Inductive response : Type :=
| Success (o : out)
| Failure (reason : string).

Definition VAR : expr := Var "x".

Definition integrate_const (c : Q) : outcome response :=
  Ret (Success {|
    result := Mul c VAR;
    steps := [Line ("∫ " ++ str_num c ++ " dx = " ++ str_num c ++ "x + C")%string];
    constant := Some true;
    rendered := None |}).

Definition integrate_var (e : expr) : outcome response :=
  Ret (Success {|
    result := Mul (Fraction 1 2) (Power e 2);
    steps := [Line "∫ x dx = x^2/2 + C"];
    constant := Some true;
    rendered := None |}).

Definition integrate_power (base : expr) (n : Z) : outcome response :=
  base_type <- type_of base ;;
  if negb (String.eqb base_type "var")
  then Ret (Failure "Power rule only supports x^n (no chain rule yet)")
  else if n =? -1
  then Ret (Failure "Integral of x^-1 needs Logarithms(not implemented yet)")
  else Ret (Success {|
    result := Mul (Fraction 1 (n + 1)) (Power base (n + 1));
    steps := [Line ("∫ x^" ++ str_Z n ++ " dx = x^" ++ str_Z (n + 1) ++ "/"
                     ++ str_Z (n + 1) ++ " + C")%string];
    constant := Some true;
    rendered := None |}).

Definition integrate_mul (integrate : expr -> string -> string -> outcome response)
    (c : Q) (exp : expr) (mode var_name : string) : outcome response :=
  if Qeq_bool c 0 then
    Ret (Success {|
      result := Const 0;
      steps := [Line "Integral of 0 is 0"];
      constant := Some true;
      rendered := None |})
  else
    r <- integrate exp mode var_name ;;
    match r with
    | Failure _ => Ret r
    | Success o =>
        match result o with
        | ErrorObj _ => Raise (KeyError "type")
        | NoneVal => Raise TypeError
        | Const value =>
            Ret (Success {|
              result := Const (qmul c value);
              steps := Line "Combined Constant Factors" :: steps o;
              constant := Some true;
              rendered := None |})
        | _ =>
            Ret (Success {|
              result := Mul c (result o);
              steps := Line ("Extracted the constant " ++ str_num c ++ ":")%string
                         :: steps o;
              constant := Some true;
              rendered := None |})
        end
    end.

(** The loop of [integrate_sum], with its two accumulators. *)
Definition integrate_sum_loop
    (integrate : expr -> string -> string -> outcome response)
    (mode var_name : string)
    : list expr -> list expr -> list step -> outcome response :=
  fix loop (l integrated_terms : list expr) (all_steps : list step)
      : outcome response :=
    match l with
    | [] =>
        Ret (Success {|
          result := Sum integrated_terms;
          steps := Line "Using Linearity of Integration:" :: all_steps;
          constant := Some true;
          rendered := None |})
    | term :: l' =>
        r <- integrate term mode var_name ;;
        match r with
        | Failure _ => Ret r
        | Success o =>
            loop l' (integrated_terms ++ [result o])
                    (all_steps ++ [Nested (steps o)])
        end
    end.

Definition integrate_sum
    (integrate : expr -> string -> string -> outcome response)
    (terms : list expr) (mode var_name : string) : outcome response :=
  integrate_sum_loop integrate mode var_name terms [] [].

(** [arg["variable"]]. *)
Definition variable_of (arg : expr) : outcome string :=
  match arg with
  | Var variable => Ret variable
  | NoneVal => Raise TypeError
  | _ => Raise (KeyError "variable")
  end.

Definition integrate_func (name : string) (arg : expr) : outcome response :=
  arg_var <- variable_of arg ;;
  if String.eqb name "sin" then
    Ret (Success {|
      result := Mul (-1) (Func "cos" arg);
      steps := [Line ("∫ sin(" ++ arg_var ++ ") dx = -cos(" ++ arg_var ++ ") + C")%string];
      constant := Some true;
      rendered := None |})
  else if String.eqb name "cos" then
    Ret (Success {|
      result := Func "sin" arg;
      steps := [Line ("∫ cos(" ++ arg_var ++ ") dx = sin(" ++ arg_var ++ ") + C")%string];
      constant := Some true;
      rendered := None |})
  else if String.eqb name "exp" then
    Ret (Success {|
      result := Func "exp" arg;
      steps := [Line ("∫ exp(" ++ arg_var ++ ") dx = exp(" ++ arg_var ++ ") + C")%string];
      constant := Some true;
      rendered := None |})
  else Ret (Failure ("Unsupported function: " ++ name)%string).

Definition differentiate_const (c : Q) : outcome response :=
  Ret (Success {|
    result := Const 0;
    steps := [Line ("d/dx(" ++ str_num c ++ ") = 0")%string];
    constant := None;
    rendered := None |}).

Definition differentiate_var (e : expr) : outcome response :=
  Ret (Success {|
    result := Const 1;
    steps := [Line "d/dx(x) = 1"];
    constant := None;
    rendered := None |}).

Definition differentiate_power (base : expr) (n : Z) : outcome response :=
  base_type <- type_of base ;;
  if negb (String.eqb base_type "var")
  then Ret (Failure "Power rule only supports x^n (no chain rule yet)")
  else if n =? 0 then
    Ret (Success {|
      result := Const 0;
      steps := [Line "d/dx(x^0) = d/dx(1) = 0"];
      constant := None;
      rendered := None |})
  else
    Ret (Success {|
      result := Mul (inject_Z n) (Power base (n - 1));
      steps := [Line ("d/dx(x^" ++ str_Z n ++ ") = " ++ str_Z n ++ "x^("
                       ++ str_Z (n - 1) ++ ")")%string];
      constant := None;
      rendered := None |}).

(** The loop of [differentiate_sum], with its two accumulators. *)
Definition differentiate_sum_loop
    (differentiate : expr -> string -> string -> outcome response)
    (mode var_name : string)
    : list expr -> list expr -> list step -> outcome response :=
  fix loop (l differentiated_terms : list expr) (all_steps : list step)
      : outcome response :=
    match l with
    | [] =>
        Ret (Success {|
          result := Sum differentiated_terms;
          steps := Line "Using Linearity of Differentiation:" :: all_steps;
          constant := None;
          rendered := None |})
    | term :: l' =>
        r <- differentiate term mode var_name ;;
        match r with
        | Failure _ => Ret r
        | Success o =>
            loop l' (differentiated_terms ++ [result o])
                    (all_steps ++ [Nested (steps o)])
        end
    end.

Definition differentiate_sum
    (differentiate : expr -> string -> string -> outcome response)
    (terms : list expr) (mode var_name : string) : outcome response :=
  differentiate_sum_loop differentiate mode var_name terms [] [].

Definition differentiate_mul
    (differentiate : expr -> string -> string -> outcome response)
    (c : Q) (exp : expr) (mode var_name : string) : outcome response :=
  r <- differentiate exp mode var_name ;;
  match r with
  | Failure _ => Ret r
  | Success o =>
      Ret (Success {|
        result := Mul c (result o);
        steps := Line ("Extracted the constant " ++ str_num c ++ ":")%string
                   :: steps o;
        constant := None;
        rendered := None |})
  end.

Definition differentiate_func (name : string) (arg : expr) : outcome response :=
  arg_var <- variable_of arg ;;
  if String.eqb name "sin" then
    Ret (Success {|
      result := Func "cos" arg;
      steps := [Line ("d/dx(sin(" ++ arg_var ++ ")) = cos(" ++ arg_var ++ ")")%string];
      constant := None;
      rendered := None |})
  else if String.eqb name "cos" then
    Ret (Success {|
      result := Mul (-1) (Func "sin" arg);
      steps := [Line ("d/dx(cos(" ++ arg_var ++ ")) = -sin(" ++ arg_var ++ ")")%string];
      constant := None;
      rendered := None |})
  else if String.eqb name "exp" then
    Ret (Success {|
      result := Func "exp" arg;
      steps := [Line ("d/dx(exp(" ++ arg_var ++ ")) = exp(" ++ arg_var ++ ")")%string];
      constant := None;
      rendered := None |})
  else Ret (Failure ("Unsupported Function: " ++ name)%string).

(** ** core.py *)

(** The tail of [integrate], after the dispatch: an error dictionary is
    returned as it is; otherwise the result is normalized and rendered. *)
Definition integrate_return (dispatched : outcome response)
    (mode var_name : string) : outcome response :=
  r <- dispatched ;;
  match r with
  | Failure _ => Ret r
  | Success o =>
      res <- normalize (result o) ;;
      s <- to_string res mode var_name ;;
      let s := match constant o with
               | Some true => (s ++ " + C")%string
               | _ => s
               end in
      Ret (Success {|
        result := res;
        steps := steps o;
        constant := constant o;
        rendered := Some s |})
  end.

Fixpoint integrate (e : expr) (mode var_name : string) : outcome response :=
  match e with
  | NoneVal => Raise AttributeError
  | Const value => integrate_return (integrate_const value) mode var_name
  | Var _ => integrate_return (integrate_var e) mode var_name
  | Power base exp => integrate_return (integrate_power base exp) mode var_name
  | Mul c inner =>
      integrate_return (integrate_mul integrate c inner mode var_name) mode var_name
  | Prod _ => Ret (Failure "Integration of products not implemented yet")
  | Sum terms =>
      integrate_return (integrate_sum integrate terms mode var_name) mode var_name
  | Func name arg => integrate_return (integrate_func name arg) mode var_name
  | ErrorObj _ => Ret (Failure "Unsupported Expression Type: None")
  end.

(** The tail of [differentiate]. *)
Definition differentiate_return (dispatched : outcome response)
    (mode var_name : string) : outcome response :=
  r <- dispatched ;;
  match r with
  | Failure _ => Ret r
  | Success o =>
      res <- normalize (result o) ;;
      s <- to_string res mode var_name ;;
      Ret (Success {|
        result := res;
        steps := steps o;
        constant := constant o;
        rendered := Some s |})
  end.

Fixpoint differentiate (e : expr) (mode var_name : string) : outcome response :=
  match e with
  | NoneVal => Raise AttributeError
  | Const value => differentiate_return (differentiate_const value) mode var_name
  | Var _ => differentiate_return (differentiate_var e) mode var_name
  | Power base exp =>
      differentiate_return (differentiate_power base exp) mode var_name
  | Mul c inner =>
      differentiate_return
        (differentiate_mul differentiate c inner mode var_name) mode var_name
  | Prod _ => Ret (Failure "Product rule not implemented yet")
  | Sum terms =>
      differentiate_return
        (differentiate_sum differentiate terms mode var_name) mode var_name
  | Func name arg => differentiate_return (differentiate_func name arg) mode var_name
  | ErrorObj _ => Ret (Failure "Unsupported Expression Type: None")
  end.

End Engine.

(** ** The structural invariants of a canonical tree (spec, section 3)

    [walk check e] holds when [check] accepts every node of the tree [e], as
    [examples/invariants.py] walks a tree; a value that is not a node (the
    error dictionary, [None]) has no ["type"] and fails the walk. *)

Fixpoint walk (check : expr -> bool) (e : expr) : bool :=
  match e with
  | ErrorObj _ | NoneVal => false
  | Const _ | Var _ => check e
  | Sum terms => check e && forallb (walk check) terms
  | Mul _ inner => check e && walk check inner
  | Power base _ => check e && walk check base
  | Prod factors => check e && forallb (walk check) factors
  | Func _ arg => check e && walk check arg
  end.

Definition is_var (e : expr) : bool :=
  match e with Var _ => true | _ => false end.

Definition is_sum (e : expr) : bool :=
  match e with Sum _ => true | _ => false end.

Definition is_mul (e : expr) : bool :=
  match e with Mul _ _ => true | _ => false end.

Definition is_zero_const (e : expr) : bool :=
  match e with Const value => Qeq_bool value 0 | _ => false end.

(** The kinds allowed as a factor of a Prod. *)
Definition is_atomic (e : expr) : bool :=
  match e with Var _ | Power _ _ | Func _ _ => true | _ => false end.

(** The kind order Var < Power < Func. *)
Definition rank (e : expr) : Z :=
  match e with
  | Var _ => 0
  | Power _ _ => 1
  | Func _ _ => 2
  | _ => 99
  end.

Fixpoint nondecreasing (l : list Z) : bool :=
  match l with
  | a :: ((b :: _) as l') => (a <=? b) && nondecreasing l'
  | _ => true
  end.

(** 1. A Mul's inner is never Const and never another Mul. *)
Definition check_mul_inner (node : expr) : bool :=
  match node with
  | Mul _ (Const _) | Mul _ (Mul _ _) => false
  | _ => true
  end.

(** 2. A Power's exponent is at least 2. *)
Definition check_power_exp (node : expr) : bool :=
  match node with
  | Power _ exp => 2 <=? exp
  | _ => true
  end.

(** 3. A Sum has at least 2 terms, none a Sum or a zero Const. *)
Definition check_sum (node : expr) : bool :=
  match node with
  | Sum terms =>
      (2 <=? Z.of_nat (List.length terms))
      && forallb (fun t => negb (is_sum t) && negb (is_zero_const t)) terms
  | _ => true
  end.

(** 4. A Prod has at least 2 factors, each a Var, a Power or a Func. *)
Definition check_prod_factors (node : expr) : bool :=
  match node with
  | Prod factors => (2 <=? Z.of_nat (List.length factors)) && forallb is_atomic factors
  | _ => true
  end.

(** 5. Prod factors are ordered by kind. *)
Definition check_prod_order (node : expr) : bool :=
  match node with
  | Prod factors => nondecreasing (map rank factors)
  | _ => true
  end.

(** 6. A Power that is a Prod factor has a Var as its base. *)
Definition check_prod_power_base (node : expr) : bool :=
  match node with
  | Prod factors =>
      forallb (fun f => match f with Power base _ => is_var base | _ => true end)
              factors
  | _ => true
  end.

(** 7. A Func's argument is a bare Var. *)
Definition check_func_arg (node : expr) : bool :=
  match node with
  | Func _ arg => is_var arg
  | _ => true
  end.

(** 8. A Func's name is one of sin, cos, exp. *)
Definition allowed_func (name : string) : bool :=
  String.eqb name "sin" || String.eqb name "cos" || String.eqb name "exp".

Definition check_func_name (node : expr) : bool :=
  match node with
  | Func name _ => allowed_func name
  | _ => true
  end.

Definition all_invariants (e : expr) : bool :=
  walk check_mul_inner e && walk check_power_exp e && walk check_sum e
  && walk check_prod_factors e && walk check_prod_order e
  && walk check_prod_power_base e && walk check_func_arg e
  && walk check_func_name e.

(** A tree: only nodes, no error dictionary and no [None] anywhere. *)
Definition tree (e : expr) : bool := walk (fun _ => true) e.

(** No Mul node carries the coefficient 1. *)
Definition check_no_unit_mul (node : expr) : bool :=
  match node with
  | Mul c _ => negb (Qeq_bool c 1)
  | _ => true
  end.

(** A raw AST as the parser builds it: a tree whose exponents are
    non-negative. *)
Definition check_exp_nonneg (node : expr) : bool :=
  match node with
  | Power _ exp => 0 <=? exp
  | _ => true
  end.

Definition raw_ast (e : expr) : bool := walk check_exp_nonneg e.

(** ** The shape of every value [normalize] returns

    [normal v] describes what the rules build, whatever the input: the error
    dictionary may be the value itself or sit under Power nodes, never
    elsewhere, and [None] occurs nowhere. *)

Definition is_node (e : expr) : bool :=
  match e with ErrorObj _ | NoneVal => false | _ => true end.

(** What a normalized Mul may wrap. *)
Definition mul_inner_ok (e : expr) : bool :=
  match e with
  | Var _ | Power _ _ | Prod _ | Sum _ | Func _ _ => true
  | _ => false
  end.

(** What a normalized Sum may hold. *)
Definition sum_term_ok (e : expr) : bool :=
  is_node e && negb (is_sum e) && negb (is_zero_const e).

(** An atomic factor whose base, for a Power, is a node. *)
Definition okatom (e : expr) : bool :=
  match e with
  | Var _ | Func _ _ => true
  | Power base _ => is_node base
  | _ => false
  end.

Inductive normal : expr -> Prop :=
| normal_Const value : normal (Const value)
| normal_Var variable : normal (Var variable)
| normal_ErrorObj reason : normal (ErrorObj reason)
| normal_Power base exp :
    exp <> 0 -> exp <> 1 -> normal base -> normal (Power base exp)
| normal_Mul c inner :
    Qeq_bool c 0 = false -> mul_inner_ok inner = true -> normal inner ->
    normal (Mul c inner)
| normal_Sum terms :
    (2 <= List.length terms)%nat -> Forall normal terms ->
    forallb sum_term_ok terms = true -> normal (Sum terms)
| normal_Prod factors :
    (2 <= List.length factors)%nat -> Forall normal factors ->
    forallb okatom factors = true ->
    prod_assemble factors = Ret (Prod factors) -> normal (Prod factors)
| normal_Func name arg : is_var arg = true -> normal (Func name arg).

(** What steps 2.5 to 4 of [normalize_prod] compute on a list of atomic
    factors whose bases are nodes. *)

Definition varish (e : expr) : bool :=
  match e with
  | Var _ => true
  | Power (Var _) _ => true
  | _ => false
  end.

Definition var_exp (e : expr) : Z :=
  match e with
  | Var _ => 1
  | Power (Var _) exp => exp
  | _ => 0
  end.

Definition psum (l : list expr) : Z := fold_right (fun f acc => var_exp f + acc) 0 l.

Fixpoint first_var (l : list expr) : option expr :=
  match l with
  | [] => None
  | Var s :: _ => Some (Var s)
  | Power (Var s) _ :: _ => Some (Var s)
  | _ :: rest => first_var rest
  end.

Definition by_rank (k : Z) (l : list expr) : list expr :=
  filter (fun f => rank f =? k) l.

Definition sort3 (l : list expr) : list expr :=
  by_rank 0 l ++ by_rank 1 l ++ by_rank 2 l.

Definition keyed (f : expr) : Z * expr := (rank f, f).

Definition not_varish (f : expr) : bool := negb (varish f).

(** The combined variable factor that step 3 appends, if any. *)
Definition var_part (canonical_var : option expr) (power_sum : Z) : list expr :=
  if power_sum =? 1 then [node_or_none canonical_var]
  else if power_sum >=? 2 then [Power (node_or_none canonical_var) power_sum]
  else [].

Definition canon (l : list expr) : list expr :=
  sort3 (filter not_varish l ++ var_part (first_var l) (psum l)).

(** Labels of a value: the exponents of its Power nodes, the names of its
    Func nodes and whether a Prod node may occur, wherever they sit. *)
Fixpoint labels_ok (pexp : Z -> bool) (pname : string -> bool) (pprod : bool)
    (e : expr) : bool :=
  match e with
  | Const _ | Var _ | ErrorObj _ | NoneVal => true
  | Power base exp => pexp exp && labels_ok pexp pname pprod base
  | Mul _ inner => labels_ok pexp pname pprod inner
  | Prod factors => pprod && forallb (labels_ok pexp pname pprod) factors
  | Sum terms => forallb (labels_ok pexp pname pprod) terms
  | Func name arg => pname name && labels_ok pexp pname pprod arg
  end.

(** Exponents are non-negative, function names are allowed and no Prod
    occurs: what the rewrite rules build before normalization. *)
Definition plain (e : expr) : bool :=
  labels_ok (fun n => 0 <=? n) allowed_func false e.

(** The factor list after step 1, from the normalized factors. *)
Definition flatten_factors (vs : list expr) : list expr :=
  flat_map (fun v => match v with Prod fs => fs | _ => [v] end) vs.

(** A factor that step 2 absorbs or collects. *)
Definition passable (f : expr) : bool :=
  match f with
  | Const value => negb (Qeq_bool value 0)
  | Var _ | Power _ _ | Func _ _ => true
  | _ => false
  end.

(** A normalized factor that the loop of step 2 gets past. *)
Definition harmless_factor (p : expr) : bool :=
  is_node p && negb (is_zero_const p) && negb (is_sum p) && negb (is_mul p).

(** The statement proved by induction over the input: a returned value is
    [normal], and on a tree the only exception is the missing ["type"] key. *)
Definition normalize_ok (e : expr) : Prop :=
  match normalize e with
  | Ret v => normal v
  | Raise x => tree e = true -> x = KeyError "type"
  end.

(** Not a Prod node. *)
Definition check_not_prod (node : expr) : bool :=
  match node with Prod _ => false | _ => true end.

(** The five invariants that hold of every tree [normalize] returns. *)
Definition check_shape (node : expr) : bool :=
  check_mul_inner node && check_sum node && check_prod_factors node
  && check_prod_order node && check_func_arg node.

(** ** The inputs the rewrite engines accept

    [differentiable e]: no Prod to differentiate and a bare Var under every
    Power. [integrable e] is the same, except that a Mul with coefficient 0
    is integrated without looking at its inner expression. *)

Fixpoint differentiable (e : expr) : bool :=
  match e with
  | Const _ | Var _ | Func _ _ => true
  | Power base _ => is_var base
  | Mul _ inner => differentiable inner
  | Sum terms => forallb differentiable terms
  | Prod _ | ErrorObj _ | NoneVal => false
  end.

Fixpoint integrable (e : expr) : bool :=
  match e with
  | Const _ | Var _ | Func _ _ => true
  | Power base _ => is_var base
  | Mul c inner => Qeq_bool c 0 || integrable inner
  | Sum terms => forallb integrable terms
  | Prod _ | ErrorObj _ | NoneVal => false
  end.

(** What the rules read from a canonical input: exponents, function names
    and function arguments. *)
Definition check_rewritable (node : expr) : bool :=
  check_power_exp node && check_func_arg node && check_func_name node.


(** A rule result before normalization: a tree without Prod nodes, with
    non-negative exponents, allowed names and bare-Var arguments. *)
Definition simple (e : expr) : bool :=
  tree e && plain e && walk check_func_arg e.


(** Further node checks on a normal form. *)

(** A Prod holds the variable at most once, bare or as one power. *)
Definition check_single_var (node : expr) : bool :=
  match node with
  | Prod factors => (List.length (filter varish factors) <=? 1)%nat
  | _ => true
  end.

(** No Mul has the coefficient 0 and no Power the exponent 0 or 1. *)
Definition check_reduced (node : expr) : bool :=
  match node with
  | Mul c _ => negb (Qeq_bool c 0)
  | Power _ exp => negb (exp =? 0) && negb (exp =? 1)
  | _ => true
  end.


(** ** The meaning of a tree

    The value of a tree at a point [x] of the single variable, with the
    function names read through [fn]: a Const is its value, a Var is [x], a
    Power is the base raised to the integer exponent, a Mul is coefficient
    times inner, a Prod is the product of its factors and a Sum the sum of
    its terms. [deval] is the value of the derivative at [x] by the textbook
    rules (power rule with chain rule, linearity, product rule), where the
    derivatives of sin, cos and exp are cos, -sin and exp. *)

Section Meaning.

Variable fn : string -> Q -> Q.
Variable x : Q.

Fixpoint eval (e : expr) : Q :=
  match e with
  | Const value => value
  | Var _ => x
  | Power base exp => Qpower (eval base) exp
  | Mul c inner => c * eval inner
  | Prod factors => fold_right (fun f acc => eval f * acc) 1 factors
  | Sum terms => fold_right (fun t acc => eval t + acc) 0 terms
  | Func name arg => fn name (eval arg)
  | ErrorObj _ | NoneVal => 0
  end%Q.

Definition eval_prod (l : list expr) : Q :=
  fold_right (fun f acc => eval f * acc)%Q 1%Q l.

Definition eval_sum (l : list expr) : Q :=
  fold_right (fun t acc => eval t + acc)%Q 0%Q l.

(** The derivative of the function called [name], at [y]. *)
Definition dfn (name : string) (y : Q) : Q :=
  if String.eqb name "sin" then fn "cos" y
  else if String.eqb name "cos" then (- fn "sin" y)%Q
  else if String.eqb name "exp" then fn "exp" y
  else 0%Q.

Fixpoint deval (e : expr) : Q :=
  match e with
  | Const _ => 0
  | Var _ => 1
  | Power base exp => inject_Z exp * Qpower (eval base) (exp - 1) * deval base
  | Mul c inner => c * deval inner
  | Prod factors =>
      (fix product_rule (l : list expr) : Q :=
         match l with
         | [] => 0
         | f :: rest => deval f * eval_prod rest + eval f * product_rule rest
         end) factors
  | Sum terms => fold_right (fun t acc => deval t + acc) 0 terms
  | Func name arg => dfn name (eval arg) * deval arg
  | ErrorObj _ | NoneVal => 0
  end%Q.

Definition deval_sum (l : list expr) : Q :=
  fold_right (fun t acc => deval t + acc)%Q 0%Q l.

End Meaning.


(** ** What does not depend on the display options *)

(** An outcome without its value: whether the call returned, and which
    exception it raised otherwise. *)
Definition status {A : Type} (r : outcome A) : outcome unit :=
  match r with
  | Ret _ => Ret tt
  | Raise e => Raise e
  end.

(** A response without its ["string"] key. *)
Definition forget_rendered (r : outcome response) : outcome response :=
  match r with
  | Ret (Success o) =>
      Ret (Success {| result := result o; steps := steps o;
                      constant := constant o; rendered := None |})
  | _ => r
  end.


(** ** examples/invariants.py

    The assertion harness. A run of an assertion function passes, stops at
    the first failed [assert], or stops at an exception raised while a node
    is inspected. The text Python gives a dictionary inside a message and
    the text of an exception are left abstract. Every node of [expr] has
    one of the seven types, so the last branch of [walk] (an unknown type)
    has no counterpart here. *)

Module Invariants.

Inductive verdict : Type :=
  | Passed
  | AssertionError (message : string)
  | Crashed (e : exn).

(** Statement sequencing. *)
Definition and_then (a b : verdict) : verdict :=
  match a with
  | Passed => b
  | _ => a
  end.

(** A [for] loop whose body is [body]. *)
Definition each (body : expr -> verdict) : list expr -> verdict :=
  fix go (l : list expr) : verdict :=
    match l with
    | [] => Passed
    | x :: l' => and_then (body x) (go l')
    end.

(** Reading [node["type"]], then going on with [k]. *)
Definition typed (node : expr) (k : verdict) : verdict :=
  match node with
  | ErrorObj _ => Crashed (KeyError "type")
  | NoneVal => Crashed TypeError
  | _ => k
  end.

Fixpoint walk (fn : expr -> verdict) (e : expr) : verdict :=
  and_then (fn e)
    match e with
    | ErrorObj _ => Crashed (KeyError "type")
    | NoneVal => Crashed TypeError
    | Const _ | Var _ => Passed
    | Sum terms => each (walk fn) terms
    | Mul _ inner => walk fn inner
    | Power base _ => walk fn base
    | Prod factors => each (walk fn) factors
    | Func _ arg => walk fn arg
    end.

Section Harness.

(** [str(factor)] of a dictionary, [str(e)] of an exception, and the float
    formatting of the pretty-printer. *)
Variable repr : expr -> string.
Variable str_exn : exn -> string.
Variable str_float : Q -> string.

Definition assert_mul_expr_not_const (e : expr) : verdict :=
  walk (fun node =>
          typed node
            match node with
            | Mul _ inner =>
                typed inner
                  match inner with
                  | Const _ => AssertionError "Mul wrapping const found"
                  | _ => Passed
                  end
            | _ => Passed
            end) e.

Definition assert_no_nested_mul (e : expr) : verdict :=
  walk (fun node =>
          typed node
            match node with
            | Mul _ inner =>
                typed inner
                  match inner with
                  | Mul _ _ => AssertionError "Nested mul found"
                  | _ => Passed
                  end
            | _ => Passed
            end) e.

Definition assert_normalized_power (e : expr) : verdict :=
  walk (fun node =>
          typed node
            match node with
            | Power _ exp =>
                if 2 <=? exp then Passed
                else AssertionError ("Invalid Power Exponent: " ++ str_Z exp)
            | _ => Passed
            end) e.

Definition assert_valid_sum (e : expr) : verdict :=
  walk (fun node =>
          typed node
            match node with
            | Sum terms =>
                if (2 <=? List.length terms)%nat then Passed
                else AssertionError "Sum with fewer than 2 terms"
            | _ => Passed
            end) e.

Definition assert_prod_atomic (e : expr) : verdict :=
  walk (fun node =>
          typed node
            match node with
            | Prod factors =>
                each (fun factor =>
                        typed factor
                          match factor with
                          | Var _ | Power _ _ | Func _ _ => Passed
                          | _ => AssertionError
                                   ("Non-atomic factor in prod: " ++ repr factor)
                          end) factors
            | _ => Passed
            end) e.

Definition assert_no_nested_prod (e : expr) : verdict :=
  walk (fun node =>
          typed node
            match node with
            | Prod factors =>
                each (fun factor =>
                        typed factor
                          match factor with
                          | Prod _ => AssertionError "Nested prod found"
                          | _ => Passed
                          end) factors
            | _ => Passed
            end) e.

Definition assert_valid_prod (e : expr) : verdict :=
  walk (fun node =>
          typed node
            match node with
            | Prod factors =>
                if (2 <=? List.length factors)%nat then Passed
                else AssertionError "Prod with fewer than 2 factors"
            | _ => Passed
            end) e.

Definition assert_prod_power_base (e : expr) : verdict :=
  walk (fun node =>
          typed node
            match node with
            | Prod factors =>
                each (fun factor =>
                        typed factor
                          match factor with
                          | Power base _ =>
                              typed base
                                match base with
                                | Var _ => Passed
                                | _ => AssertionError
                                         ("Non-var base in power inside prod: "
                                          ++ repr factor)
                                end
                          | _ => Passed
                          end) factors
            | _ => Passed
            end) e.

Definition assert_valid_func_name (e : expr) : verdict :=
  walk (fun node =>
          typed node
            match node with
            | Func name _ =>
                if String.eqb name "sin" || String.eqb name "cos"
                   || String.eqb name "exp"
                then Passed
                else AssertionError ("Invalid function name: " ++ name)
            | _ => Passed
            end) e.

Definition assert_func_arg_is_var (e : expr) : verdict :=
  walk (fun node =>
          typed node
            match node with
            | Func _ arg =>
                typed arg
                  match arg with
                  | Var _ => Passed
                  | _ => AssertionError "Function argument must be a variable"
                  end
            | _ => Passed
            end) e.

(** [to_string(expr)], with the default mode and variable name. *)
Definition assert_printable (e : expr) : verdict :=
  match to_string str_float e "fraction" "x" with
  | Ret _ => Passed
  | Raise x => AssertionError ("Pretty-printer crashed: " ++ str_exn x)
  end.

Definition assert_all_invariants (e : expr) : verdict :=
  and_then (assert_no_nested_mul e)
  (and_then (assert_mul_expr_not_const e)
  (and_then (assert_normalized_power e)
  (and_then (assert_valid_sum e)
  (and_then (assert_valid_prod e)
  (and_then (assert_no_nested_prod e)
  (and_then (assert_prod_atomic e)
  (and_then (assert_prod_power_base e)
  (and_then (assert_valid_func_name e)
            (assert_func_arg_is_var e))))))))).

Definition assert_valid_and_renderable (e : expr) : verdict :=
  and_then (assert_all_invariants e) (assert_printable e).

End Harness.

End Invariants.

(** A Sum has at least 2 terms: the part of invariant 3 that the harness
    asserts. *)
Definition check_sum_length (node : expr) : bool :=
  match node with
  | Sum terms => 2 <=? Z.of_nat (List.length terms)
  | _ => true
  end.

(** What [assert_all_invariants] asserts. *)
Definition harness_invariants (e : expr) : bool :=
  walk check_mul_inner e && walk check_power_exp e && walk check_sum_length e
  && walk check_prod_factors e && walk check_prod_power_base e
  && walk check_func_arg e && walk check_func_name e.


(** ** parser.py

    The recursive-descent parser over the token list, from [current_pos] to
    the end of [parse_string]. A token is the pair the tokenizer builds;
    an ["OP"] token carries one of the four characters the tokenizer gives
    it, a ["NUMBER"] token an [int] (the [float] of a decimal literal is
    outside the model). [consume] returns the token [current_pos] has
    just shown, so its payload is read off that one. The functions recurse
    on a fuel; [fuel_of] gives enough of it for every token list. *)

Module Parser.

Inductive op_char : Type := Plus | Minus | Caret | Star.

Definition op_str (ch : op_char) : string :=
  match ch with
  | Plus => "+"
  | Minus => "-"
  | Caret => "^"
  | Star => "*"
  end.

Inductive token : Type :=
  | NUMBER (n : Z)
  | VAR (name : string)
  | NAME (name : string)
  | OP (ch : op_char)
  | LPAREN
  | RPAREN.

(** What the parser raises itself, and an exception of a subscript. *)
Inductive error : Type :=
  | SyntaxError (message : string)
  | IOError (message : string)
  | Uncaught (e : exn).

Inductive run (A : Type) : Type :=
  | Done (a : A)
  | Fail (e : error)
  | OutOfFuel.

Arguments Done {A} a.
Arguments Fail {A} e.
Arguments OutOfFuel {A}.

Definition and_then {A B : Type} (m : run A) (k : A -> run B) : run B :=
  match m with
  | Done a => k a
  | Fail e => Fail e
  | OutOfFuel => OutOfFuel
  end.

Notation "x <~ m ;; k" := (and_then m (fun x => k))
  (at level 61, m at next level, right associativity).

(** [str(token)], in the message of [parse_term]. *)
Definition repr_token (t : option token) : string :=
  match t with
  | None => "None"
  | Some (NUMBER n) => "('NUMBER', " ++ str_Z n ++ ")"
  | Some (VAR name) => "('VAR', '" ++ name ++ "')"
  | Some (NAME name) => "('NAME', '" ++ name ++ "')"
  | Some (OP ch) => "('OP', '" ++ op_str ch ++ "')"
  | Some LPAREN => "('LPAREN', '(')"
  | Some RPAREN => "('RPAREN', ')')"
  end%string.

Definition current_pos (tokens : list token) (pos : nat) : option token :=
  nth_error tokens pos.

Definition consume (tokens : list token) (pos : nat) : run (token * nat) :=
  match nth_error tokens pos with
  | Some t => Done (t, S pos)
  | None => Fail (Uncaught IndexError)
  end.

Definition can_start_term (t : token) : bool :=
  match t with
  | NUMBER _ | VAR _ | NAME _ | LPAREN => true
  | _ => false
  end.

(** The two branches on [node["type"] == "const"] in [parse_mul]. *)
Definition absorb (node : expr) (factors : list expr) (const_value : Q)
  : run (list expr * Q) :=
  match node with
  | ErrorObj _ => Fail (Uncaught (KeyError "type"))
  | NoneVal => Fail (Uncaught TypeError)
  | Const value => Done (factors, qmul const_value value)
  | _ => Done (factors ++ [node], const_value)
  end.

(** The end of [parse_mul], after its loop. *)
Definition build_mul (factors : list expr) (const_value : Q) : expr :=
  match factors with
  | [] => Const const_value
  | [f] => if Qeq_bool const_value 1 then f else Mul const_value f
  | _ => if negb (Qeq_bool const_value 1) then Mul const_value (Prod factors)
         else Prod factors
  end.

(** The checks of [parse_power] on the parsed exponent. An [int] is a
    number with denominator 1. *)
Definition build_power (base exponent : expr) : run expr :=
  match exponent with
  | ErrorObj _ => Fail (Uncaught (KeyError "type"))
  | NoneVal => Fail (Uncaught TypeError)
  | Const value =>
      if negb (Qden value =? 1)%positive
      then Fail (SyntaxError "Exponent must be an integer")
      else if Qnum value <? 0
      then Fail (SyntaxError "Negative exponents not supported yet")
      else Done (Power base (Qnum value))
  | _ => Fail (SyntaxError "Exponent must be a constant integer")
  end.

Fixpoint parse_expr (fuel : nat) (tokens : list token) (pos : nat)
  : run (expr * nat) :=
  match fuel with
  | O => OutOfFuel
  | S fuel =>
      r <~ parse_mul fuel tokens pos ;;
      let '(leftnode, new_pos) := r in
      r <~ parse_expr_loop fuel tokens [leftnode] new_pos ;;
      let '(terms, new_pos) := r in
      match terms with
      | [t] => Done (t, new_pos)
      | _ => Done (Sum terms, new_pos)
      end
  end

with parse_expr_loop (fuel : nat) (tokens : list token) (terms : list expr)
    (new_pos : nat) : run (list expr * nat) :=
  match fuel with
  | O => OutOfFuel
  | S fuel =>
      match current_pos tokens new_pos with
      | Some (OP Plus) | Some (OP Minus) =>
          r <~ consume tokens new_pos ;;
          let '(op, new_pos) := r in
          r <~ parse_mul fuel tokens new_pos ;;
          let '(rightnode, new_pos) := r in
          let rightnode := match op with
                           | OP Minus => Mul (-1) rightnode
                           | _ => rightnode
                           end in
          parse_expr_loop fuel tokens (terms ++ [rightnode]) new_pos
      | _ => Done (terms, new_pos)
      end
  end

with parse_mul (fuel : nat) (tokens : list token) (pos : nat)
  : run (expr * nat) :=
  match fuel with
  | O => OutOfFuel
  | S fuel =>
      r <~ parse_power fuel tokens pos ;;
      let '(node, new_pos) := r in
      r <~ absorb node [] 1 ;;
      let '(factors, const_value) := r in
      r <~ parse_mul_loop fuel tokens factors const_value new_pos ;;
      let '(factors, const_value, new_pos) := r in
      Done (build_mul factors const_value, new_pos)
  end

with parse_mul_loop (fuel : nat) (tokens : list token) (factors : list expr)
    (const_value : Q) (new_pos : nat) : run (list expr * Q * nat) :=
  match fuel with
  | O => OutOfFuel
  | S fuel =>
      let token := current_pos tokens new_pos in
      let explicit := match token with Some (OP Star) => true | _ => false end in
      let implicit := match token with
                      | Some t => can_start_term t
                      | None => false
                      end in
      if negb explicit && negb implicit then Done (factors, const_value, new_pos)
      else
        new_pos <~ (if explicit
                    then r <~ consume tokens new_pos ;; Done (snd r)
                    else Done new_pos) ;;
        r <~ parse_power fuel tokens new_pos ;;
        let '(node, new_pos) := r in
        r <~ absorb node factors const_value ;;
        let '(factors, const_value) := r in
        parse_mul_loop fuel tokens factors const_value new_pos
  end

with parse_term (fuel : nat) (tokens : list token) (pos : nat)
  : run (expr * nat) :=
  match fuel with
  | O => OutOfFuel
  | S fuel =>
      match current_pos tokens pos with
      | Some (OP Minus) =>
          r <~ consume tokens pos ;;
          let '(_, new_pos) := r in
          r <~ parse_term fuel tokens new_pos ;;
          let '(next_term, new_pos) := r in
          Done (Mul (-1) next_term, new_pos)
      | Some (NUMBER n) =>
          r <~ consume tokens pos ;;
          let '(_, new_pos) := r in
          Done (Const (inject_Z n), new_pos)
      | Some (VAR name) =>
          r <~ consume tokens pos ;;
          let '(_, new_pos) := r in
          Done (Var name, new_pos)
      | Some (NAME name) =>
          r <~ consume tokens pos ;;
          let '(_, new_pos) := r in
          match current_pos tokens new_pos with
          | Some LPAREN =>
              r <~ consume tokens new_pos ;;
              let '(_, new_pos) := r in
              r <~ parse_expr fuel tokens new_pos ;;
              let '(arg_expr, new_pos) := r in
              match current_pos tokens new_pos with
              | Some RPAREN =>
                  r <~ consume tokens new_pos ;;
                  let '(_, new_pos) := r in
                  Done (Func name arg_expr, new_pos)
              | _ => Fail (SyntaxError "Parenthesis mismatch in function call")
              end
          | _ => Fail (SyntaxError
                         ("Expected '(' after function name " ++ name))
          end
      | Some LPAREN =>
          r <~ consume tokens pos ;;
          let '(_, new_pos) := r in
          r <~ parse_expr fuel tokens new_pos ;;
          let '(inner_expr, new_pos) := r in
          match current_pos tokens new_pos with
          | Some RPAREN =>
              r <~ consume tokens new_pos ;;
              let '(_, new_pos) := r in
              Done (inner_expr, new_pos)
          | _ => Fail (SyntaxError "Parenthesis Mismatch!!")
          end
      | token => Fail (IOError ("Unexpected Token: " ++ repr_token token))
      end
  end

with parse_power (fuel : nat) (tokens : list token) (pos : nat)
  : run (expr * nat) :=
  match fuel with
  | O => OutOfFuel
  | S fuel =>
      r <~ parse_term fuel tokens pos ;;
      let '(base, new_pos) := r in
      match current_pos tokens new_pos with
      | Some (OP Caret) =>
          r <~ consume tokens new_pos ;;
          let '(_, new_pos) := r in
          r <~ parse_power fuel tokens new_pos ;;
          let '(exponent, new_pos) := r in
          ast <~ build_power base exponent ;;
          Done (ast, new_pos)
      | _ => Done (base, new_pos)
      end
  end.

(** Enough fuel for a token list. *)
Definition fuel_of (tokens : list token) : nat := 6 * List.length tokens + 5.

(** The value [parse_string] returns. *)
Record parsed : Type := { ast : expr; var : string }.

(** [parse_string] after [tokenize]: the tokens and [seen_var] are what the
    tokenizer returned. *)
Definition parse_tokens (tokens : list token) (seen_var : option string)
  : run parsed :=
  r <~ parse_expr (fuel_of tokens) tokens 0 ;;
  let '(raw, pos) := r in
  if negb (pos =? List.length tokens)%nat
  then Fail (SyntaxError ("string wasn't parsed beyond index "
                          ++ str_Z (Z.of_nat pos)))
  else
    match normalize raw with
    | Raise e => Fail (Uncaught e)
    | Ret canonical =>
        Done {| ast := canonical;
                var := match seen_var with
                       | Some (String _ _ as name) => name
                       | _ => "x"
                       end |}
    end.

End Parser.


(** A run that, when it returns, gives a raw AST and a position beyond
    [pos], within the token list. *)
Definition advances (tokens : list Parser.token) (pos : nat)
    (r : Parser.run (expr * nat)) : Prop :=
  forall ast pos', r = Parser.Done (ast, pos') ->
    raw_ast ast = true /\ (pos < pos' <= List.length tokens)%nat.


(** A ["NUMBER"] token as the tokenizer builds it from a string of digits. *)
Definition number_ok (t : Parser.token) : bool :=
  match t with
  | Parser.NUMBER n => 0 <=? n
  | _ => true
  end.

Definition not_const (e : expr) : bool :=
  match e with Const _ => false | _ => true end.

(** A Const node, if it is one, holds a non-negative [int]. *)
Definition natural (e : expr) : bool :=
  match e with
  | Const value => (Qden value =? 1)%positive && (0 <=? Qnum value)
  | _ => true
  end.

(** The errors a run of the parser can end with: its own [SyntaxError]s,
    the one on a negative exponent apart, and its [IOError]. *)
Definition reachable_error (e : Parser.error) : bool :=
  match e with
  | Parser.SyntaxError message =>
      negb (String.eqb message "Negative exponents not supported yet")
  | Parser.IOError _ => true
  | Parser.Uncaught _ => false
  end.

(** A run that returns a value in [Q], ends with a reachable error, or has
    no fuel left. *)
Definition run_ok {A : Type} (Q : A -> Prop) (r : Parser.run A) : Prop :=
  match r with
  | Parser.Done a => Q a
  | Parser.Fail e => reachable_error e = true
  | Parser.OutOfFuel => True
  end.


(** ** core.py, the string entry points

    [integrate_string] and [differentiate_string] from the token list on:
    every exception of [parse_string] is caught and its text returned in
    an error dictionary; the call of the engine is outside the [try]. The
    text of an exception that is not the parser's own is left abstract. *)

Section StringApi.

Variable str_float : Q -> string.
Variable str_exn : exn -> string.

(** [str(e)]. *)
Definition str_error (e : Parser.error) : string :=
  match e with
  | Parser.SyntaxError message => message
  | Parser.IOError message => message
  | Parser.Uncaught x => str_exn x
  end.

Definition integrate_tokens (tokens : list Parser.token)
    (seen_var : option string) (mode : string)
  : Parser.run (outcome response) :=
  match Parser.parse_tokens tokens seen_var with
  | Parser.Done parsed =>
      Parser.Done (integrate str_float (Parser.ast parsed) mode (Parser.var parsed))
  | Parser.Fail e => Parser.Done (Ret (Failure (str_error e)))
  | Parser.OutOfFuel => Parser.OutOfFuel
  end.

Definition differentiate_tokens (tokens : list Parser.token)
    (seen_var : option string) (mode : string)
  : Parser.run (outcome response) :=
  match Parser.parse_tokens tokens seen_var with
  | Parser.Done parsed =>
      Parser.Done (differentiate str_float (Parser.ast parsed) mode
                                 (Parser.var parsed))
  | Parser.Fail e => Parser.Done (Ret (Failure (str_error e)))
  | Parser.OutOfFuel => Parser.OutOfFuel
  end.

End StringApi.

(** An outcome of an engine that is a success with a tree as result, an
    error dictionary, or the [KeyError] on a missing ["type"] key. *)
Definition contained (r : outcome response) : Prop :=
  match r with
  | Ret (Success o) => tree (result o) = true
  | Ret (Failure _) => True
  | Raise x => x = KeyError "type"
  end.


(** ** parser.py, the tokenizer

    [tokenize] on a string of ASCII characters without a decimal literal:
    a character beyond ASCII (whose classes would be Unicode's) and a
    literal with a point (a [float]) are outside the model. [int] of a
    literal of more than 4300 digits raises [ValueError] (the interpreter's
    default limit on the conversion). The scanning
    loops run on the rest of the string instead of an index; the outer loop
    recurses on a fuel, and the length of the string plus one is enough. *)

Module Tokenizer.

Inductive lexed : Type :=
  | Lexed (tokens : list Parser.token) (seen_var : option string)
  | Raised (e : Parser.error)
  | ValueError
  | Unmodelled
  | OutOfFuel.

Definition between (lo hi : N) (ch : ascii) : bool :=
  (lo <=? N_of_ascii ch)%N && (N_of_ascii ch <=? hi)%N.

Definition is_ascii (ch : ascii) : bool := (N_of_ascii ch <? 128)%N.

(** [ch.isspace()], [ch.isdigit()], [ch.isalpha()] on ASCII. *)
Definition isspace (ch : ascii) : bool := between 9 13 ch || between 28 32 ch.
Definition isdigit (ch : ascii) : bool := between 48 57 ch.
Definition isalpha (ch : ascii) : bool := between 65 90 ch || between 97 122 ch.

Fixpoint all_ascii (s : string) : bool :=
  match s with
  | EmptyString => true
  | String ch rest => is_ascii ch && all_ascii rest
  end.

(** The loop over a number: the digits and at most one point read from
    [s], and the rest of the string. *)
Fixpoint scan_number (s : string) (dot_seen : bool) : string * string :=
  match s with
  | EmptyString => (EmptyString, EmptyString)
  | String ch rest =>
      if isdigit ch then
        let '(number_str, s') := scan_number rest dot_seen in
        (String ch number_str, s')
      else if Ascii.eqb ch "." && negb dot_seen then
        let '(number_str, s') := scan_number rest true in
        (String ch number_str, s')
      else (EmptyString, s)
  end.

(** The loop over a name. *)
Fixpoint scan_alpha (s : string) : string * string :=
  match s with
  | EmptyString => (EmptyString, EmptyString)
  | String ch rest =>
      if isalpha ch then
        let '(name, s') := scan_alpha rest in (String ch name, s')
      else (EmptyString, s)
  end.

(** [number_str.count(".")]. *)
Fixpoint count_dots (s : string) : nat :=
  match s with
  | EmptyString => O
  | String ch rest => ((if Ascii.eqb ch "." then 1 else 0) + count_dots rest)%nat
  end.

(** [int(number_str)] on a string of digits. *)
Fixpoint int_digits (s : string) (acc : Z) : Z :=
  match s with
  | EmptyString => acc
  | String ch rest => int_digits rest (10 * acc + Z.of_N (N_of_ascii ch - 48))
  end.

Definition symbol (ch : ascii) : option Parser.token :=
  if Ascii.eqb ch "(" then Some Parser.LPAREN
  else if Ascii.eqb ch ")" then Some Parser.RPAREN
  else if Ascii.eqb ch "+" then Some (Parser.OP Parser.Plus)
  else if Ascii.eqb ch "-" then Some (Parser.OP Parser.Minus)
  else if Ascii.eqb ch "^" then Some (Parser.OP Parser.Caret)
  else if Ascii.eqb ch "*" then Some (Parser.OP Parser.Star)
  else None.

Fixpoint tokenize_loop (fuel : nat) (s : string) (tokens : list Parser.token)
    (seen_var : option string) : lexed :=
  match fuel with
  | O => OutOfFuel
  | S fuel =>
      match s with
      | EmptyString => Lexed tokens seen_var
      | String ch rest =>
          if isspace ch then tokenize_loop fuel rest tokens seen_var
          else if isdigit ch then
            let '(number_str, s') := scan_number s false in
            if (count_dots number_str =? 1)%nat then Unmodelled
            else if (4300 <? String.length number_str)%nat then ValueError
            else tokenize_loop fuel s'
                   (tokens ++ [Parser.NUMBER (int_digits number_str 0)]) seen_var
          else if isalpha ch then
            let '(name, s') := scan_alpha s in
            if (String.length name =? 1)%nat then
              match seen_var with
              | None =>
                  tokenize_loop fuel s' (tokens ++ [Parser.VAR name]) (Some name)
              | Some seen =>
                  if negb (String.eqb name seen) then
                    Raised (Parser.SyntaxError
                              ("Multiple Variables not supported: "
                               ++ seen ++ ", " ++ name))
                  else tokenize_loop fuel s' (tokens ++ [Parser.VAR name]) seen_var
              end
            else tokenize_loop fuel s' (tokens ++ [Parser.NAME name]) seen_var
          else
            match symbol ch with
            | Some t => tokenize_loop fuel rest (tokens ++ [t]) seen_var
            | None => Raised (Parser.SyntaxError
                                ("Invalid Input Character: "
                                 ++ String ch EmptyString))
            end
      end
  end.

Definition tokenize (s : string) : lexed :=
  if all_ascii s then tokenize_loop (S (String.length s)) s [] None
  else Unmodelled.

End Tokenizer.


(** What the tokenizer keeps true of its two accumulators: the numbers are
    non-negative, and the VAR tokens all carry the one-letter name kept in
    [seen_var]. *)
Definition lexed_ok (tokens : list Parser.token) (seen_var : option string) : Prop :=
  forallb number_ok tokens = true
  /\ (forall name, In (Parser.VAR name) tokens -> seen_var = Some name)
  /\ (forall name, seen_var = Some name ->
        In (Parser.VAR name) tokens /\ String.length name = 1%nat).


(** ** The numbers Python prints

    [str_Z] and the float formatting are total here. In CPython the
    conversion of an [int] to its decimal string raises [ValueError] when
    the number has more than 4300 digits (the interpreter's default limit),
    and [float(value)] raises [OverflowError] beyond the double range;
    these two exceptions are outside the model. A statement that needs a
    number printed carries [digits_ok] or [printable] as a hypothesis;
    nothing is stated about what happens beyond them. *)

(** [str(z)] returns: [z] has at most 4300 digits. *)
Definition digits_ok (z : Z) : bool :=
  (String.length (str_Z (Z.abs z)) <=? 4300)%nat.

(** The numbers a node holds can be printed. *)
Definition check_printable (node : expr) : bool :=
  match node with
  | Const value => digits_ok (Qnum value) && digits_ok (Zpos (Qden value))
  | Mul c _ => digits_ok (Qnum c) && digits_ok (Zpos (Qden c))
  | Power _ exp => digits_ok exp
  | _ => true
  end.

Definition printable (e : expr) : bool := walk check_printable e.


(** The same, spelled out over the exceptions of the model: of the lookup
    exceptions only the [KeyError] on ["type"] occurs, and a success holds
    a tree. *)
Definition lookups_contained (r : outcome response) : Prop :=
  r <> Raise TypeError /\ r <> Raise IndexError /\ r <> Raise AttributeError
  /\ (forall key, r = Raise (KeyError key) -> key = "type"%string)
  /\ (forall o, r = Ret (Success o) -> tree (result o) = true).


(** * Properties *)

(** ** Induction over nested trees, and the outcome monad *)

Lemma expr_nested_ind (P : expr -> Prop)
    (HConst : forall v, P (Const v))
    (HVar : forall s, P (Var s))
    (HPower : forall b n, P b -> P (Power b n))
    (HMul : forall c i, P i -> P (Mul c i))
    (HProd : forall fs, Forall P fs -> P (Prod fs))
    (HSum : forall ts, Forall P ts -> P (Sum ts))
    (HFunc : forall name a, P a -> P (Func name a))
    (HErr : forall r, P (ErrorObj r))
    (HNone : P NoneVal) :
  forall e, P e.
Proof.
  fix IH 1.
  intros [v|s|b n|c i|fs|ts|name a|r|].
  - apply HConst.
  - apply HVar.
  - apply HPower, IH.
  - apply HMul, IH.
  - apply HProd. revert fs. fix IHl 1.
    intros [|f fs]; constructor; [apply IH | apply IHl].
  - apply HSum. revert ts. fix IHl 1.
    intros [|t ts]; constructor; [apply IH | apply IHl].
  - apply HFunc, IH.
  - apply HErr.
  - apply HNone.
Qed.

Lemma bind_Ret {A B : Type} (m : outcome A) (k : A -> outcome B) (b : B) :
  bind m k = Ret b -> exists a, m = Ret a /\ k a = Ret b.
Proof.
  destruct m as [a|e]; simpl; intros H; [eauto | discriminate].
Qed.

Lemma mapM_Ret {A B : Type} (f : A -> outcome B) (l : list A) (ys : list B) :
  mapM f l = Ret ys -> Forall2 (fun x y => f x = Ret y) l ys.
Proof.
  revert ys. induction l as [|x l IH]; simpl; intros ys H.
  - injection H as <-. constructor.
  - apply bind_Ret in H as (y & Hy & H).
    apply bind_Ret in H as (ys' & Hys & H).
    injection H as <-. constructor; auto.
Qed.

Lemma mapM_pure {A B : Type} (f : A -> outcome B) (g : A -> B) (l : list A) :
  Forall (fun x => f x = Ret (g x)) l -> mapM f l = Ret (map g l).
Proof.
  induction 1 as [|x l Hx _ IH]; simpl; [reflexivity|].
  rewrite Hx. simpl. rewrite IH. reflexivity.
Qed.

(** ** Numbers *)

Lemma qmul_nonzero (a b : Q) :
  Qeq_bool a 0 = false -> Qeq_bool b 0 = false -> Qeq_bool (qmul a b) 0 = false.
Proof.
  intros Ha Hb. apply Qeq_bool_neq in Ha. apply Qeq_bool_neq in Hb.
  destruct (Qeq_bool (qmul a b) 0) eqn:E; [|reflexivity].
  apply Qeq_bool_eq in E. unfold qmul in E. rewrite Qred_correct in E.
  apply Qmult_integral in E. tauto.
Qed.

(** ** The stable sort on kind ranks *)

Lemma insert_keyed_pass {A : Type} (x : Z * A) (a b : list (Z * A)) :
  Forall (fun y => fst y < fst x) a ->
  insert_keyed x (a ++ b) = a ++ insert_keyed x b.
Proof.
  induction 1 as [|y a Hy _ IH]; simpl; [reflexivity|].
  destruct (Z.leb_spec (fst x) (fst y)); [lia|]. now rewrite IH.
Qed.

Lemma insert_keyed_stop {A : Type} (x : Z * A) (b : list (Z * A)) :
  Forall (fun y => fst x <= fst y) b -> insert_keyed x b = x :: b.
Proof.
  destruct 1 as [|y b Hy _]; simpl; [reflexivity|].
  destruct (Z.leb_spec (fst x) (fst y)); [reflexivity | lia].
Qed.

Lemma by_rank_keys (k : Z) (l : list expr) :
  Forall (fun y => fst y = k) (map keyed (by_rank k l)).
Proof.
  unfold by_rank. induction l as [|f l IH]; simpl; [constructor|].
  destruct (Z.eqb_spec (rank f) k); simpl; auto.
Qed.

Lemma by_rank_cons (k : Z) (f : expr) (l : list expr) :
  by_rank k (f :: l) = if rank f =? k then f :: by_rank k l else by_rank k l.
Proof. reflexivity. Qed.

Lemma okatom_rank (f : expr) : okatom f = true -> rank f = 0 \/ rank f = 1 \/ rank f = 2.
Proof. destruct f; simpl; intros; try discriminate; auto. Qed.

Lemma sort_keyed_sort3 (l : list expr) :
  Forall (fun f => okatom f = true) l ->
  sort_keyed (map keyed l) = map keyed (sort3 l).
Proof.
  induction 1 as [|f l Hf _ IH]; [reflexivity|].
  simpl. rewrite IH. unfold sort3. rewrite !by_rank_cons.
  pose proof (by_rank_keys 0 l) as K0.
  pose proof (by_rank_keys 1 l) as K1.
  pose proof (by_rank_keys 2 l) as K2.
  rewrite !map_app.
  assert (Hk : fst (keyed f) = rank f) by reflexivity.
  destruct (okatom_rank f Hf) as [R|[R|R]]; rewrite R; simpl.
  - apply insert_keyed_stop. rewrite !Forall_app, Hk, R.
    repeat split; eapply Forall_impl; try eassumption; simpl; intros; lia.
  - rewrite insert_keyed_pass.
    + f_equal. apply insert_keyed_stop. rewrite !Forall_app, Hk, R.
      split; eapply Forall_impl; try eassumption; simpl; intros; lia.
    + rewrite Hk, R.
      eapply Forall_impl; try eassumption; simpl; intros; lia.
  - rewrite app_assoc. rewrite insert_keyed_pass.
    + rewrite <- app_assoc. do 2 f_equal.
      apply insert_keyed_stop. rewrite Hk, R.
      eapply Forall_impl; try eassumption; simpl; intros; lia.
    + rewrite Forall_app, Hk, R.
      split; eapply Forall_impl; try eassumption; simpl; intros; lia.
Qed.

Lemma sorted_okatom (l : list expr) :
  Forall (fun f => okatom f = true) l -> sorted l prod_order_key = Ret (sort3 l).
Proof.
  intros H. unfold sorted.
  rewrite (mapM_pure prod_order_key rank).
  - simpl. f_equal.
    replace (combine (map rank l) l) with (map keyed l).
    + rewrite sort_keyed_sort3 by assumption.
      rewrite map_map. simpl. apply map_id.
    + clear H. induction l as [|f l IH]; simpl; [reflexivity | now rewrite IH].
  - eapply Forall_impl; [|exact H]. intros f Hf. destruct f; simpl in *; try discriminate; reflexivity.
Qed.

Lemma filter_comm {A : Type} (p q : A -> bool) (l : list A) :
  filter p (filter q l) = filter q (filter p l).
Proof.
  induction l as [|a l IH]; simpl; [reflexivity|].
  destruct (p a) eqn:Hp, (q a) eqn:Hq; simpl; rewrite ?Hp, ?Hq, IH; reflexivity.
Qed.

Lemma filter_idem {A : Type} (p : A -> bool) (l : list A) :
  filter p (filter p l) = filter p l.
Proof.
  induction l as [|a l IH]; simpl; [reflexivity|].
  destruct (p a) eqn:Hp; simpl; rewrite ?Hp, IH; reflexivity.
Qed.

Lemma filter_none {A : Type} (p q : A -> bool) (l : list A) :
  (forall a, p a = true -> q a = false) -> filter p (filter q l) = [].
Proof.
  intros H. induction l as [|a l IH]; simpl; [reflexivity|].
  destruct (q a) eqn:Hq; simpl; [|exact IH].
  destruct (p a) eqn:Hp; [|exact IH]. apply H in Hp. congruence.
Qed.

Lemma filter_all {A : Type} (p : A -> bool) (l : list A) :
  Forall (fun a => p a = true) l -> filter p l = l.
Proof.
  induction 1 as [|a l Ha _ IH]; simpl; [reflexivity|]. now rewrite Ha, IH.
Qed.

Lemma filter_sort3 (p : expr -> bool) (l : list expr) :
  filter p (sort3 l) = sort3 (filter p l).
Proof.
  unfold sort3, by_rank. rewrite !filter_app. f_equal; [|f_equal]; apply filter_comm.
Qed.

Lemma by_rank_same (k : Z) (l : list expr) : by_rank k (by_rank k l) = by_rank k l.
Proof. apply filter_idem. Qed.

Lemma by_rank_other (k j : Z) (l : list expr) : k <> j -> by_rank k (by_rank j l) = [].
Proof.
  intros H. apply filter_none. intros a Ha.
  apply Z.eqb_eq in Ha. apply Z.eqb_neq. congruence.
Qed.

Lemma by_rank_sort3 (k : Z) (l : list expr) :
  k = 0 \/ k = 1 \/ k = 2 -> by_rank k (sort3 l) = by_rank k l.
Proof.
  intros Hk. unfold sort3. unfold by_rank at 1. rewrite !filter_app.
  fold (by_rank k (by_rank 0 l)). fold (by_rank k (by_rank 1 l)).
  fold (by_rank k (by_rank 2 l)).
  destruct Hk as [ -> | [ -> | -> ] ];
    rewrite by_rank_same, !by_rank_other by lia; simpl; rewrite ?app_nil_r; reflexivity.
Qed.

Lemma by_rank_app (k : Z) (a b : list expr) :
  by_rank k (a ++ b) = by_rank k a ++ by_rank k b.
Proof. apply filter_app. Qed.

Lemma sort3_absorb (a b : list expr) : sort3 (sort3 a ++ b) = sort3 (a ++ b).
Proof.
  unfold sort3 at 1 3. rewrite !by_rank_app, !by_rank_sort3 by auto. reflexivity.
Qed.

Lemma sort3_In (f : expr) (l : list expr) : In f (sort3 l) -> In f l.
Proof.
  unfold sort3, by_rank. rewrite !in_app_iff, !filter_In. tauto.
Qed.

Lemma sort3_Forall (P : expr -> Prop) (l : list expr) :
  Forall P l -> Forall P (sort3 l).
Proof.
  rewrite !Forall_forall. intros H f Hf. apply H, sort3_In, Hf.
Qed.

Lemma sort3_length (l : list expr) :
  Forall (fun f => okatom f = true) l -> List.length (sort3 l) = List.length l.
Proof.
  unfold sort3. induction 1 as [|f l Hf _ IH]; [reflexivity|].
  rewrite !by_rank_cons. rewrite !length_app in *.
  destruct (okatom_rank f Hf) as [R|[R|R]]; rewrite R; simpl; lia.
Qed.

Lemma sort3_single (f : expr) : okatom f = true -> sort3 [f] = [f].
Proof.
  intros Hf. unfold sort3. rewrite !by_rank_cons.
  destruct (okatom_rank f Hf) as [R|[R|R]]; rewrite R; reflexivity.
Qed.

Lemma nondecreasing_app (a b : list Z) (k : Z) :
  Forall (fun y => y = k) a -> Forall (fun y => k <= y) b ->
  nondecreasing b = true -> nondecreasing (a ++ b) = true.
Proof.
  intros Ha Hb Hnd. induction Ha as [|y a Hy Ha IH]; [exact Hnd|].
  simpl. destruct (a ++ b) as [|z r] eqn:E; [reflexivity|].
  rewrite IH, andb_true_r. apply Z.leb_le. subst y.
  destruct Ha as [|y' a' Hy' _]; simpl in E.
  - subst b. inversion Hb; subst. assumption.
  - injection E as <- _. lia.
Qed.

Lemma by_rank_ranks (k : Z) (l : list expr) :
  Forall (fun y => y = k) (map rank (by_rank k l)).
Proof.
  unfold by_rank. induction l as [|f l IH]; simpl; [constructor|].
  destruct (Z.eqb_spec (rank f) k); simpl; auto.
Qed.

Lemma sort3_nondecreasing (l : list expr) :
  nondecreasing (map rank (sort3 l)) = true.
Proof.
  unfold sort3. rewrite !map_app.
  pose proof (by_rank_ranks 0 l) as K0.
  pose proof (by_rank_ranks 1 l) as K1.
  pose proof (by_rank_ranks 2 l) as K2.
  apply nondecreasing_app with (k := 0); [exact K0| |].
  - rewrite Forall_app. split; eapply Forall_impl; try eassumption; simpl; intros; lia.
  - apply nondecreasing_app with (k := 1); [exact K1| |].
    + eapply Forall_impl; try eassumption; simpl; intros; lia.
    + rewrite <- (app_nil_r (map rank (by_rank 2 l))).
      apply nondecreasing_app with (k := 2); [exact K2|constructor|reflexivity].
Qed.

(** ** Steps 2 to 5 of [normalize_prod] on atomic factors *)

Lemma prod_absorb_okatom (a : list expr) (pc : Q) (acc : list expr) :
  Forall (fun f => okatom f = true) a ->
  prod_absorb a pc acc = Ret (Collected pc (acc ++ a)).
Proof.
  intros H. revert acc. induction H as [|f a Hf _ IH]; intros acc; simpl.
  - now rewrite app_nil_r.
  - destruct f; simpl in Hf; try discriminate;
      rewrite IH, <- app_assoc; reflexivity.
Qed.

Lemma prod_canonical_var_okatom (a : list expr) :
  Forall (fun f => okatom f = true) a -> prod_canonical_var a = Ret (first_var a).
Proof.
  induction 1 as [|f a Hf _ IH]; simpl; [reflexivity|].
  destruct f as [| |b n| | | | | |]; simpl in Hf; try discriminate; auto.
  destruct b; simpl in Hf; try discriminate; auto.
Qed.

Lemma psum_cons (f : expr) (a : list expr) : psum (f :: a) = var_exp f + psum a.
Proof. reflexivity. Qed.

Lemma prod_combine_okatom (a : list expr) (ps : Z) (acc : list expr) :
  Forall (fun f => okatom f = true) a ->
  prod_combine a ps acc = Ret (ps + psum a, acc ++ filter not_varish a).
Proof.
  intros H. revert ps acc. induction H as [|f a Hf _ IH]; intros ps acc.
  - simpl. now rewrite Z.add_0_r, app_nil_r.
  - rewrite psum_cons.
    destruct f as [| |b n| | | | | |]; simpl in Hf; try discriminate.
    + cbn -[psum Z.add]. rewrite IH. do 2 f_equal. lia.
    + destruct b; simpl in Hf; try discriminate; cbn -[psum Z.add]; rewrite IH;
        do 2 f_equal; try lia; now rewrite <- ?app_assoc.
    + cbn -[psum Z.add]. rewrite IH. do 2 f_equal; try lia; now rewrite <- ?app_assoc.
Qed.

Lemma first_var_None (a : list expr) : first_var a = None -> psum a = 0.
Proof.
  induction a as [|f a IH]; simpl; [reflexivity|].
  destruct f as [| |b n| | | | | |]; try discriminate; simpl; auto.
  destruct b; try discriminate; simpl; auto.
Qed.

Lemma first_var_Some (a : list expr) (c : expr) :
  first_var a = Some c -> exists s, c = Var s.
Proof.
  induction a as [|f a IH]; simpl; [discriminate|].
  destruct f as [| |b n| | | | | |]; auto.
  - intros [= <-]. eauto.
  - destruct b; auto. intros [= <-]. eauto.
Qed.

(** The appended variable factor: nothing, the variable, or a power of it. *)
Lemma var_part_cases (a : list expr) :
  var_part (first_var a) (psum a) = []
  \/ (exists s, var_part (first_var a) (psum a) = [Var s] /\ psum a = 1)
  \/ (exists s, var_part (first_var a) (psum a) = [Power (Var s) (psum a)]
                /\ 2 <= psum a).
Proof.
  unfold var_part.
  destruct (Z.eqb_spec (psum a) 1) as [E1|E1].
  - right; left. destruct (first_var a) as [c|] eqn:Ec.
    + destruct (first_var_Some _ _ Ec) as [s ->]. simpl. eauto.
    + apply first_var_None in Ec. lia.
  - destruct (Z.geb_spec (psum a) 2) as [E2|E2]; [|now left].
    right; right. destruct (first_var a) as [c|] eqn:Ec.
    + destruct (first_var_Some _ _ Ec) as [s ->]. simpl. eexists; split; [reflexivity|lia].
    + apply first_var_None in Ec. lia.
Qed.

Lemma var_part_okatom (a : list expr) :
  Forall (fun f => okatom f = true) (var_part (first_var a) (psum a)).
Proof.
  destruct (var_part_cases a) as [->|[(s & -> & _)|(s & -> & _)]];
    repeat constructor.
Qed.

Lemma var_part_varish (a : list expr) :
  Forall (fun f => varish f = true) (var_part (first_var a) (psum a)).
Proof.
  destruct (var_part_cases a) as [->|[(s & -> & _)|(s & -> & _)]];
    repeat constructor.
Qed.

Lemma filter_Forall_in {A : Type} (P : A -> Prop) (p : A -> bool) (l : list A) :
  Forall P l -> Forall P (filter p l).
Proof.
  rewrite !Forall_forall. intros H a Ha. apply filter_In in Ha. apply H, Ha.
Qed.

Lemma pre_canon_okatom (a : list expr) :
  Forall (fun f => okatom f = true) a ->
  Forall (fun f => okatom f = true)
         (filter not_varish a ++ var_part (first_var a) (psum a)).
Proof.
  intros H. rewrite Forall_app. split.
  - apply filter_Forall_in, H.
  - apply var_part_okatom.
Qed.

Lemma canon_okatom (a : list expr) :
  Forall (fun f => okatom f = true) a -> Forall (fun f => okatom f = true) (canon a).
Proof. intros H. apply sort3_Forall, pre_canon_okatom, H. Qed.

Lemma prod_append_var_split (cv : option expr) (ps : Z) (o : list expr) :
  prod_append_var cv ps o = o ++ var_part cv ps.
Proof.
  unfold prod_append_var, var_part.
  destruct (ps =? 1); [reflexivity|].
  destruct (ps >=? 2); [reflexivity|]. now rewrite app_nil_r.
Qed.

(** On atomic factors, steps 2 to 5 return the rebuilt node of [canon]. *)
Lemma prod_assemble_okatom (a : list expr) :
  Forall (fun f => okatom f = true) a ->
  prod_assemble a = Ret (prod_rebuild 1 (canon a)).
Proof.
  intros H. unfold prod_assemble.
  rewrite prod_absorb_okatom by assumption. simpl.
  rewrite prod_canonical_var_okatom by assumption. simpl.
  rewrite prod_combine_okatom by assumption.
  cbn [bind fst snd app]. rewrite prod_append_var_split, Z.add_0_l.
  rewrite sorted_okatom by (apply pre_canon_okatom, H).
  reflexivity.
Qed.

Lemma psum_app (a b : list expr) : psum (a ++ b) = psum a + psum b.
Proof.
  unfold psum. induction a as [|f a IH]; simpl; [reflexivity|]. rewrite IH. lia.
Qed.

Lemma psum_varish (l : list expr) : psum (filter varish l) = psum l.
Proof.
  induction l as [|f l IH]; simpl; [reflexivity|].
  destruct (varish f) eqn:E.
  - change (psum (f :: filter varish l)) with (var_exp f + psum (filter varish l)).
    change (psum (f :: l)) with (var_exp f + psum l). now rewrite IH.
  - change (psum (f :: l)) with (var_exp f + psum l). rewrite IH.
    destruct f as [| |b n| | | | | |]; simpl in *; try discriminate; try reflexivity.
    destruct b; simpl in *; try discriminate; reflexivity.
Qed.

Lemma first_var_varish (l : list expr) : first_var (filter varish l) = first_var l.
Proof.
  induction l as [|f l IH]; simpl; [reflexivity|].
  destruct f as [| |b n| | | | | |]; simpl; auto.
  destruct b; simpl; auto.
Qed.

Lemma canon_varish (a : list expr) :
  filter varish (canon a) = var_part (first_var a) (psum a).
Proof.
  unfold canon. rewrite filter_sort3, filter_app.
  rewrite (filter_none varish not_varish).
  - simpl. rewrite filter_all by apply var_part_varish.
    destruct (var_part_cases a) as [->|[(s & -> & _)|(s & -> & _)]];
      [reflexivity | apply sort3_single; reflexivity | apply sort3_single; reflexivity].
  - intros f Hf. unfold not_varish. now rewrite Hf.
Qed.

Lemma filter_reject {A : Type} (p : A -> bool) (l : list A) :
  Forall (fun a => p a = false) l -> filter p l = [].
Proof.
  induction 1 as [|a l Ha _ IH]; simpl; [reflexivity|]. now rewrite Ha.
Qed.

Lemma canon_not_varish (a : list expr) :
  filter not_varish (canon a) = sort3 (filter not_varish a).
Proof.
  unfold canon. rewrite filter_sort3, filter_app, filter_idem.
  rewrite (filter_reject not_varish (var_part _ _)).
  - now rewrite app_nil_r.
  - eapply Forall_impl; [|apply var_part_varish].
    intros f Hf. unfold not_varish. now rewrite Hf.
Qed.

Lemma var_part_fixed (a : list expr) :
  let vl := var_part (first_var a) (psum a) in
  var_part (first_var vl) (psum vl) = vl.
Proof.
  destruct (var_part_cases a) as [->|[(s & -> & _)|(s & -> & H2)]];
    cbv zeta; [reflexivity | reflexivity |].
  cbn [first_var]. rewrite psum_cons. cbn [var_exp].
  change (psum []) with 0. rewrite Z.add_0_r. unfold var_part.
  destruct (Z.eqb_spec (psum a) 1); [lia|].
  destruct (Z.geb_spec (psum a) 2); [reflexivity|lia].
Qed.

(** [canon] is a fixed point of itself: re-assembling an assembled factor
    list changes nothing. *)
Lemma canon_idem (a : list expr) : canon (canon a) = canon a.
Proof.
  unfold canon at 1.
  rewrite canon_not_varish.
  rewrite <- (first_var_varish (canon a)), <- (psum_varish (canon a)).
  rewrite canon_varish, var_part_fixed.
  rewrite sort3_absorb. reflexivity.
Qed.

(** A factor of the assembled list is a factor of the input, the variable,
    or a new power of the variable with exponent at least 2. *)
Lemma canon_In (a : list expr) (f : expr) :
  In f (canon a) ->
  In f a \/ (exists s, f = Var s) \/ (exists s n, f = Power (Var s) n /\ 2 <= n).
Proof.
  unfold canon. intros H. apply sort3_In in H. apply in_app_iff in H as [H|H].
  - left. apply filter_In in H. tauto.
  - destruct (var_part_cases a) as [E|[(s & E & E1)|(s & E & E2)]];
      rewrite E in H; simpl in H.
    + contradiction.
    + destruct H as [<-|[]]. eauto.
    + destruct H as [<-|[]]. eauto 6.
Qed.

Lemma canon_length (a : list expr) :
  Forall (fun f => okatom f = true) a ->
  List.length (canon a) =
  List.length (filter not_varish a ++ var_part (first_var a) (psum a)).
Proof. intros H. apply sort3_length, pre_canon_okatom, H. Qed.

(** ** Every value [normalize] returns is [normal] *)

Lemma normal_not_None : ~ normal NoneVal.
Proof. inversion 1. Qed.

Lemma normal_okatom_mul_inner (f : expr) : okatom f = true -> mul_inner_ok f = true.
Proof. destruct f; simpl; intros; try discriminate; reflexivity. Qed.

Lemma prod_absorb_cases (fl : list expr) (pc : Q) (acc : list expr) :
  Forall normal fl -> Qeq_bool pc 0 = false ->
  prod_absorb fl pc acc = Raise (KeyError "type")
  \/ prod_absorb fl pc acc = Ret (Returned (Const 0))
  \/ (exists r, prod_absorb fl pc acc = Ret (Returned (ErrorObj r)))
  \/ (exists pc', prod_absorb fl pc acc = Ret (Collected pc' (acc ++ filter is_atomic fl))
                  /\ Qeq_bool pc' 0 = false).
Proof.
  intros H. revert pc acc. induction H as [|f fl Hf _ IH]; intros pc acc Hpc.
  - simpl. right; right; right. exists pc. now rewrite app_nil_r.
  - assert (Hkeep : is_atomic f = true ->
        let r := prod_absorb fl pc (acc ++ [f]) in
        r = Raise (KeyError "type")
        \/ r = Ret (Returned (Const 0))
        \/ (exists r', r = Ret (Returned (ErrorObj r')))
        \/ (exists pc', r = Ret (Collected pc' (acc ++ filter is_atomic (f :: fl)))
                        /\ Qeq_bool pc' 0 = false)).
    { intros Hat. simpl. rewrite Hat.
      replace (acc ++ f :: filter is_atomic fl)
        with ((acc ++ [f]) ++ filter is_atomic fl) by now rewrite <- app_assoc.
      apply IH, Hpc. }
    destruct f; try (apply Hkeep; reflexivity); simpl.
    + destruct (Qeq_bool value 0) eqn:Ev; [auto|].
      apply IH. now apply qmul_nonzero.
    + right; right; left. unfold unsupported. eauto.
    + right; right; left. unfold unsupported. eauto.
    + right; right; left. unfold unsupported. eauto.
    + now left.
    + destruct (normal_not_None Hf).
Qed.

Lemma atomic_cases (a : list expr) :
  Forall normal a -> Forall (fun f => is_atomic f = true) a ->
  Forall (fun f => okatom f = true) a
  \/ ((forall ps acc, prod_combine a ps acc = Raise (KeyError "type"))
      /\ (prod_canonical_var a = Raise (KeyError "type")
          \/ exists o, prod_canonical_var a = Ret o)).
Proof.
  intros Hn Ha. induction Hn as [|f a Hf Hn IH]; [left; constructor|].
  inversion Ha as [|? ? Hfa Ha']; subst. specialize (IH Ha').
  destruct f as [| |b n| | | | | |]; simpl in Hfa; try discriminate.
  - destruct IH as [IH|[IHc IHv]]; [left; constructor; auto|].
    right. split; [intros; simpl; apply IHc | simpl; eauto].
  - inversion Hf; subst.
    destruct b; try (exfalso; eapply normal_not_None; eassumption);
      try (destruct IH as [IH|[IHc IHv]];
           [left; constructor; auto | right; split; [intros; simpl; apply IHc | simpl; eauto]]).
    right. split; [reflexivity | left; reflexivity].
  - destruct IH as [IH|[IHc IHv]]; [left; constructor; auto|].
    right. split; [intros; simpl; apply IHc | simpl; exact IHv].
Qed.

Lemma prod_assemble_cases (fl : list expr) :
  Forall normal fl ->
  prod_assemble fl = Raise (KeyError "type")
  \/ prod_assemble fl = Ret (Const 0)
  \/ (exists r, prod_assemble fl = Ret (ErrorObj r))
  \/ (exists pc a, Forall (fun f => okatom f = true) a
                   /\ (forall f, In f a -> In f fl)
                   /\ Qeq_bool pc 0 = false
                   /\ prod_assemble fl = Ret (prod_rebuild pc (canon a))).
Proof.
  intros H. unfold prod_assemble.
  destruct (prod_absorb_cases fl 1 [] H eq_refl) as [E|[E|[(r & E)|(pc & E & Hpc)]]];
    rewrite E; simpl; eauto.
  set (a := filter is_atomic fl).
  assert (Hn : Forall normal a) by (apply filter_Forall_in, H).
  assert (Ha : Forall (fun f => is_atomic f = true) a).
  { apply Forall_forall. intros f Hf. apply filter_In in Hf. tauto. }
  destruct (atomic_cases a Hn Ha) as [Hok|[Hc Hv]].
  - right; right; right. exists pc, a. repeat split; try assumption.
    + intros f Hf. apply filter_In in Hf. tauto.
    + rewrite prod_canonical_var_okatom by assumption. simpl.
      rewrite prod_combine_okatom by assumption.
      cbn [bind fst snd app]. rewrite prod_append_var_split, Z.add_0_l.
      rewrite sorted_okatom by (apply pre_canon_okatom, Hok).
      reflexivity.
  - left. destruct Hv as [->|(o & ->)]; simpl; [reflexivity|]. now rewrite Hc.
Qed.

Lemma canon_normal (a : list expr) :
  Forall normal a -> Forall normal (canon a).
Proof.
  intros H. apply Forall_forall. intros f Hf.
  destruct (canon_In _ _ Hf) as [Hin|[(s & ->)|(s & n & -> & Hn)]].
  - rewrite Forall_forall in H. auto.
  - constructor.
  - constructor; [lia | lia | constructor].
Qed.

Lemma forallb_Forall {A : Type} (p : A -> bool) (l : list A) :
  forallb p l = true <-> Forall (fun a => p a = true) l.
Proof.
  rewrite forallb_forall, Forall_forall. reflexivity.
Qed.

Lemma prod_rebuild_canon_fixed (l : list expr) :
  Forall (fun f => okatom f = true) l -> canon l = l -> (2 <= List.length l)%nat ->
  prod_assemble l = Ret (Prod l).
Proof.
  intros Hok Hc Hlen. rewrite prod_assemble_okatom by assumption. rewrite Hc.
  destruct l as [|f [|g l]]; simpl in Hlen; try lia. reflexivity.
Qed.

Lemma prod_rebuild_normal (pc : Q) (a : list expr) :
  Forall normal a -> Forall (fun f => okatom f = true) a ->
  Qeq_bool pc 0 = false -> normal (prod_rebuild pc (canon a)).
Proof.
  intros Hn Hok Hpc.
  pose proof (canon_normal a Hn) as HnL.
  pose proof (canon_okatom a Hok) as HokL.
  pose proof (canon_idem a) as Hid.
  destruct (canon a) as [|f [|g L]] eqn:EL; simpl.
  - constructor.
  - inversion HnL; subst. inversion HokL; subst.
    destruct (Qeq_bool pc 1); [assumption|].
    constructor; auto using normal_okatom_mul_inner.
  - assert (HP : normal (Prod (f :: g :: L))).
    { constructor; [simpl; lia | assumption | now apply forallb_Forall |].
      apply prod_rebuild_canon_fixed; [assumption | assumption | simpl; lia]. }
    destruct (Qeq_bool pc 1); simpl; [assumption|].
    constructor; auto.
Qed.

Lemma prod_assemble_normal (fl : list expr) :
  Forall normal fl ->
  match prod_assemble fl with
  | Ret v => normal v
  | Raise x => x = KeyError "type"
  end.
Proof.
  intros H.
  destruct (prod_assemble_cases fl H) as [E|[E|[(r & E)|(pc & a & Hok & Hin & Hpc & E)]]];
    rewrite E; try constructor.
  apply prod_rebuild_normal; try assumption.
  rewrite Forall_forall in *. auto.
Qed.

Lemma mapM_normalize_ok (ts : list expr) :
  Forall normalize_ok ts ->
  match mapM normalize ts with
  | Ret vs => Forall normal vs
  | Raise x => forallb tree ts = true -> x = KeyError "type"
  end.
Proof.
  induction 1 as [|t ts Ht _ IH]; simpl; [constructor|].
  unfold normalize_ok in Ht.
  destruct (normalize t) as [v|x]; simpl.
  - destruct (mapM normalize ts) as [vs|x]; simpl.
    + constructor; assumption.
    + intros HT. apply andb_prop in HT. tauto.
  - intros HT. apply andb_prop in HT. tauto.
Qed.

Lemma sum_collect_normal (vs acc : list expr) :
  Forall normal vs -> Forall normal acc -> forallb sum_term_ok acc = true ->
  match sum_collect vs acc with
  | Ret nt => Forall normal nt /\ forallb sum_term_ok nt = true
  | Raise x => x = KeyError "type"
  end.
Proof.
  intros H. revert acc. induction H as [|v vs Hv _ IH]; intros acc Hacc Hok; simpl.
  - auto.
  - assert (Hkeep : is_node v = true -> is_sum v = false -> is_zero_const v = false ->
                    match sum_collect vs (acc ++ [v]) with
                    | Ret nt => Forall normal nt /\ forallb sum_term_ok nt = true
                    | Raise x => x = KeyError "type"
                    end).
    { intros N S Z. apply IH.
      - apply Forall_app; auto.
      - rewrite forallb_app, Hok. simpl. unfold sum_term_ok. now rewrite N, S, Z. }
    destruct v; try (apply Hkeep; reflexivity).
    + destruct (Qeq_bool value 0) eqn:Ev; [apply IH; assumption|].
      apply Hkeep; auto.
    + inversion Hv; subst. apply IH.
      * apply Forall_app; auto.
      * rewrite forallb_app, Hok. assumption.
    + reflexivity.
    + destruct (normal_not_None Hv).
Qed.

Lemma prod_flatten_normal (fs acc : list expr) :
  Forall normalize_ok fs -> Forall normal acc ->
  match prod_flatten normalize fs acc with
  | Ret fl => Forall normal fl
  | Raise x => forallb tree fs = true -> x = KeyError "type"
  end.
Proof.
  intros H. revert acc. induction H as [|f fs Hf _ IH]; intros acc Hacc; simpl.
  - assumption.
  - unfold normalize_ok in Hf. destruct (normalize f) as [v|x]; simpl.
    + assert (Hkeep : match prod_flatten normalize fs (acc ++ [v]) with
                      | Ret fl => Forall normal fl
                      | Raise x => tree f && forallb tree fs = true -> x = KeyError "type"
                      end).
      { specialize (IH (acc ++ [v])).
        destruct (prod_flatten normalize fs (acc ++ [v])).
        - apply IH, Forall_app; auto.
        - intros Hx. apply andb_prop in Hx. apply IH; [apply Forall_app; auto | tauto]. }
      destruct v; try exact Hkeep.
      * inversion Hf; subst. specialize (IH (acc ++ factors)).
        destruct (prod_flatten normalize fs (acc ++ factors)).
        -- apply IH, Forall_app; auto.
        -- intros Hx. apply andb_prop in Hx. apply IH; [apply Forall_app; auto | tauto].
      * reflexivity.
      * destruct (normal_not_None Hf).
    + intros Hx. apply andb_prop in Hx. tauto.
Qed.

Lemma tree_Sum (ts : list expr) : tree (Sum ts) = forallb tree ts.
Proof. reflexivity. Qed.

Lemma tree_Prod (fs : list expr) : tree (Prod fs) = forallb tree fs.
Proof. reflexivity. Qed.

Lemma normalize_normal_ok (e : expr) : normalize_ok e.
Proof.
  induction e as [v|s|b n IH|c i IH|fs IH|ts IH|name a IH|r|] using expr_nested_ind;
    unfold normalize_ok in *.
  - constructor.
  - constructor.
  - simpl. unfold normalize_power. destruct (normalize b) as [v|x]; simpl.
    + destruct (Z.eqb_spec n 0); [constructor|].
      destruct (Z.eqb_spec n 1); [assumption|]. now constructor.
    + exact IH.
  - simpl. unfold normalize_mul. destruct (Qeq_bool c 0) eqn:Ec; [constructor|].
    destruct (normalize i) as [v|x]; simpl; [|exact IH].
    destruct v; try (destruct (Qeq_bool c 1); [assumption | now constructor]).
    + constructor.
    + inversion IH; subst. constructor; auto using qmul_nonzero.
    + reflexivity.
    + destruct (normal_not_None IH).
  - simpl. unfold normalize_prod.
    pose proof (prod_flatten_normal fs [] IH (Forall_nil _)) as Hfl.
    destruct (prod_flatten normalize fs []) as [fl|x]; simpl.
    + pose proof (prod_assemble_normal fl Hfl) as Hv.
      destruct (prod_assemble fl); [assumption | intros _; assumption].
    + rewrite tree_Prod. exact Hfl.
  - simpl. unfold normalize_sum.
    pose proof (mapM_normalize_ok ts IH) as Hvs.
    destruct (mapM normalize ts) as [vs|x]; simpl.
    + pose proof (sum_collect_normal vs [] Hvs (Forall_nil _) eq_refl) as Hnt.
      destruct (sum_collect vs []) as [nt|x]; simpl; [|intros _; assumption].
      destruct Hnt as [Hn Hok].
      destruct nt as [|t [|t' nt]]; [constructor | now inversion Hn |].
      constructor; [simpl; lia | assumption | assumption].
    + rewrite tree_Sum. exact Hvs.
  - simpl. unfold normalize_func. destruct (normalize a) as [v|x]; simpl; [|exact IH].
    destruct v; try constructor; try reflexivity.
    destruct (normal_not_None IH).
  - intros _. reflexivity.
  - discriminate.
Qed.

(** ** A normal tree without unit coefficients is a fixed point *)

Lemma mapM_fixed (ts : list expr) :
  Forall (fun t => normalize t = Ret t) ts -> mapM normalize ts = Ret ts.
Proof.
  induction 1 as [|t ts Ht _ IH]; simpl; [reflexivity|].
  rewrite Ht. simpl. rewrite IH. reflexivity.
Qed.

Lemma sum_collect_fixed (ts acc : list expr) :
  forallb sum_term_ok ts = true -> sum_collect ts acc = Ret (acc ++ ts).
Proof.
  revert acc. induction ts as [|t ts IH]; intros acc H; simpl.
  - now rewrite app_nil_r.
  - simpl in H. apply andb_prop in H as [Ht H]. unfold sum_term_ok in Ht.
    destruct t; simpl in Ht; try discriminate;
      try (rewrite IH by assumption; now rewrite <- app_assoc).
    destruct (Qeq_bool value 0); [discriminate|].
    rewrite IH by assumption. now rewrite <- app_assoc.
Qed.

Lemma prod_flatten_fixed (fs acc : list expr) :
  Forall (fun f => normalize f = Ret f) fs -> forallb okatom fs = true ->
  prod_flatten normalize fs acc = Ret (acc ++ fs).
Proof.
  intros H. revert acc. induction H as [|f fs Hf _ IH]; intros acc Hok; simpl.
  - now rewrite app_nil_r.
  - simpl in Hok. apply andb_prop in Hok as [Hfo Hok]. rewrite Hf. simpl.
    destruct f; simpl in Hfo; try discriminate;
      rewrite IH by assumption; now rewrite <- app_assoc.
Qed.

Lemma Forall_fixed (P Q : expr -> bool) (l : list expr) :
  Forall (fun t => normal t -> P t = true -> Q t = true -> normalize t = Ret t) l ->
  Forall normal l -> forallb P l = true -> forallb Q l = true ->
  Forall (fun t => normalize t = Ret t) l.
Proof.
  induction 1 as [|t l Ht _ IH]; intros Hn HP HQ; constructor.
  - inversion Hn; subst. simpl in HP, HQ.
    apply andb_prop in HP as [HP _]. apply andb_prop in HQ as [HQ _]. auto.
  - inversion Hn; subst. simpl in HP, HQ.
    apply andb_prop in HP as [_ HP]. apply andb_prop in HQ as [_ HQ]. auto.
Qed.

Lemma normal_fixed (v : expr) :
  normal v -> tree v = true -> walk check_no_unit_mul v = true ->
  normalize v = Ret v.
Proof.
  unfold tree.
  induction v as [q|s|b n IH|c i IH|fs IH|ts IH|name a IH|r|] using expr_nested_ind;
    intros Hn Ht Hu; simpl in Ht, Hu; try discriminate.
  - reflexivity.
  - reflexivity.
  - inversion Hn; subst. simpl. unfold normalize_power.
    rewrite IH by assumption. simpl.
    destruct (Z.eqb_spec n 0); [contradiction|].
    destruct (Z.eqb_spec n 1); [contradiction|]. reflexivity.
  - inversion Hn as [| | | |? ? Hc Hi Hni| | |]; subst.
    apply andb_prop in Hu as [Hu1 Hu]. apply negb_true_iff in Hu1.
    simpl. unfold normalize_mul. rewrite Hc, IH by assumption. simpl.
    destruct i; simpl in Hi; try discriminate; rewrite Hu1; reflexivity.
  - inversion Hn as [| | | | | |? Hlen Hnf Hok Hasm|]; subst.
    simpl. unfold normalize_prod.
    rewrite (prod_flatten_fixed fs []); [simpl; exact Hasm | | assumption].
    apply (Forall_fixed (walk (fun _ => true)) (walk check_no_unit_mul)); assumption.
  - inversion Hn as [| | | | |? Hlen Hnt Hok| |]; subst.
    simpl. unfold normalize_sum.
    rewrite mapM_fixed
      by (apply (Forall_fixed (walk (fun _ => true)) (walk check_no_unit_mul));
          assumption).
    simpl.
    rewrite sum_collect_fixed by assumption. simpl.
    destruct ts as [|t [|t' ts]]; simpl in Hlen; try lia. reflexivity.
  - inversion Hn; subst. simpl. unfold normalize_func.
    destruct a; simpl in *; try discriminate. reflexivity.
Qed.

(** ** Invariants of a normal tree *)

Lemma forallb_ext_in {A : Type} (p q : A -> bool) (l : list A) :
  Forall (fun a => p a = q a) l -> forallb p l = forallb q l.
Proof.
  induction 1 as [|a l Ha _ IH]; simpl; [reflexivity|]. now rewrite Ha, IH.
Qed.

Lemma forallb_andb {A : Type} (p q : A -> bool) (l : list A) :
  forallb (fun a => p a && q a) l = forallb p l && forallb q l.
Proof.
  induction l as [|a l IH]; simpl; [reflexivity|]. rewrite IH.
  destruct (p a), (q a), (forallb p l); reflexivity.
Qed.

Lemma walk_andb (p q : expr -> bool) (e : expr) :
  walk (fun n => p n && q n) e = walk p e && walk q e.
Proof.
  induction e as [v|s|b n IH|c i IH|fs IH|ts IH|name a IH|r|] using expr_nested_ind;
    simpl; try reflexivity.
  - rewrite IH. destruct (p (Power b n)), (q (Power b n)), (walk p b); reflexivity.
  - rewrite IH. destruct (p (Mul c i)), (q (Mul c i)), (walk p i); reflexivity.
  - rewrite (forallb_ext_in _ (fun f => walk p f && walk q f)) by exact IH.
    rewrite forallb_andb.
    destruct (p (Prod fs)), (q (Prod fs)), (forallb (walk p) fs); reflexivity.
  - rewrite (forallb_ext_in _ (fun f => walk p f && walk q f)) by exact IH.
    rewrite forallb_andb.
    destruct (p (Sum ts)), (q (Sum ts)), (forallb (walk p) ts); reflexivity.
  - rewrite IH. destruct (p (Func name a)), (q (Func name a)), (walk p a); reflexivity.
Qed.

Lemma okatom_is_atomic (f : expr) : okatom f = true -> is_atomic f = true.
Proof. destruct f; simpl; intros; try discriminate; reflexivity. Qed.

Lemma sum_term_ok_check (t : expr) :
  sum_term_ok t = true -> negb (is_sum t) && negb (is_zero_const t) = true.
Proof.
  unfold sum_term_ok. intros H. apply andb_prop in H as [H Hz].
  apply andb_prop in H as [_ Hs]. now rewrite Hs, Hz.
Qed.

Lemma forallb_impl {A : Type} (p q : A -> bool) (l : list A) :
  (forall a, p a = true -> q a = true) -> forallb p l = true -> forallb q l = true.
Proof.
  intros H. rewrite !forallb_forall. auto.
Qed.

(** A Prod that [normalize] built is its own assembled list. *)
Lemma normal_Prod_canon (fs : list expr) :
  forallb okatom fs = true -> prod_assemble fs = Ret (Prod fs) -> canon fs = fs.
Proof.
  intros Hok H. apply forallb_Forall in Hok.
  rewrite prod_assemble_okatom in H by assumption.
  pose proof (canon_okatom fs Hok) as HL.
  destruct (canon fs) as [|f [|g L]]; simpl in H.
  - discriminate.
  - injection H as ->. inversion HL; subst. discriminate.
  - injection H as <-. reflexivity.
Qed.

Lemma Forall_walk (check : expr -> bool) (l : list expr) :
  Forall (fun e => normal e -> tree e = true -> walk check e = true) l ->
  Forall normal l -> forallb tree l = true -> forallb (walk check) l = true.
Proof.
  induction 1 as [|t l Ht _ IH]; intros Hn HT; [reflexivity|].
  inversion Hn; subst. simpl in *. apply andb_prop in HT as [HT1 HT2].
  rewrite Ht, IH by assumption. reflexivity.
Qed.

Lemma normal_shape (v : expr) :
  normal v -> tree v = true -> walk check_shape v = true.
Proof.
  induction v as [q|s|b n IH|c i IH|fs IH|ts IH|name a IH|r|] using expr_nested_ind;
    intros Hn Ht; try discriminate; try reflexivity.
  - inversion Hn; subst. simpl. apply IH; assumption.
  - inversion Hn as [| | | |? ? Hc Hi Hni| | |]; subst.
    change (walk check_shape (Mul c i))
      with (check_shape (Mul c i) && walk check_shape i).
    rewrite IH by assumption.
    destruct i; simpl in Hi; try discriminate; reflexivity.
  - inversion Hn as [| | | | | |? Hlen Hnf Hok Hasm|]; subst.
    change (walk check_shape (Prod fs))
      with (check_shape (Prod fs) && forallb (walk check_shape) fs).
    rewrite (Forall_walk check_shape fs) by assumption.
    rewrite andb_true_r. unfold check_shape. simpl.
    rewrite (forallb_impl okatom is_atomic fs okatom_is_atomic Hok).
    rewrite <- (normal_Prod_canon fs Hok Hasm) at 2. unfold canon.
    rewrite sort3_nondecreasing.
    destruct (Z.leb_spec 2 (Z.of_nat (List.length fs))); [reflexivity | lia].
  - inversion Hn as [| | | | |? Hlen Hnt Hok| |]; subst.
    change (walk check_shape (Sum ts))
      with (check_shape (Sum ts) && forallb (walk check_shape) ts).
    rewrite (Forall_walk check_shape ts) by assumption.
    rewrite andb_true_r. unfold check_shape. simpl.
    rewrite (forallb_impl sum_term_ok _ ts sum_term_ok_check Hok).
    destruct (Z.leb_spec 2 (Z.of_nat (List.length ts))); [reflexivity | lia].
  - inversion Hn; subst. destruct a; simpl in *; try discriminate. reflexivity.
Qed.

(** With non-negative exponents, a normal tree has exponents at least 2. *)
Lemma Forall_walk_labels (check : expr -> bool) (lab : expr -> bool) (l : list expr) :
  Forall (fun e => normal e -> tree e = true -> lab e = true -> walk check e = true) l ->
  Forall normal l -> forallb tree l = true -> forallb lab l = true ->
  forallb (walk check) l = true.
Proof.
  induction 1 as [|t l Ht _ IH]; intros Hn HT HL; [reflexivity|].
  inversion Hn; subst. simpl in *.
  apply andb_prop in HT as [HT1 HT2]. apply andb_prop in HL as [HL1 HL2].
  rewrite Ht, IH by assumption. reflexivity.
Qed.

Lemma normal_power_exp (pname : string -> bool) (pprod : bool) (v : expr) :
  normal v -> tree v = true ->
  labels_ok (fun n => 0 <=? n) pname pprod v = true ->
  walk check_power_exp v = true.
Proof.
  induction v as [q|s|b n IH|c i IH|fs IH|ts IH|name a IH|r|] using expr_nested_ind;
    intros Hn Ht Hl; try discriminate; try reflexivity.
  - inversion Hn; subst. simpl in *. apply andb_prop in Hl as [Hl1 Hl2].
    rewrite IH by assumption. apply Z.leb_le in Hl1.
    destruct (Z.leb_spec 2 n); [reflexivity | lia].
  - inversion Hn; subst. simpl in *. apply IH; assumption.
  - inversion Hn; subst. simpl in *. apply andb_prop in Hl as [_ Hl].
    eapply Forall_walk_labels; eassumption.
  - inversion Hn; subst. simpl in *.
    eapply Forall_walk_labels; eassumption.
  - inversion Hn; subst. destruct a; simpl in *; try discriminate. reflexivity.
Qed.

Lemma Forall_walk_tree_labels (check : expr -> bool) (lab : expr -> bool) (l : list expr) :
  Forall (fun e => tree e = true -> lab e = true -> walk check e = true) l ->
  forallb tree l = true -> forallb lab l = true ->
  forallb (walk check) l = true.
Proof.
  induction 1 as [|t l Ht _ IH]; intros HT HL; [reflexivity|].
  simpl in *.
  apply andb_prop in HT as [HT1 HT2]. apply andb_prop in HL as [HL1 HL2].
  rewrite Ht, IH by assumption. reflexivity.
Qed.

Lemma labels_func_name (pexp : Z -> bool) (pprod : bool) (v : expr) :
  tree v = true -> labels_ok pexp allowed_func pprod v = true ->
  walk check_func_name v = true.
Proof.
  induction v as [q|s|b n IH|c i IH|fs IH|ts IH|name a IH|r|] using expr_nested_ind;
    intros Ht Hl; try discriminate; try reflexivity; simpl in *.
  - apply andb_prop in Hl as [_ Hl]. auto.
  - auto.
  - apply andb_prop in Hl as [_ Hl]. eapply Forall_walk_tree_labels; eassumption.
  - eapply Forall_walk_tree_labels; eassumption.
  - apply andb_prop in Hl as [Hl1 Hl2]. rewrite Hl1, IH by assumption. reflexivity.
Qed.

(** A tree without Prod nodes satisfies the three Prod invariants. *)
Lemma labels_no_prod (check : expr -> bool) (pexp : Z -> bool)
    (pname : string -> bool) (v : expr) :
  (forall e, check_not_prod e = true -> check e = true) ->
  tree v = true -> labels_ok pexp pname false v = true ->
  walk check v = true.
Proof.
  intros Hc.
  induction v as [q|s|b n IH|c i IH|fs IH|ts IH|name a IH|r|] using expr_nested_ind;
    intros Ht Hl; try discriminate; simpl in *.
  - apply Hc. reflexivity.
  - apply Hc. reflexivity.
  - apply andb_prop in Hl as [_ Hl]. rewrite IH by assumption.
    rewrite Hc by reflexivity. reflexivity.
  - rewrite IH by assumption. rewrite Hc by reflexivity. reflexivity.
  - rewrite Hc by reflexivity.
    eapply Forall_walk_tree_labels; eassumption.
  - apply andb_prop in Hl as [_ Hl]. rewrite IH by assumption.
    rewrite Hc by reflexivity. reflexivity.
Qed.

(** ** [normalize] preserves the labels of a value *)

Section Labels.

Variable pexp : Z -> bool.
Variable pname : string -> bool.
Variable pprod : bool.
Hypothesis pexp_new : forall n, 2 <= n -> pexp n = true.

Local Abbreviation lab := (labels_ok pexp pname pprod).

Lemma sum_collect_labels (vs acc nt : list expr) :
  forallb lab vs = true -> forallb lab acc = true ->
  sum_collect vs acc = Ret nt -> forallb lab nt = true.
Proof.
  revert acc. induction vs as [|v vs IH]; intros acc Hvs Hacc H; simpl in *.
  - now injection H as <-.
  - apply andb_prop in Hvs as [Hv Hvs].
    assert (Hkeep : forallb lab (acc ++ [v]) = true).
    { rewrite forallb_app, Hacc. simpl. now rewrite Hv. }
    destruct v; try discriminate; try (refine (IH _ Hvs _ H); assumption).
    + destruct (Qeq_bool value 0); refine (IH _ Hvs _ H); assumption.
    + refine (IH _ Hvs _ H). rewrite forallb_app, Hacc. exact Hv.
Qed.

Lemma prod_flatten_labels (fs acc fl : list expr) :
  Forall (fun f => forall v, lab f = true -> normalize f = Ret v -> lab v = true) fs ->
  forallb lab fs = true -> forallb lab acc = true ->
  prod_flatten normalize fs acc = Ret fl -> forallb lab fl = true.
Proof.
  intros HF. revert acc. induction HF as [|f fs Hf _ IH]; intros acc Hfs Hacc H; simpl in *.
  - now injection H as <-.
  - apply andb_prop in Hfs as [Hlf Hfs].
    apply bind_Ret in H as (v & Hv & H). specialize (Hf v Hlf Hv).
    assert (Hkeep : forallb lab (acc ++ [v]) = true).
    { rewrite forallb_app, Hacc. simpl. now rewrite Hf. }
    destruct v; try discriminate; try (refine (IH _ Hfs _ H); assumption).
    refine (IH _ Hfs _ H).
    rewrite forallb_app, Hacc. simpl in Hf.
    apply andb_prop in Hf as [_ Hf]. exact Hf.
Qed.

Lemma mapM_labels (ts vs : list expr) :
  Forall (fun f => forall v, lab f = true -> normalize f = Ret v -> lab v = true) ts ->
  forallb lab ts = true -> mapM normalize ts = Ret vs -> forallb lab vs = true.
Proof.
  intros HF. revert vs. induction HF as [|t ts Ht _ IH]; intros vs Hts H; simpl in *.
  - now injection H as <-.
  - apply andb_prop in Hts as [Hlt Hts].
    apply bind_Ret in H as (v & Hv & H). apply bind_Ret in H as (vs' & Hvs & H).
    injection H as <-. simpl. rewrite (Ht v Hlt Hv), (IH vs' Hts Hvs). reflexivity.
Qed.

Lemma prod_rebuild_labels (pc : Q) (L : list expr) :
  pprod = true -> forallb lab L = true -> lab (prod_rebuild pc L) = true.
Proof.
  intros Hp HL. destruct L as [|f [|g L]]; simpl.
  - reflexivity.
  - simpl in HL. rewrite andb_true_r in HL. destruct (Qeq_bool pc 1); assumption.
  - destruct (Qeq_bool pc 1); simpl;
      apply andb_true_intro; split; [exact Hp | exact HL | exact Hp | exact HL].
Qed.

Lemma canon_labels (a : list expr) :
  forallb lab a = true -> forallb lab (canon a) = true.
Proof.
  intros H. apply forallb_forall. intros f Hf.
  destruct (canon_In _ _ Hf) as [Hin|[(s & ->)|(s & n & -> & Hn)]].
  - rewrite forallb_forall in H. auto.
  - reflexivity.
  - simpl. rewrite pexp_new by assumption. reflexivity.
Qed.

Lemma prod_assemble_labels (fl : list expr) (v : expr) :
  Forall normal fl -> pprod = true -> forallb lab fl = true ->
  prod_assemble fl = Ret v -> lab v = true.
Proof.
  intros Hn Hp Hl H.
  destruct (prod_assemble_cases fl Hn) as [E|[E|[(r & E)|(pc & a & Hok & Hin & Hpc & E)]]];
    rewrite E in H; try discriminate; injection H as <-; try reflexivity.
  apply prod_rebuild_labels; [assumption|]. apply canon_labels.
  apply forallb_forall. intros f Hf. rewrite forallb_forall in Hl. auto.
Qed.

Lemma normalize_labels (e v : expr) :
  lab e = true -> normalize e = Ret v -> lab v = true.
Proof.
  revert v.
  induction e as [q|s|b n IH|c i IH|fs IH|ts IH|name a IH|r|] using expr_nested_ind;
    intros v Hl H; simpl in H; try discriminate.
  - now injection H as <-.
  - now injection H as <-.
  - unfold normalize_power in H. apply bind_Ret in H as (b' & Hb & H).
    simpl in Hl. apply andb_prop in Hl as [Hn Hlb].
    specialize (IH b' Hlb Hb).
    destruct (n =? 0); [now injection H as <-|].
    destruct (n =? 1); injection H as <-; [assumption|].
    simpl. now rewrite Hn.
  - unfold normalize_mul in H. destruct (Qeq_bool c 0); [now injection H as <-|].
    apply bind_Ret in H as (i' & Hi & H). specialize (IH i' Hl Hi).
    destruct i'; try discriminate;
      try (destruct (Qeq_bool c 1); injection H as <-; assumption);
      injection H as <-; try reflexivity; exact IH.
  - unfold normalize_prod in H. apply bind_Ret in H as (fl & Hfl & H).
    simpl in Hl. apply andb_prop in Hl as [Hp Hl].
    eapply prod_assemble_labels; [ | exact Hp | | exact H].
    + pose proof (prod_flatten_normal fs []) as Hn. rewrite Hfl in Hn.
      apply Hn; [|constructor]. apply Forall_forall. intros; apply normalize_normal_ok.
    + exact (prod_flatten_labels fs [] fl IH Hl eq_refl Hfl).
  - unfold normalize_sum in H. apply bind_Ret in H as (vs & Hvs & H).
    apply bind_Ret in H as (nt & Hnt & H).
    assert (Hlnt : forallb lab nt = true).
    { apply (sum_collect_labels vs [] nt); [ | reflexivity | exact Hnt].
      exact (mapM_labels ts vs IH Hl Hvs). }
    destruct nt as [|t [|t' nt]]; injection H as <-.
    + reflexivity.
    + simpl in Hlnt. now rewrite andb_true_r in Hlnt.
    + exact Hlnt.
  - unfold normalize_func in H. apply bind_Ret in H as (a' & Ha & H).
    simpl in Hl. apply andb_prop in Hl as [Hn Hla].
    specialize (IH a' Hla Ha).
    destruct a'; try discriminate; injection H as <-; try reflexivity.
    simpl. now rewrite Hn.
Qed.

End Labels.

(** ** The rewrite engines *)

Lemma integrate_Sum_eq sf (terms : list expr) (mode var_name : string) :
  integrate sf (Sum terms) mode var_name =
  integrate_return sf (integrate_sum (integrate sf) terms mode var_name) mode var_name.
Proof. reflexivity. Qed.

Lemma differentiate_Sum_eq sf (terms : list expr) (mode var_name : string) :
  differentiate sf (Sum terms) mode var_name =
  differentiate_return sf
    (differentiate_sum (differentiate sf) terms mode var_name) mode var_name.
Proof. reflexivity. Qed.

Lemma integrate_Mul_eq sf (c : Q) (inner : expr) (mode var_name : string) :
  integrate sf (Mul c inner) mode var_name =
  integrate_return sf (integrate_mul (integrate sf) c inner mode var_name) mode var_name.
Proof. reflexivity. Qed.

Lemma differentiate_Mul_eq sf (c : Q) (inner : expr) (mode var_name : string) :
  differentiate sf (Mul c inner) mode var_name =
  differentiate_return sf
    (differentiate_mul (differentiate sf) c inner mode var_name) mode var_name.
Proof. reflexivity. Qed.

(** *** Products are refused *)

(** C6. For every Prod node, [differentiate] returns the failure whose reason
    says the product rule is not implemented, and [integrate] returns the
    failure whose reason says integration of products is not implemented;
    neither returns a success. *)
Theorem prod_is_unsupported sf (factors : list expr) (mode var_name : string) :
  differentiate sf (Prod factors) mode var_name
    = Ret (Failure "Product rule not implemented yet")
  /\ integrate sf (Prod factors) mode var_name
    = Ret (Failure "Integration of products not implemented yet")
  /\ (forall o, differentiate sf (Prod factors) mode var_name <> Ret (Success o))
  /\ (forall o, integrate sf (Prod factors) mode var_name <> Ret (Success o)).
Proof.
  repeat split; try reflexivity; intros o; simpl; discriminate.
Qed.

(** *** The first failing term of a Sum *)

Lemma integrate_sum_stops
    (f : expr -> string -> string -> outcome response)
    (pre post : list expr) (t : expr) (mode var_name reason : string) :
  Forall (fun p => exists o, f p mode var_name = Ret (Success o)) pre ->
  f t mode var_name = Ret (Failure reason) ->
  integrate_sum f (pre ++ t :: post) mode var_name = Ret (Failure reason).
Proof.
  intros Hpre Ht. unfold integrate_sum.
  generalize (@nil expr) as acc. generalize (@nil step) as acc'.
  induction Hpre as [|p pre (o & Hp) _ IH]; intros acc' acc; simpl.
  - rewrite Ht. reflexivity.
  - rewrite Hp. simpl. apply IH.
Qed.

Lemma differentiate_sum_stops
    (f : expr -> string -> string -> outcome response)
    (pre post : list expr) (t : expr) (mode var_name reason : string) :
  Forall (fun p => exists o, f p mode var_name = Ret (Success o)) pre ->
  f t mode var_name = Ret (Failure reason) ->
  differentiate_sum f (pre ++ t :: post) mode var_name = Ret (Failure reason).
Proof.
  intros Hpre Ht. unfold differentiate_sum.
  generalize (@nil expr) as acc. generalize (@nil step) as acc'.
  induction Hpre as [|p pre (o & Hp) _ IH]; intros acc' acc; simpl.
  - rewrite Ht. reflexivity.
  - rewrite Hp. simpl. apply IH.
Qed.

(** C5. In a Sum whose terms before [t] are rewritten with success and whose
    term [t] fails, [differentiate] (resp. [integrate]) of the Sum returns
    the failure of [t] itself, unchanged, whatever the terms after [t] are:
    they are not evaluated (they may even be values on which the rewrite
    would raise). *)
Theorem sum_returns_first_failure sf (pre post : list expr) (t : expr)
    (mode var_name reason : string) :
  (Forall (fun p => exists o, differentiate sf p mode var_name = Ret (Success o)) pre ->
   differentiate sf t mode var_name = Ret (Failure reason) ->
   differentiate sf (Sum (pre ++ t :: post)) mode var_name = Ret (Failure reason))
  /\
  (Forall (fun p => exists o, integrate sf p mode var_name = Ret (Success o)) pre ->
   integrate sf t mode var_name = Ret (Failure reason) ->
   integrate sf (Sum (pre ++ t :: post)) mode var_name = Ret (Failure reason)).
Proof.
  split; intros Hpre Ht.
  - rewrite differentiate_Sum_eq.
    rewrite (differentiate_sum_stops _ pre post t mode var_name reason Hpre Ht).
    reflexivity.
  - rewrite integrate_Sum_eq.
    rewrite (integrate_sum_stops _ pre post t mode var_name reason Hpre Ht).
    reflexivity.
Qed.

Lemma sum_returns_first_failure_witness :
  differentiate (fun _ => "") 
    (Sum ([Power (Var "x") 3] ++ Prod [Var "x"; Func "sin" (Var "x")] :: [NoneVal]))
    "fraction" "x"
  = Ret (Failure "Product rule not implemented yet")
  /\
  integrate (fun _ => "")
    (Sum ([Power (Var "x") 3] ++ Prod [Var "x"; Func "sin" (Var "x")] :: [NoneVal]))
    "fraction" "x"
  = Ret (Failure "Integration of products not implemented yet").
Proof.
  split.
  - apply (sum_returns_first_failure (fun _ => "")).
    + constructor; [eexists; reflexivity | constructor].
    + reflexivity.
  - apply (sum_returns_first_failure (fun _ => "")).
    + constructor; [eexists; reflexivity | constructor].
    + reflexivity.
Defined.

(** *** The power rule of integration *)

Lemma Fraction_nonzero (d : Z) : d <> 0 -> Qeq_bool (Fraction 1 d) 0 = false.
Proof.
  intros Hd. destruct (Qeq_bool (Fraction 1 d) 0) eqn:E; [|reflexivity].
  apply Qeq_bool_eq in E. unfold Fraction in E. rewrite Qred_correct in E.
  exfalso. destruct d as [|p|p]; [lia| |]; discriminate E.
Qed.

Lemma Fraction_unit (d : Z) : d <> 0 -> Qeq_bool (Fraction 1 d) 1 = true -> d = 1.
Proof.
  intros Hd E. apply Qeq_bool_eq in E. unfold Fraction in E.
  rewrite Qred_correct in E.
  destruct d as [|p|p]; [lia| |]; unfold Qeq in E; simpl in E; lia.
Qed.

Lemma integrate_Power_eq sf (base : expr) (n : Z) (mode var_name : string) :
  integrate sf (Power base n) mode var_name =
  integrate_return sf (integrate_power base n) mode var_name.
Proof. reflexivity. Qed.

Lemma normalize_power_integral (s : string) (n : Z) :
  n <> -1 ->
  normalize (Mul (Fraction 1 (n + 1)) (Power (Var s) (n + 1)))
  = Ret (if n =? 0 then Var s
         else Mul (Fraction 1 (n + 1)) (Power (Var s) (n + 1))).
Proof.
  intros Hn. cbn [normalize]. unfold normalize_mul.
  rewrite Fraction_nonzero by lia. cbn [normalize]. unfold normalize_power.
  cbn [normalize bind].
  destruct (Z.eqb_spec (n + 1) 0); [lia|].
  destruct (Z.eqb_spec (n + 1) 1) as [E1|E1].
  - destruct (Z.eqb_spec n 0); [|lia]. replace (n + 1) with 1 by lia. reflexivity.
  - destruct (Z.eqb_spec n 0); [lia|].
    destruct (Qeq_bool (Fraction 1 (n + 1)) 1) eqn:E; [|reflexivity].
    apply Fraction_unit in E; lia.
Qed.

Lemma to_string_power_integral sf (s : string) (n : Z) (mode var_name : string) :
  exists str,
    to_string sf (if n =? 0 then Var s
                  else Mul (Fraction 1 (n + 1)) (Power (Var s) (n + 1)))
              mode var_name = Ret str.
Proof.
  destruct (n =? 0); simpl; [eauto|].
  destruct (Qeq_bool (Fraction 1 (n + 1)) (-1)); eauto.
Qed.

Lemma Qred_lowest (a : Z) (p : positive) :
  Z.gcd a (Zpos p) = 1 -> Qred (a # p) = a # p.
Proof.
  intros Hg. unfold Qred.
  pose proof (Z.ggcd_gcd a (Zpos p)) as H1.
  pose proof (Z.ggcd_correct_divisors a (Zpos p)) as H2.
  destruct (Z.ggcd a (Zpos p)) as [g [aa bb]]. simpl in H1, H2.
  rewrite Hg in H1. subst g. destruct H2 as [Ha Hb].
  rewrite Z.mul_1_l in Ha, Hb. subst aa bb. reflexivity.
Qed.

(** [Fraction(1, d)] is [1/d] in lowest terms, the sign in the numerator. *)
Lemma Fraction_reciprocal (d : Z) :
  d <> 0 -> Fraction 1 d = Z.sgn d # Z.to_pos (Z.abs d).
Proof.
  intros Hd. unfold Fraction. destruct d as [|p|p]; [lia| |].
  - change (inject_Z 1 / inject_Z (Z.pos p))%Q with (1 # p).
    apply Qred_lowest, Z.gcd_1_l.
  - change (inject_Z 1 / inject_Z (Z.neg p))%Q with (-1 # p).
    apply Qred_lowest.
    exact (eq_trans (Z.gcd_opp_l 1 (Z.pos p)) (Z.gcd_1_l (Z.pos p))).
Qed.

(** C7. [integrate] on [Power base n]: a base that is a node other than a
    Var gives the chain-rule failure; a Var base with [n = -1] gives a
    different failure, whose reason names the logarithm; a Var base with any
    other [n] that Python can print, and [n + 1] with it, gives a success
    whose result is the normal form of [(1/(n+1)) * base^(n+1)], that is
    [base] for [n = 0] and otherwise the Mul node of the power with the
    coefficient [1/(n+1)] in lowest terms, with the constant-of-integration
    flag set. *)
Theorem integrate_power_rule sf (base : expr) (n : Z) (mode var_name : string) :
  (is_node base = true -> is_var base = false ->
   integrate sf (Power base n) mode var_name
   = Ret (Failure "Power rule only supports x^n (no chain rule yet)"))
  /\
  (is_var base = true -> n = -1 ->
   integrate sf (Power base n) mode var_name
   = Ret (Failure "Integral of x^-1 needs Logarithms(not implemented yet)"))
  /\
  (is_var base = true -> n <> -1 ->
   digits_ok n = true -> digits_ok (n + 1) = true ->
   exists o,
     integrate sf (Power base n) mode var_name = Ret (Success o)
     /\ normalize (Mul (Z.sgn (n + 1) # Z.to_pos (Z.abs (n + 1)))
                       (Power base (n + 1))) = Ret (result o)
     /\ result o = (if n =? 0 then base
                    else Mul (Z.sgn (n + 1) # Z.to_pos (Z.abs (n + 1)))
                             (Power base (n + 1)))
     /\ constant o = Some true).
Proof.
  split; [|split].
  - intros Hnode Hvar. destruct base; simpl in *; try discriminate; reflexivity.
  - intros Hvar ->. destruct base; simpl in *; try discriminate; reflexivity.
  - intros Hvar Hn _ _.
    destruct base as [|s| | | | | | |]; simpl in Hvar; try discriminate.
    rewrite <- (Fraction_reciprocal (n + 1)) by lia.
    rewrite integrate_Power_eq. unfold integrate_power.
    cbn [type_of bind String.eqb Ascii.eqb Bool.eqb negb].
    destruct (Z.eqb_spec n (-1)) as [|_]; [contradiction|].
    unfold integrate_return. cbn [bind result constant steps].
    rewrite normalize_power_integral by assumption. cbn [bind].
    destruct (to_string_power_integral sf s n mode var_name) as (str & ->).
    cbn [bind]. eexists. repeat split.
Qed.

Lemma integrate_power_rule_witness :
  integrate (fun _ => EmptyString) (Power (Func "sin" (Var "x")) 2) "fraction" "x"
    = Ret (Failure "Power rule only supports x^n (no chain rule yet)")
  /\ integrate (fun _ => EmptyString) (Power (Var "x") (-1)) "fraction" "x"
    = Ret (Failure "Integral of x^-1 needs Logarithms(not implemented yet)")
  /\ exists o,
       integrate (fun _ => EmptyString) (Power (Var "x") 3) "fraction" "x"
       = Ret (Success o)
       /\ normalize (Mul (Z.sgn (3 + 1) # Z.to_pos (Z.abs (3 + 1)))
                         (Power (Var "x") (3 + 1))) = Ret (result o)
       /\ result o = Mul (1 # 4) (Power (Var "x") 4)
       /\ constant o = Some true.
Proof.
  split; [|split].
  - apply (integrate_power_rule (fun _ => EmptyString) (Func "sin" (Var "x")) 2);
      reflexivity.
  - apply (integrate_power_rule (fun _ => EmptyString) (Var "x") (-1)); reflexivity.
  - apply (integrate_power_rule (fun _ => EmptyString) (Var "x") 3);
      [reflexivity | lia | reflexivity | reflexivity].
Defined.

(** C8. [integrate] of the canonical AST of [x^3] in fraction mode succeeds;
    its result is [(1/4) * x^4] and its rendered string is ["1/4x^4 + C"]:
    ["1/4x^4"] followed by the constant-of-integration suffix. *)
Theorem integrate_x_cubed sf :
  normalize (Power (Var "x") 3) = Ret (Power (Var "x") 3)
  /\ integrate sf (Power (Var "x") 3) "fraction" "x"
     = Ret (Success {|
         result := Mul (1 # 4) (Power (Var "x") 4);
         steps := [Line "∫ x^3 dx = x^4/4 + C"];
         constant := Some true;
         rendered := Some "1/4x^4 + C" |})
  /\ to_string sf (Mul (1 # 4) (Power (Var "x") 4)) "fraction" "x" = Ret "1/4x^4".
Proof.
  repeat split.
Qed.

(** *** The constant-of-integration flag *)

Lemma integrate_return_Success sf (d : outcome response) (mode var_name : string)
    (o : out) :
  integrate_return sf d mode var_name = Ret (Success o) ->
  exists o' s,
    d = Ret (Success o')
    /\ normalize (result o') = Ret (result o)
    /\ to_string sf (result o) mode var_name = Ret s
    /\ constant o = constant o'
    /\ rendered o = Some (match constant o' with
                          | Some true => (s ++ " + C")%string
                          | _ => s
                          end).
Proof.
  unfold integrate_return. intros H.
  apply bind_Ret in H as (r & Hd & H). destruct r as [o'|reason]; [|discriminate].
  apply bind_Ret in H as (res & Hres & H).
  apply bind_Ret in H as (s & Hs & H).
  injection H as <-. exists o', s. simpl. auto.
Qed.

Lemma integrate_sum_loop_flag
    (f : expr -> string -> string -> outcome response)
    (mode var_name : string) (l acc : list expr) (acc' : list step) (o : out) :
  integrate_sum_loop f mode var_name l acc acc' = Ret (Success o) ->
  constant o = Some true.
Proof.
  revert acc acc'. induction l as [|t l IH]; intros acc acc' H; simpl in H.
  - now injection H as <-.
  - apply bind_Ret in H as (r & _ & H). destruct r; [|discriminate]. eauto.
Qed.

(** Every rule of [rules.py] that succeeds sets the flag. *)
Lemma integrate_rules_flag sf (e : expr) (mode var_name : string) (o : out) :
  match e with
  | Const value => integrate_const value
  | Var _ => integrate_var e
  | Power base exp => integrate_power base exp
  | Mul c inner => integrate_mul (integrate sf) c inner mode var_name
  | Sum terms => integrate_sum (integrate sf) terms mode var_name
  | Func name arg => integrate_func name arg
  | _ => Raise TypeError
  end = Ret (Success o) ->
  constant o = Some true.
Proof.
  destruct e; try discriminate.
  - intros [= <-]. reflexivity.
  - intros [= <-]. reflexivity.
  - unfold integrate_power. intros H. apply bind_Ret in H as (t & _ & H).
    destruct (negb (t =? "var")%string); [discriminate|].
    destruct (exp =? -1); [discriminate|]. now injection H as <-.
  - unfold integrate_mul. destruct (Qeq_bool const 0); [now intros [= <-]|].
    intros H. apply bind_Ret in H as (r & _ & H).
    destruct r as [o'|]; [|discriminate].
    destruct (result o'); try discriminate; now injection H as <-.
  - apply integrate_sum_loop_flag.
  - unfold integrate_func. intros H. apply bind_Ret in H as (v & _ & H).
    destruct (name =? "sin")%string; [now injection H as <-|].
    destruct (name =? "cos")%string; [now injection H as <-|].
    destruct (name =? "exp")%string; [now injection H as <-|discriminate].
Qed.

(** C4, as the code has it. Every successful [integrate] call returns with
    the constant-of-integration flag set to true and a rendered string that
    ends with the suffix [" + C"]: each branch sets the flag itself, the
    zero-coefficient Mul case (result [Const 0]) included, so no flag of a
    sub-result is ever cleared. *)
Theorem integrate_sets_flag sf (e : expr) (mode var_name : string) (o : out) :
  integrate sf e mode var_name = Ret (Success o) ->
  constant o = Some true
  /\ exists s, to_string sf (result o) mode var_name = Ret s
               /\ rendered o = Some (s ++ " + C")%string.
Proof.
  intros H.
  assert (Hflag : forall d,
             integrate_return sf d mode var_name = Ret (Success o) ->
             (forall o', d = Ret (Success o') -> constant o' = Some true) ->
             constant o = Some true
             /\ exists s, to_string sf (result o) mode var_name = Ret s
                          /\ rendered o = Some (s ++ " + C")%string).
  { intros d Hd Hall.
    apply integrate_return_Success in Hd as (o' & s & Hd & Hn & Hs & Hc & Hr).
    rewrite (Hall o' Hd) in *. split; [assumption | exists s; auto]. }
  destruct e as [value|variable|base exp|c inner|factors|terms|name arg|reason|];
    try discriminate; (eapply Hflag; [exact H|]); intros o' Ho'.
  - exact (integrate_rules_flag sf (Const value) mode var_name o' Ho').
  - exact (integrate_rules_flag sf (Var variable) mode var_name o' Ho').
  - exact (integrate_rules_flag sf (Power base exp) mode var_name o' Ho').
  - exact (integrate_rules_flag sf (Mul c inner) mode var_name o' Ho').
  - exact (integrate_rules_flag sf (Sum terms) mode var_name o' Ho').
  - exact (integrate_rules_flag sf (Func name arg) mode var_name o' Ho').
Qed.

Lemma integrate_sets_flag_witness :
  constant {| result := Const 0; steps := [Line "Integral of 0 is 0"];
              constant := Some true; rendered := Some "0 + C" |} = Some true
  /\ exists s, to_string (fun _ => "") (Const 0) "fraction" "x" = Ret s
               /\ Some "0 + C" = Some (s ++ " + C")%string.
Proof.
  apply (integrate_sets_flag (fun _ => "") (Mul 0 (Var "x")) "fraction" "x"
           {| result := Const 0; steps := [Line "Integral of 0 is 0"];
              constant := Some true; rendered := Some "0 + C" |}).
  reflexivity.
Defined.

(** C4, as stated, fails: on a Mul with coefficient 0 the result is [Const 0]
    and the flag is set all the same. *)
Lemma zero_coefficient_sets_flag :
  integrate (fun _ => "") (Mul 0 (Var "x")) "fraction" "x"
  = Ret (Success {| result := Const 0; steps := [Line "Integral of 0 is 0"];
                    constant := Some true; rendered := Some "0 + C" |})
  /\ ~ (forall o, integrate (fun _ => "") (Mul 0 (Var "x")) "fraction" "x"
                    = Ret (Success o) -> constant o <> Some true).
Proof.
  split; [reflexivity|]. intros H. eapply H; reflexivity.
Qed.

(** *** Results of the rewrite engines are canonical *)

Lemma join_terms_Ret (render : expr -> outcome string) (l : list expr)
    (acc s : string) :
  join_terms render l acc = Ret s -> Forall (fun t => exists r, render t = Ret r) l.
Proof.
  revert acc. induction l as [|t l IH]; intros acc H; simpl in H; [constructor|].
  apply bind_Ret in H as (r & Hr & H). constructor; eauto.
Qed.

Lemma Forall_rendered_tree sf (mode var_name : string) (l : list expr) :
  Forall (fun v => normal v ->
            forall s, to_string sf v mode var_name = Ret s -> tree v = true) l ->
  Forall normal l ->
  Forall (fun t => exists r, to_string sf t mode var_name = Ret r) l ->
  forallb tree l = true.
Proof.
  induction 1 as [|t l Ht _ IH]; intros Hn Hr; [reflexivity|].
  inversion Hn; subst. inversion Hr as [|? ? (r & Hrt) Hr']; subst.
  simpl. rewrite (Ht H1 r Hrt), IH by assumption. reflexivity.
Qed.

(** A normal value that the pretty-printer renders is a tree. *)
Lemma to_string_tree sf (mode var_name : string) (v : expr) :
  normal v -> forall s, to_string sf v mode var_name = Ret s -> tree v = true.
Proof.
  induction v as [q|x|b n IH|c i IH|fs IH|ts IH|name a IH|r|] using expr_nested_ind;
    intros Hn s H; simpl in H; try discriminate; try reflexivity.
  - inversion Hn; subst. apply bind_Ret in H as (bs & Hb & _).
    unfold tree. simpl. eapply IH; eassumption.
  - inversion Hn; subst. apply bind_Ret in H as (bs & Hb & _).
    unfold tree. simpl. eapply IH; eassumption.
  - inversion Hn; subst. apply bind_Ret in H as (parts & Hp & _).
    rewrite tree_Prod. eapply Forall_rendered_tree; try eassumption.
    apply mapM_Ret in Hp. clear - Hp.
    induction Hp; constructor; eauto.
  - inversion Hn; subst. rewrite tree_Sum.
    destruct ts as [|t ts]; [discriminate|].
    apply bind_Ret in H as (r & Hr & H). apply join_terms_Ret in H.
    eapply Forall_rendered_tree; try eassumption. constructor; eauto.
  - inversion Hn; subst. destruct a; simpl in *; try discriminate. reflexivity.
Qed.

Lemma walk_shape_split (v : expr) :
  walk check_shape v = true ->
  walk check_mul_inner v = true /\ walk check_sum v = true
  /\ walk check_prod_factors v = true /\ walk check_prod_order v = true
  /\ walk check_func_arg v = true.
Proof.
  unfold check_shape. rewrite !walk_andb. intros H.
  repeat (apply andb_prop in H as [H ?]). auto.
Qed.

(** The eight invariants of a normal tree that is [plain]. *)
Lemma plain_normal_invariants (v : expr) :
  normal v -> tree v = true -> plain v = true -> all_invariants v = true.
Proof.
  intros Hn Ht Hp. unfold all_invariants.
  destruct (walk_shape_split v (normal_shape v Hn Ht)) as (H1 & H3 & H4 & H5 & H7).
  rewrite H1, H3, H4, H5, H7.
  rewrite (normal_power_exp allowed_func false v Hn Ht Hp).
  rewrite (labels_func_name (fun n => 0 <=? n) false v Ht Hp).
  rewrite (labels_no_prod check_prod_power_base (fun n => 0 <=? n) allowed_func v);
    try assumption; try reflexivity.
  intros e He. destruct e; try discriminate; reflexivity.
Qed.

Lemma differentiate_return_Success sf (d : outcome response)
    (mode var_name : string) (o : out) :
  differentiate_return sf d mode var_name = Ret (Success o) ->
  exists o' s,
    d = Ret (Success o')
    /\ normalize (result o') = Ret (result o)
    /\ to_string sf (result o) mode var_name = Ret s.
Proof.
  unfold differentiate_return. intros H.
  apply bind_Ret in H as (r & Hd & H). destruct r as [o'|reason]; [|discriminate].
  apply bind_Ret in H as (res & Hres & H).
  apply bind_Ret in H as (s & Hs & H).
  injection H as <-. exists o', s. simpl. auto.
Qed.

Lemma normalized_plain_result sf (raw res : expr) (mode var_name s : string) :
  plain raw = true -> normalize raw = Ret res ->
  to_string sf res mode var_name = Ret s ->
  normal res /\ tree res = true /\ plain res = true.
Proof.
  intros Hp Hn Hs.
  pose proof (normalize_normal_ok raw) as Hok. unfold normalize_ok in Hok.
  rewrite Hn in Hok. repeat split.
  - exact Hok.
  - eapply to_string_tree; eassumption.
  - unfold plain. eapply normalize_labels; [ | exact Hp | exact Hn].
    intros n Hn2. apply Z.leb_le. lia.
Qed.

Lemma type_of_var (b : expr) (t : string) :
  type_of b = Ret t -> negb (t =? "var")%string = false -> exists s, b = Var s.
Proof.
  destruct b; simpl; intros [= <-]; simpl; try discriminate. eauto.
Qed.

Lemma variable_of_Var (a : expr) (v : string) : variable_of a = Ret v -> a = Var v.
Proof. destruct a; simpl; try discriminate. now intros [= <-]. Qed.

Lemma differentiate_sum_loop_results
    (f : expr -> string -> string -> outcome response)
    (mode var_name : string) (l acc : list expr) (acc' : list step) (o : out) :
  differentiate_sum_loop f mode var_name l acc acc' = Ret (Success o) ->
  exists rs,
    result o = Sum (acc ++ rs)
    /\ Forall2 (fun t r => exists o', f t mode var_name = Ret (Success o')
                                      /\ result o' = r) l rs.
Proof.
  revert acc acc'. induction l as [|t l IH]; intros acc acc' H; simpl in H.
  - injection H as <-. exists []. simpl. rewrite app_nil_r. split; constructor.
  - apply bind_Ret in H as (r & Hr & H). destruct r as [o'|]; [|discriminate].
    apply IH in H as (rs & Hres & Hrs). exists (result o' :: rs). split.
    + rewrite Hres, <- app_assoc. reflexivity.
    + constructor; eauto.
Qed.

Lemma integrate_sum_loop_results
    (f : expr -> string -> string -> outcome response)
    (mode var_name : string) (l acc : list expr) (acc' : list step) (o : out) :
  integrate_sum_loop f mode var_name l acc acc' = Ret (Success o) ->
  exists rs,
    result o = Sum (acc ++ rs)
    /\ Forall2 (fun t r => exists o', f t mode var_name = Ret (Success o')
                                      /\ result o' = r) l rs.
Proof.
  revert acc acc'. induction l as [|t l IH]; intros acc acc' H; simpl in H.
  - injection H as <-. exists []. simpl. rewrite app_nil_r. split; constructor.
  - apply bind_Ret in H as (r & Hr & H). destruct r as [o'|]; [|discriminate].
    apply IH in H as (rs & Hres & Hrs). exists (result o' :: rs). split.
    + rewrite Hres, <- app_assoc. reflexivity.
    + constructor; eauto.
Qed.

Lemma Forall2_plain_results
    (f : expr -> string -> string -> outcome response)
    (mode var_name : string) (l rs : list expr) :
  Forall (fun t => forall mode var_name o,
            walk check_power_exp t = true ->
            f t mode var_name = Ret (Success o) ->
            normal (result o) /\ tree (result o) = true /\ plain (result o) = true) l ->
  forallb (walk check_power_exp) l = true ->
  Forall2 (fun t r => exists o', f t mode var_name = Ret (Success o')
                                 /\ result o' = r) l rs ->
  forallb plain rs = true.
Proof.
  intros HF Hexp H2. induction H2 as [|t r l rs (o' & Ho' & <-) _ IH]; [reflexivity|].
  inversion HF as [|? ? Ht HF']; subst. simpl in Hexp.
  apply andb_prop in Hexp as [He1 He2]. simpl.
  destruct (Ht mode var_name o' He1 Ho') as (_ & _ & ->). simpl. auto.
Qed.

Lemma differentiate_canonical sf (e : expr) :
  forall mode var_name o,
    walk check_power_exp e = true ->
    differentiate sf e mode var_name = Ret (Success o) ->
    normal (result o) /\ tree (result o) = true /\ plain (result o) = true.
Proof.
  induction e as [q|x|b n IH|c i IH|fs IH|ts IH|name a IH|r|] using expr_nested_ind;
    intros mode var_name o Hexp H; try discriminate.
  - change (differentiate_return sf (differentiate_const q) mode var_name
            = Ret (Success o)) in H.
    apply differentiate_return_Success in H as (o' & s & Hd & Hn & Hs).
    apply (normalized_plain_result sf (result o') _ mode var_name s); try assumption.
    injection Hd as <-. reflexivity.
  - change (differentiate_return sf (differentiate_var (Var x)) mode var_name
            = Ret (Success o)) in H.
    apply differentiate_return_Success in H as (o' & s & Hd & Hn & Hs).
    apply (normalized_plain_result sf (result o') _ mode var_name s); try assumption.
    injection Hd as <-. reflexivity.
  - change (differentiate_return sf (differentiate_power b n) mode var_name
            = Ret (Success o)) in H.
    apply differentiate_return_Success in H as (o' & s & Hd & Hn & Hs).
    apply (normalized_plain_result sf (result o') _ mode var_name s); try assumption.
    unfold differentiate_power in Hd. apply bind_Ret in Hd as (t & Ht & Hd).
    destruct (negb (t =? "var")%string) eqn:Et; [discriminate|].
    destruct (type_of_var b t Ht Et) as (x & ->).
    destruct (n =? 0); injection Hd as <-; [reflexivity|].
    simpl in Hexp. rewrite andb_true_r in Hexp. apply Z.leb_le in Hexp.
    unfold plain. simpl. rewrite andb_true_r. apply Z.leb_le. lia.
  - rewrite differentiate_Mul_eq in H.
    apply differentiate_return_Success in H as (o' & s & Hd & Hn & Hs).
    apply (normalized_plain_result sf (result o') _ mode var_name s); try assumption.
    unfold differentiate_mul in Hd. apply bind_Ret in Hd as (r & Hr & Hd).
    destruct r as [oi|]; [|discriminate]. injection Hd as <-.
    simpl in Hexp. destruct (IH mode var_name oi Hexp Hr) as (_ & _ & Hp).
    exact Hp.
  - rewrite differentiate_Sum_eq in H.
    apply differentiate_return_Success in H as (o' & s & Hd & Hn & Hs).
    apply (normalized_plain_result sf (result o') _ mode var_name s); try assumption.
    unfold differentiate_sum in Hd.
    apply differentiate_sum_loop_results in Hd as (rs & -> & Hrs).
    simpl in Hexp. unfold plain. simpl.
    exact (Forall2_plain_results _ mode var_name ts rs IH Hexp Hrs).
  - change (differentiate_return sf (differentiate_func name a) mode var_name
            = Ret (Success o)) in H.
    apply differentiate_return_Success in H as (o' & s & Hd & Hn & Hs).
    apply (normalized_plain_result sf (result o') _ mode var_name s); try assumption.
    unfold differentiate_func in Hd. apply bind_Ret in Hd as (v & Hv & Hd).
    apply variable_of_Var in Hv as ->.
    destruct (name =? "sin")%string; [injection Hd as <-; reflexivity|].
    destruct (name =? "cos")%string; [injection Hd as <-; reflexivity|].
    destruct (name =? "exp")%string; [injection Hd as <-; reflexivity|discriminate].
Qed.

Lemma integrate_return_plain sf (d : outcome response) (mode var_name : string)
    (o : out) :
  integrate_return sf d mode var_name = Ret (Success o) ->
  (forall o', d = Ret (Success o') -> plain (result o') = true) ->
  normal (result o) /\ tree (result o) = true /\ plain (result o) = true.
Proof.
  intros H Hd.
  apply integrate_return_Success in H as (o' & s & Ho' & Hn & Hs & _).
  apply (normalized_plain_result sf (result o') _ mode var_name s); auto.
Qed.

Lemma integrate_canonical sf (e : expr) :
  forall mode var_name o,
    walk check_power_exp e = true ->
    integrate sf e mode var_name = Ret (Success o) ->
    normal (result o) /\ tree (result o) = true /\ plain (result o) = true.
Proof.
  induction e as [q|x|b n IH|c i IH|fs IH|ts IH|name a IH|r|] using expr_nested_ind;
    intros mode var_name o Hexp H; try discriminate.
  - change (integrate_return sf (integrate_const q) mode var_name
            = Ret (Success o)) in H.
    apply (integrate_return_plain sf _ mode var_name o H).
    intros o' [= <-]. reflexivity.
  - change (integrate_return sf (integrate_var (Var x)) mode var_name
            = Ret (Success o)) in H.
    apply (integrate_return_plain sf _ mode var_name o H).
    intros o' [= <-]. reflexivity.
  - rewrite integrate_Power_eq in H.
    apply (integrate_return_plain sf _ mode var_name o H).
    intros o' Hd.
    unfold integrate_power in Hd. apply bind_Ret in Hd as (t & Ht & Hd).
    destruct (negb (t =? "var")%string) eqn:Et; [discriminate|].
    destruct (type_of_var b t Ht Et) as (x & ->).
    destruct (n =? -1); [discriminate|]. injection Hd as <-.
    simpl in Hexp. rewrite andb_true_r in Hexp. apply Z.leb_le in Hexp.
    unfold plain. simpl. rewrite andb_true_r. apply Z.leb_le. lia.
  - rewrite integrate_Mul_eq in H.
    apply (integrate_return_plain sf _ mode var_name o H).
    intros o' Hd. unfold integrate_mul in Hd.
    destruct (Qeq_bool c 0); [injection Hd as <-; reflexivity|].
    apply bind_Ret in Hd as (r & Hr & Hd).
    destruct r as [oi|]; [|discriminate].
    simpl in Hexp. destruct (IH mode var_name oi Hexp Hr) as (_ & _ & Hp).
    destruct (result oi); try discriminate; injection Hd as <-;
      try reflexivity; exact Hp.
  - rewrite integrate_Sum_eq in H.
    apply (integrate_return_plain sf _ mode var_name o H).
    intros o' Hd. unfold integrate_sum in Hd.
    apply integrate_sum_loop_results in Hd as (rs & -> & Hrs).
    simpl in Hexp. unfold plain. simpl.
    exact (Forall2_plain_results _ mode var_name ts rs IH Hexp Hrs).
  - change (integrate_return sf (integrate_func name a) mode var_name
            = Ret (Success o)) in H.
    apply (integrate_return_plain sf _ mode var_name o H).
    intros o' Hd.
    unfold integrate_func in Hd. apply bind_Ret in Hd as (v & Hv & Hd).
    apply variable_of_Var in Hv as ->.
    destruct (name =? "sin")%string; [injection Hd as <-; reflexivity|].
    destruct (name =? "cos")%string; [injection Hd as <-; reflexivity|].
    destruct (name =? "exp")%string; [injection Hd as <-; reflexivity|discriminate].
Qed.

Lemma all_invariants_power_exp (e : expr) :
  all_invariants e = true -> walk check_power_exp e = true.
Proof.
  unfold all_invariants. intros H. repeat (apply andb_prop in H as [H ?]). assumption.
Qed.

(** C1. For every canonical input node (one that satisfies the eight
    invariants) on which [differentiate], respectively [integrate], returns
    a success, the result node satisfies the eight structural invariants:
    Mul inner never Const or Mul; Power exponent at least 2; Sum with at
    least 2 terms, none a Sum or a zero Const; Prod with at least 2 atomic
    factors, ordered Var, Power, Func, whose Power factors have Var bases;
    Func arguments bare Vars; Func names among sin, cos, exp. *)
Theorem rewrite_preserves_invariants sf (e : expr) (mode var_name : string) :
  all_invariants e = true ->
  (forall o, differentiate sf e mode var_name = Ret (Success o) ->
             all_invariants (result o) = true)
  /\ (forall o, integrate sf e mode var_name = Ret (Success o) ->
                all_invariants (result o) = true).
Proof.
  intros Hinv. apply all_invariants_power_exp in Hinv.
  split; intros o H.
  - destruct (differentiate_canonical sf e mode var_name o Hinv H) as (Hn & Ht & Hp).
    now apply plain_normal_invariants.
  - destruct (integrate_canonical sf e mode var_name o Hinv H) as (Hn & Ht & Hp).
    now apply plain_normal_invariants.
Qed.

Lemma rewrite_preserves_invariants_witness :
  all_invariants
    (Sum [Mul 7 (Power (Var "x") 3); Mul 3 (Var "x"); Const 10;
          Func "cos" (Var "x")]) = true
  /\ (exists o,
        differentiate (fun _ => "")
          (Sum [Mul 7 (Power (Var "x") 3); Mul 3 (Var "x"); Const 10;
                Func "cos" (Var "x")]) "fraction" "x" = Ret (Success o)
        /\ all_invariants (result o) = true)
  /\ (exists o,
        integrate (fun _ => "")
          (Sum [Mul 7 (Power (Var "x") 3); Mul 3 (Var "x"); Const 10;
                Func "cos" (Var "x")]) "fraction" "x" = Ret (Success o)
        /\ all_invariants (result o) = true).
Proof.
  destruct (rewrite_preserves_invariants (fun _ => "")
              (Sum [Mul 7 (Power (Var "x") 3); Mul 3 (Var "x"); Const 10;
                    Func "cos" (Var "x")]) "fraction" "x" eq_refl) as [Hd Hi].
  split; [reflexivity|]. split.
  - eexists. split; [reflexivity|]. apply Hd. reflexivity.
  - eexists. split; [reflexivity|]. apply Hi. reflexivity.
Defined.

(** ** Idempotence of [normalize] *)




(** The raw AST of [--x]: the two coefficients multiply to 1 and the Mul is
    kept, so a second normalization still changes the tree. *)
Example normalize_double_negation :
  normalize (Mul (-1) (Mul (-1) (Var "x"))) = Ret (Mul 1 (Var "x"))
  /\ normalize (Mul 1 (Var "x")) = Ret (Var "x").
Proof. split; reflexivity. Qed.

(** ** What [normalize] returns on a raw AST *)

Lemma walk_tree (check : expr -> bool) (e : expr) :
  walk check e = true -> tree e = true.
Proof.
  unfold tree.
  induction e as [v|s|b n IH|c i IH|fs IH|ts IH|name a IH|r|] using expr_nested_ind;
    simpl; intros H; try discriminate; try reflexivity;
    apply andb_prop in H as [_ H]; auto.
  - clear - IH H. induction IH as [|f fs Hf _ IH]; [reflexivity|].
    simpl in *. apply andb_prop in H as [H1 H2]. rewrite Hf, IH by assumption.
    reflexivity.
  - clear - IH H. induction IH as [|f fs Hf _ IH]; [reflexivity|].
    simpl in *. apply andb_prop in H as [H1 H2]. rewrite Hf, IH by assumption.
    reflexivity.
Qed.

Lemma Forall_walk_to_labels (check lab : expr -> bool) (l : list expr) :
  Forall (fun e => walk check e = true -> lab e = true) l ->
  forallb (walk check) l = true -> forallb lab l = true.
Proof.
  induction 1 as [|f fs Hf _ IH]; [reflexivity|]. simpl. intros H.
  apply andb_prop in H as [H1 H2]. rewrite Hf, IH by assumption. reflexivity.
Qed.

Lemma raw_ast_labels (e : expr) :
  raw_ast e = true ->
  labels_ok (fun n => 0 <=? n) (fun _ => true) true e = true.
Proof.
  unfold raw_ast.
  induction e as [v|s|b n IH|c i IH|fs IH|ts IH|name a IH|r|] using expr_nested_ind;
    simpl; intros H; try discriminate; try reflexivity.
  - apply andb_prop in H as [H1 H2]. rewrite H1, IH by assumption. reflexivity.
  - auto.
  - eapply Forall_walk_to_labels; eassumption.
  - eapply Forall_walk_to_labels; eassumption.
  - auto.
Qed.

Lemma func_names_labels (e : expr) :
  walk check_func_name e = true ->
  labels_ok (fun _ => true) allowed_func true e = true.
Proof.
  induction e as [v|s|b n IH|c i IH|fs IH|ts IH|name a IH|r|] using expr_nested_ind;
    simpl; intros H; try discriminate; try reflexivity.
  - auto.
  - auto.
  - eapply Forall_walk_to_labels; eassumption.
  - eapply Forall_walk_to_labels; eassumption.
  - apply andb_prop in H as [H1 H2]. rewrite H1, IH by assumption. reflexivity.
Qed.




(** Invariant 6 is not among those of C3: the code lets a Power with a Func
    base stay a Prod factor (raw AST of [sin^2(x) x]), and leaves any
    function name in place (raw AST of [tan(x)]). *)
Example normalize_keeps_func_power_factor :
  normalize (Prod [Power (Func "sin" (Var "x")) 2; Var "x"])
    = Ret (Prod [Var "x"; Power (Func "sin" (Var "x")) 2])
  /\ walk check_prod_power_base
       (Prod [Var "x"; Power (Func "sin" (Var "x")) 2]) = false
  /\ normalize (Func "tan" (Var "x")) = Ret (Func "tan" (Var "x"))
  /\ walk check_func_name (Func "tan" (Var "x")) = false.
Proof. repeat split. Qed.

(** ** Prod factors that are not atomic *)

Lemma prod_flatten_mapM (fs vs acc : list expr) :
  mapM normalize fs = Ret vs -> forallb is_node vs = true ->
  prod_flatten normalize fs acc = Ret (acc ++ flatten_factors vs).
Proof.
  revert vs acc. induction fs as [|f fs IH]; intros vs acc H Hnode; simpl in H.
  - injection H as <-. simpl. now rewrite app_nil_r.
  - apply bind_Ret in H as (v & Hv & H). apply bind_Ret in H as (vs' & Hvs & H).
    injection H as <-. simpl in Hnode. apply andb_prop in Hnode as [Hn Hnode].
    simpl. rewrite Hv. simpl.
    destruct v; simpl in Hn; try discriminate;
      rewrite (IH vs') by assumption; simpl; now rewrite <- app_assoc.
Qed.

Lemma prod_absorb_reaches (pre rest : list expr) (f : expr) (pc : Q)
    (acc : list expr) :
  forallb passable pre = true -> is_sum f || is_mul f = true ->
  prod_absorb (pre ++ f :: rest) pc acc
  = Ret (Returned (ErrorObj ("Unsupported Factor Type in Product: "
                             ++ (if is_sum f then "sum" else "mul"))%string)).
Proof.
  revert pc acc. induction pre as [|p pre IH]; intros pc acc Hpre Hf; simpl.
  - destruct f; simpl in Hf; try discriminate; reflexivity.
  - simpl in Hpre. apply andb_prop in Hpre as [Hp Hpre].
    destruct p; simpl in Hp; try discriminate; auto.
    apply negb_true_iff in Hp. rewrite Hp. auto.
Qed.

Lemma flatten_passable (vs : list expr) :
  Forall normal vs -> forallb harmless_factor vs = true ->
  forallb passable (flatten_factors vs) = true.
Proof.
  induction 1 as [|v vs Hv _ IH]; intros H; [reflexivity|].
  simpl in H. apply andb_prop in H as [Hh H]. unfold flatten_factors. simpl.
  rewrite forallb_app. fold (flatten_factors vs). rewrite IH by assumption.
  rewrite andb_true_r. unfold harmless_factor in Hh.
  destruct v; simpl in Hh; try discriminate; simpl; try reflexivity.
  - rewrite !andb_true_r in Hh. now rewrite Hh.
  - inversion Hv as [| | | | | |? Hlen Hnf Hok Hasm|]; subst.
    eapply forallb_impl; [|exact Hok].
    intros g Hg. destruct g; simpl in *; try discriminate; reflexivity.
Qed.

Lemma mapM_normal (fs vs : list expr) :
  mapM normalize fs = Ret vs -> Forall normal vs.
Proof.
  intros H. apply mapM_Ret in H. induction H as [|f v fs vs Hf _ IH]; constructor; auto.
  pose proof (normalize_normal_ok f) as Hok. unfold normalize_ok in Hok.
  now rewrite Hf in Hok.
Qed.




(** ** An error dictionary under a Sum, a Mul or a Prod *)

Lemma mapM_app {A B : Type} (f : A -> outcome B) (l1 l2 : list A) :
  mapM f (l1 ++ l2) = (xs <- mapM f l1 ;; ys <- mapM f l2 ;; Ret (xs ++ ys)).
Proof.
  induction l1 as [|a l1 IH]; simpl.
  - destruct (mapM f l2); reflexivity.
  - destruct (f a) as [b|x]; simpl; [|reflexivity]. rewrite IH.
    destruct (mapM f l1) as [xs|x]; simpl; [|reflexivity].
    destruct (mapM f l2) as [ys|x]; reflexivity.
Qed.

Lemma sum_collect_error (vpre rest acc : list expr) (r : string) :
  Forall normal vpre ->
  sum_collect (vpre ++ ErrorObj r :: rest) acc = Raise (KeyError "type").
Proof.
  intros H. revert acc. induction H as [|v vpre Hv _ IH]; intros acc; simpl.
  - reflexivity.
  - destruct v; auto.
    + destruct (Qeq_bool value 0); auto.
    + destruct (normal_not_None Hv).
Qed.

Lemma all_normalize_ok (l : list expr) : Forall normalize_ok l.
Proof. apply Forall_forall. intros e _. apply normalize_normal_ok. Qed.

Lemma prod_flatten_error (pre post acc : list expr) (child : expr) (r : string) :
  forallb tree pre = true -> normalize child = Ret (ErrorObj r) ->
  prod_flatten normalize (pre ++ child :: post) acc = Raise (KeyError "type").
Proof.
  intros Hpre Hc. revert acc. induction pre as [|p pre IH]; intros acc; simpl.
  - rewrite Hc. reflexivity.
  - simpl in Hpre. apply andb_prop in Hpre as [Hp Hpre].
    pose proof (normalize_normal_ok p) as Hok. unfold normalize_ok in Hok.
    destruct (normalize p) as [v|x]; simpl.
    + destruct v; auto. destruct (normal_not_None Hok).
    + now rewrite Hok.
Qed.




(** ** Where the rewrite engines succeed *)

Lemma sum_collect_tree (vs acc : list expr) :
  forallb tree vs = true -> forallb tree acc = true ->
  exists nt, sum_collect vs acc = Ret nt /\ forallb tree nt = true.
Proof.
  revert acc. induction vs as [|v vs IH]; intros acc Hvs Hacc; simpl.
  - eauto.
  - simpl in Hvs. apply andb_prop in Hvs as [Hv Hvs].
    assert (Hkeep : forallb tree (acc ++ [v]) = true).
    { rewrite forallb_app, Hacc. simpl. now rewrite Hv. }
    destruct v; try discriminate; auto.
    + destruct (Qeq_bool value 0); auto.
    + apply IH; [assumption|]. rewrite forallb_app, Hacc. exact Hv.
Qed.

Lemma mapM_normalize_tree (pexp : Z -> bool) (pname : string -> bool)
    (ts : list expr) :
  Forall (fun e => tree e = true -> labels_ok pexp pname false e = true ->
                   walk check_func_arg e = true ->
                   exists v, normalize e = Ret v /\ tree v = true) ts ->
  forallb tree ts = true ->
  forallb (labels_ok pexp pname false) ts = true ->
  forallb (walk check_func_arg) ts = true ->
  exists vs, mapM normalize ts = Ret vs /\ forallb tree vs = true.
Proof.
  induction 1 as [|t ts Ht _ IH]; intros HT HL HF; simpl in *; [eauto|].
  apply andb_prop in HT as [HT1 HT2]. apply andb_prop in HL as [HL1 HL2].
  apply andb_prop in HF as [HF1 HF2].
  destruct (Ht HT1 HL1 HF1) as (v & -> & Hv).
  destruct (IH HT2 HL2 HF2) as (vs & -> & Hvs).
  simpl. exists (v :: vs). simpl. now rewrite Hv, Hvs.
Qed.

(** On a tree without Prod nodes whose function arguments are bare Vars,
    [normalize] returns, and returns a tree. *)
Lemma normalize_plain_tree (pexp : Z -> bool) (pname : string -> bool) (e : expr) :
  tree e = true -> labels_ok pexp pname false e = true ->
  walk check_func_arg e = true ->
  exists v, normalize e = Ret v /\ tree v = true.
Proof.
  unfold tree.
  induction e as [q|x|b n IH|c i IH|fs IH|ts IH|name a IH|r|] using expr_nested_ind;
    intros Ht Hl Hf; simpl in Ht, Hl, Hf; try discriminate.
  - eexists; split; reflexivity.
  - eexists; split; reflexivity.
  - apply andb_prop in Hl as [_ Hl].
    destruct (IH Ht Hl Hf) as (v & Hv & Htv).
    simpl. unfold normalize_power. rewrite Hv. simpl.
    destruct (n =? 0); [eexists; split; reflexivity|].
    destruct (n =? 1); eexists; split; try reflexivity; assumption.
  - destruct (IH Ht Hl Hf) as (v & Hv & Htv).
    simpl. unfold normalize_mul. destruct (Qeq_bool c 0); [eexists; split; reflexivity|].
    rewrite Hv. simpl.
    destruct v; simpl in Htv; try discriminate;
      try (destruct (Qeq_bool c 1); eexists; split; try reflexivity; assumption);
      eexists; split; try reflexivity; assumption.
  - destruct (mapM_normalize_tree pexp pname ts IH Ht Hl Hf) as (vs & Hvs & Htvs).
    destruct (sum_collect_tree vs [] Htvs eq_refl) as (nt & Hnt & Htnt).
    simpl. unfold normalize_sum. rewrite Hvs. simpl. rewrite Hnt. simpl.
    destruct nt as [|t [|t' nt]]; eexists; split; try reflexivity.
    + simpl in Htnt. now rewrite andb_true_r in Htnt.
    + exact Htnt.
  - apply andb_prop in Hl as [_ Hl]. apply andb_prop in Hf as [Hfa Hf].
    destruct a; simpl in Hfa; try discriminate.
    simpl. eexists; split; reflexivity.
Qed.

Lemma join_terms_total (render : expr -> outcome string) (l : list expr)
    (acc : string) :
  Forall (fun t => exists r, render t = Ret r) l ->
  exists s, join_terms render l acc = Ret s.
Proof.
  intros H. revert acc. induction H as [|t l (r & Hr) _ IH]; intros acc; simpl.
  - eauto.
  - rewrite Hr. simpl. apply IH.
Qed.

Lemma mapM_total {A B : Type} (f : A -> outcome B) (l : list A) :
  Forall (fun a => exists b, f a = Ret b) l -> exists bs, mapM f l = Ret bs.
Proof.
  induction 1 as [|a l (b & Hb) _ (bs & IH)]; simpl; [eauto|].
  rewrite Hb. simpl. rewrite IH. simpl. eauto.
Qed.

Lemma Forall_rendered sf (mode var_name : string) (l : list expr) :
  Forall (fun v => normal v -> tree v = true ->
                   exists s, to_string sf v mode var_name = Ret s) l ->
  Forall normal l -> forallb tree l = true ->
  Forall (fun t => exists r, to_string sf t mode var_name = Ret r) l.
Proof.
  induction 1 as [|t l Ht _ IH]; intros Hn HT; constructor.
  - inversion Hn; subst. simpl in HT. apply andb_prop in HT as [HT1 _]. auto.
  - inversion Hn; subst. simpl in HT. apply andb_prop in HT as [_ HT2]. auto.
Qed.

(** The pretty-printer renders every tree [normalize] returns. *)
Lemma to_string_total sf (mode var_name : string) (v : expr) :
  normal v -> tree v = true -> exists s, to_string sf v mode var_name = Ret s.
Proof.
  unfold tree.
  induction v as [q|x|b n IH|c i IH|fs IH|ts IH|name a IH|r|] using expr_nested_ind;
    intros Hn Ht; simpl in Ht; try discriminate; simpl.
  - eauto.
  - eauto.
  - inversion Hn; subst. destruct (IH H3 Ht) as (s & ->). simpl.
    destruct b; simpl in Ht; try discriminate; simpl; eauto.
  - inversion Hn; subst. destruct (IH H3 Ht) as (s & ->). simpl.
    destruct i; simpl in Ht; try discriminate; simpl;
      destruct (Qeq_bool c (-1)); eauto.
  - inversion Hn; subst.
    destruct (mapM_total (fun f => to_string sf f mode var_name) fs) as (parts & ->).
    + apply Forall_rendered; assumption.
    + simpl. eauto.
  - inversion Hn as [| | | | |? Hlen Hnt Hok| |]; subst.
    pose proof (Forall_rendered sf mode var_name ts IH Hnt Ht) as Hr.
    destruct ts as [|t ts]; [simpl in Hlen; lia|].
    inversion Hr as [|? ? (r & Hrt) Hr']; subst. rewrite Hrt. simpl.
    apply join_terms_total, Hr'.
  - eauto.
Qed.

Lemma canonical_simple (r : expr) :
  normal r -> tree r = true -> plain r = true -> simple r = true.
Proof.
  intros Hn Ht Hp. unfold simple. rewrite Ht, Hp.
  destruct (walk_shape_split r (normal_shape r Hn Ht)) as (_ & _ & _ & _ & ->).
  reflexivity.
Qed.

Lemma simple_normalized sf (raw : expr) (mode var_name : string) :
  simple raw = true ->
  exists v s, normalize raw = Ret v /\ to_string sf v mode var_name = Ret s.
Proof.
  unfold simple, plain. intros H.
  apply andb_prop in H as [H Hf]. apply andb_prop in H as [Ht Hp].
  destruct (normalize_plain_tree _ _ raw Ht Hp Hf) as (v & Hv & Htv).
  pose proof (normalize_normal_ok raw) as Hn. unfold normalize_ok in Hn.
  rewrite Hv in Hn.
  destruct (to_string_total sf mode var_name v Hn Htv) as (s & Hs).
  eauto.
Qed.

Lemma differentiate_return_total sf (o' : out) (mode var_name : string) :
  simple (result o') = true ->
  exists o, differentiate_return sf (Ret (Success o')) mode var_name
            = Ret (Success o).
Proof.
  intros H. destruct (simple_normalized sf _ mode var_name H) as (v & s & Hv & Hs).
  unfold differentiate_return. simpl. rewrite Hv. simpl. rewrite Hs. simpl. eauto.
Qed.

Lemma integrate_return_total sf (o' : out) (mode var_name : string) :
  simple (result o') = true ->
  exists o, integrate_return sf (Ret (Success o')) mode var_name
            = Ret (Success o).
Proof.
  intros H. destruct (simple_normalized sf _ mode var_name H) as (v & s & Hv & Hs).
  unfold integrate_return. simpl. rewrite Hv. simpl. rewrite Hs. simpl. eauto.
Qed.

Lemma walk_rewritable_split (e : expr) :
  walk check_rewritable e = true ->
  walk check_power_exp e = true /\ walk check_func_arg e = true
  /\ walk check_func_name e = true.
Proof.
  unfold check_rewritable. rewrite !walk_andb. intros H.
  repeat (apply andb_prop in H as [H ?]). auto.
Qed.

Lemma all_invariants_rewritable (e : expr) :
  all_invariants e = true -> walk check_rewritable e = true.
Proof.
  unfold all_invariants, check_rewritable. rewrite !walk_andb. intros H.
  repeat (apply andb_prop in H as [H ?]).
  repeat (apply andb_true_intro; split); assumption.
Qed.

Lemma Forall2_results
    (f : expr -> string -> string -> outcome response)
    (mode var_name : string) (Q : expr -> bool) (ts rs : list expr) :
  (forall t o, In t ts -> f t mode var_name = Ret (Success o) ->
               Q (result o) = true) ->
  Forall2 (fun t r => exists o', f t mode var_name = Ret (Success o')
                                 /\ result o' = r) ts rs ->
  forallb Q rs = true.
Proof.
  intros HQ H2. induction H2 as [|t r ts rs (o' & Ho' & <-) _ IH]; [reflexivity|].
  simpl. rewrite (HQ t o') by (simpl; auto).
  apply IH. intros t' o Hin. apply HQ. now right.
Qed.

Lemma forallb_simple_Sum (rs : list expr) :
  forallb simple rs = true -> simple (Sum rs) = true.
Proof.
  unfold simple at 2. unfold plain. rewrite tree_Sum. simpl.
  induction rs as [|r rs IH]; [reflexivity|]. simpl. intros H.
  apply andb_prop in H as [Hr H]. specialize (IH H).
  unfold simple, plain in Hr.
  apply andb_prop in Hr as [Hr Hr3]. apply andb_prop in Hr as [Hr1 Hr2].
  rewrite Hr1, Hr2, Hr3. simpl.
  apply andb_prop in IH as [IH IH3]. apply andb_prop in IH as [IH1 IH2].
  now rewrite IH1, IH2, IH3.
Qed.

Lemma differentiate_simple_result sf (t : expr) (mode var_name : string) (o : out) :
  walk check_power_exp t = true ->
  differentiate sf t mode var_name = Ret (Success o) -> simple (result o) = true.
Proof.
  intros He H.
  destruct (differentiate_canonical sf t mode var_name o He H) as (Hn & Ht & Hp).
  now apply canonical_simple.
Qed.

Lemma integrate_simple_result sf (t : expr) (mode var_name : string) (o : out) :
  walk check_power_exp t = true ->
  integrate sf t mode var_name = Ret (Success o) -> simple (result o) = true.
Proof.
  intros He H.
  destruct (integrate_canonical sf t mode var_name o He H) as (Hn & Ht & Hp).
  now apply canonical_simple.
Qed.

Lemma differentiate_sum_loop_domain
    (f : expr -> string -> string -> outcome response)
    (mode var_name : string) (l : list expr) :
  Forall (fun t => if differentiable t
                   then exists o, f t mode var_name = Ret (Success o)
                   else exists r, f t mode var_name = Ret (Failure r)) l ->
  forall acc acc',
    if forallb differentiable l
    then exists o, differentiate_sum_loop f mode var_name l acc acc' = Ret (Success o)
    else exists r, differentiate_sum_loop f mode var_name l acc acc' = Ret (Failure r).
Proof.
  induction 1 as [|t l Ht _ IH]; intros acc acc'; simpl; [eauto|].
  destruct (differentiable t); simpl.
  - destruct Ht as (o & ->). simpl. apply IH.
  - destruct Ht as (r & ->). simpl. eauto.
Qed.

Lemma integrate_sum_loop_domain
    (f : expr -> string -> string -> outcome response)
    (mode var_name : string) (l : list expr) :
  Forall (fun t => if integrable t
                   then exists o, f t mode var_name = Ret (Success o)
                   else exists r, f t mode var_name = Ret (Failure r)) l ->
  forall acc acc',
    if forallb integrable l
    then exists o, integrate_sum_loop f mode var_name l acc acc' = Ret (Success o)
    else exists r, integrate_sum_loop f mode var_name l acc acc' = Ret (Failure r).
Proof.
  induction 1 as [|t l Ht _ IH]; intros acc acc'; simpl; [eauto|].
  destruct (integrable t); simpl.
  - destruct Ht as (o & ->). simpl. apply IH.
  - destruct Ht as (r & ->). simpl. eauto.
Qed.

Lemma Forall_domain (d : expr -> bool)
    (f : expr -> string -> string -> outcome response)
    (mode var_name : string) (ts : list expr) :
  Forall (fun t => forall mode var_name,
            walk check_rewritable t = true ->
            if d t then exists o, f t mode var_name = Ret (Success o)
            else exists r, f t mode var_name = Ret (Failure r)) ts ->
  forallb (walk check_rewritable) ts = true ->
  Forall (fun t => if d t then exists o, f t mode var_name = Ret (Success o)
                   else exists r, f t mode var_name = Ret (Failure r)) ts.
Proof.
  induction 1 as [|t ts Ht _ IH]; intros H; [constructor|].
  simpl in H. apply andb_prop in H as [H1 H2]. constructor.
  - apply Ht, H1.
  - apply IH, H2.
Qed.

Lemma differentiate_Power_eq sf (base : expr) (n : Z) (mode var_name : string) :
  differentiate sf (Power base n) mode var_name =
  differentiate_return sf (differentiate_power base n) mode var_name.
Proof. reflexivity. Qed.

Lemma differentiate_domain sf (e : expr) :
  forall mode var_name,
    walk check_rewritable e = true ->
    if differentiable e
    then exists o, differentiate sf e mode var_name = Ret (Success o)
    else exists r, differentiate sf e mode var_name = Ret (Failure r).
Proof.
  induction e as [q|x|b n IH|c i IH|fs IH|ts IH|name a IH|r|] using expr_nested_ind;
    intros mode var_name Hw; simpl in Hw; try discriminate.
  - apply (differentiate_return_total sf). reflexivity.
  - apply (differentiate_return_total sf). reflexivity.
  - apply andb_prop in Hw as [Hc Hw]. unfold check_rewritable in Hc. simpl in Hc.
    rewrite !andb_true_r in Hc. apply Z.leb_le in Hc.
    simpl differentiable. rewrite differentiate_Power_eq.
    unfold differentiate_power.
    destruct b; simpl in Hw; try discriminate;
      try (simpl; eexists; reflexivity).
    cbn [type_of bind String.eqb Ascii.eqb Bool.eqb negb is_var].
    destruct (Z.eqb_spec n 0); [lia|].
    apply (differentiate_return_total sf). unfold simple, plain. simpl.
    rewrite !andb_true_r. apply Z.leb_le. lia.
  - simpl differentiable. rewrite differentiate_Mul_eq. unfold differentiate_mul.
    specialize (IH mode var_name Hw).
    destruct (differentiable i).
    + destruct IH as (oi & Hoi). rewrite Hoi. cbn [bind].
      apply (differentiate_return_total sf). cbn [result].
      apply walk_rewritable_split in Hw as (He & _ & _).
      pose proof (differentiate_simple_result sf i mode var_name oi He Hoi) as Hs.
      unfold simple, plain in *. simpl. exact Hs.
    + destruct IH as (r & ->). simpl. eauto.
  - simpl. eauto.
  - simpl differentiable. rewrite differentiate_Sum_eq. unfold differentiate_sum.
    pose proof (differentiate_sum_loop_domain (differentiate sf) mode var_name ts
                  (Forall_domain differentiable _ mode var_name ts IH Hw) [] []) as Hl.
    destruct (forallb differentiable ts).
    + destruct Hl as (o' & Ho'). rewrite Ho'.
      apply (differentiate_return_total sf).
      destruct (differentiate_sum_loop_results _ _ _ _ _ _ _ Ho') as (rs & -> & Hrs).
      simpl. apply forallb_simple_Sum.
      apply (Forall2_results (differentiate sf) mode var_name simple ts rs); [|exact Hrs].
      intros t o Hin Ho. apply (differentiate_simple_result sf t mode var_name); [|exact Ho].
      rewrite forallb_forall in Hw. apply walk_rewritable_split. auto.
    + destruct Hl as (r & ->). simpl. eauto.
  - apply andb_prop in Hw as [Hc Hw]. unfold check_rewritable in Hc. simpl in Hc.
    apply andb_prop in Hc as [Ha Hname].
    destruct a; simpl in Ha; try discriminate.
    simpl differentiable.
    change (differentiate sf (Func name (Var variable)) mode var_name)
      with (differentiate_return sf (differentiate_func name (Var variable))
              mode var_name).
    unfold differentiate_func. simpl variable_of. cbn [bind].
    unfold allowed_func in Hname.
    destruct (name =? "sin")%string;
      [apply (differentiate_return_total sf); reflexivity|].
    destruct (name =? "cos")%string;
      [apply (differentiate_return_total sf); reflexivity|].
    destruct (name =? "exp")%string;
      [apply (differentiate_return_total sf); reflexivity|discriminate].
Qed.

Lemma integrate_domain sf (e : expr) :
  forall mode var_name,
    walk check_rewritable e = true ->
    if integrable e
    then exists o, integrate sf e mode var_name = Ret (Success o)
    else exists r, integrate sf e mode var_name = Ret (Failure r).
Proof.
  induction e as [q|x|b n IH|c i IH|fs IH|ts IH|name a IH|r|] using expr_nested_ind;
    intros mode var_name Hw; simpl in Hw; try discriminate.
  - apply (integrate_return_total sf). reflexivity.
  - apply (integrate_return_total sf). reflexivity.
  - apply andb_prop in Hw as [Hc Hw]. unfold check_rewritable in Hc. simpl in Hc.
    rewrite !andb_true_r in Hc. apply Z.leb_le in Hc.
    simpl integrable. rewrite integrate_Power_eq.
    unfold integrate_power.
    destruct b; simpl in Hw; try discriminate;
      try (simpl; eexists; reflexivity).
    cbn [type_of bind String.eqb Ascii.eqb Bool.eqb negb is_var].
    destruct (Z.eqb_spec n (-1)); [lia|].
    apply (integrate_return_total sf). unfold simple, plain. simpl.
    rewrite !andb_true_r. apply Z.leb_le. lia.
  - simpl integrable. rewrite integrate_Mul_eq. unfold integrate_mul.
    destruct (Qeq_bool c 0); [apply (integrate_return_total sf); reflexivity|].
    specialize (IH mode var_name Hw). cbn [orb].
    destruct (integrable i).
    + destruct IH as (oi & Hoi). rewrite Hoi. cbn [bind].
      apply walk_rewritable_split in Hw as (He & _ & _).
      pose proof (integrate_simple_result sf i mode var_name oi He Hoi) as Hs.
      destruct (result oi) eqn:Er; try discriminate;
        apply (integrate_return_total sf); cbn [result];
        try reflexivity; unfold simple, plain in *; simpl; exact Hs.
    + destruct IH as (r & ->). simpl. eauto.
  - simpl. eauto.
  - simpl integrable. rewrite integrate_Sum_eq. unfold integrate_sum.
    pose proof (integrate_sum_loop_domain (integrate sf) mode var_name ts
                  (Forall_domain integrable _ mode var_name ts IH Hw) [] []) as Hl.
    destruct (forallb integrable ts).
    + destruct Hl as (o' & Ho'). rewrite Ho'.
      apply (integrate_return_total sf).
      destruct (integrate_sum_loop_results _ _ _ _ _ _ _ Ho') as (rs & -> & Hrs).
      simpl. apply forallb_simple_Sum.
      apply (Forall2_results (integrate sf) mode var_name simple ts rs); [|exact Hrs].
      intros t o Hin Ho. apply (integrate_simple_result sf t mode var_name); [|exact Ho].
      rewrite forallb_forall in Hw. apply walk_rewritable_split. auto.
    + destruct Hl as (r & ->). simpl. eauto.
  - apply andb_prop in Hw as [Hc Hw]. unfold check_rewritable in Hc. simpl in Hc.
    apply andb_prop in Hc as [Ha Hname].
    destruct a; simpl in Ha; try discriminate.
    simpl integrable.
    change (integrate sf (Func name (Var variable)) mode var_name)
      with (integrate_return sf (integrate_func name (Var variable))
              mode var_name).
    unfold integrate_func. simpl variable_of. cbn [bind].
    unfold allowed_func in Hname.
    destruct (name =? "sin")%string;
      [apply (integrate_return_total sf); reflexivity|].
    destruct (name =? "cos")%string;
      [apply (integrate_return_total sf); reflexivity|].
    destruct (name =? "exp")%string;
      [apply (integrate_return_total sf); reflexivity|discriminate].
Qed.

(** X1. On a canonical input (all eight invariants) [differentiate], when
    it returns, returns a success exactly when the input has no Prod node
    and every Power has a bare Var as its base, and a failure dictionary
    exactly otherwise. No lookup fails on the way: it raises none of
    [KeyError], [TypeError], [IndexError], [AttributeError]. (Printing a
    number is outside the model: nothing is said about [ValueError] or
    [OverflowError].) *)
Theorem differentiate_succeeds_iff sf (e : expr) (mode var_name : string) :
  all_invariants e = true ->
  (forall o, differentiate sf e mode var_name = Ret (Success o) ->
             differentiable e = true)
  /\ (forall r, differentiate sf e mode var_name = Ret (Failure r) ->
                differentiable e = false)
  /\ (forall key, differentiate sf e mode var_name <> Raise (KeyError key))
  /\ differentiate sf e mode var_name <> Raise TypeError
  /\ differentiate sf e mode var_name <> Raise IndexError
  /\ differentiate sf e mode var_name <> Raise AttributeError.
Proof.
  intros H. apply all_invariants_rewritable in H.
  pose proof (differentiate_domain sf e mode var_name H) as Hd.
  destruct (differentiable e); destruct Hd as [y Hy]; rewrite Hy;
    repeat split; try discriminate; intros; discriminate.
Qed.

Lemma differentiate_succeeds_iff_witness :
  all_invariants (Sum [Mul 3 (Power (Var "x") 2); Func "sin" (Var "x")]) = true
  /\ all_invariants (Sum [Var "x"; Mul 2 (Prod [Var "x"; Func "sin" (Var "x")])])
     = true
  /\ differentiable (Sum [Mul 3 (Power (Var "x") 2); Func "sin" (Var "x")]) = true
  /\ differentiable (Sum [Var "x"; Mul 2 (Prod [Var "x"; Func "sin" (Var "x")])])
     = false.
Proof.
  split; [reflexivity|]. split; [reflexivity|]. split.
  - destruct (differentiate_succeeds_iff (fun _ => EmptyString)
                (Sum [Mul 3 (Power (Var "x") 2); Func "sin" (Var "x")])
                "fraction" "x" eq_refl) as (Hs & _).
    eapply Hs. reflexivity.
  - destruct (differentiate_succeeds_iff (fun _ => EmptyString)
                (Sum [Var "x"; Mul 2 (Prod [Var "x"; Func "sin" (Var "x")])])
                "fraction" "x" eq_refl) as (_ & Hf & _).
    eapply Hf. reflexivity.
Defined.

(** X2. On a canonical input [integrate], when it returns, returns a
    success exactly when every Prod node and every Power with a base other
    than a Var sits under a Mul with coefficient 0, and a failure
    dictionary exactly otherwise: a Mul with coefficient 0 is integrated
    to [Const 0] without its inner expression being looked at. No lookup
    fails on the way: it raises none of [KeyError], [TypeError],
    [IndexError], [AttributeError]. (Printing a number is outside the
    model: nothing is said about [ValueError] or [OverflowError].) *)
Theorem integrate_succeeds_iff sf (e : expr) (mode var_name : string) :
  all_invariants e = true ->
  (forall o, integrate sf e mode var_name = Ret (Success o) ->
             integrable e = true)
  /\ (forall r, integrate sf e mode var_name = Ret (Failure r) ->
                integrable e = false)
  /\ (forall key, integrate sf e mode var_name <> Raise (KeyError key))
  /\ integrate sf e mode var_name <> Raise TypeError
  /\ integrate sf e mode var_name <> Raise IndexError
  /\ integrate sf e mode var_name <> Raise AttributeError.
Proof.
  intros H. apply all_invariants_rewritable in H.
  pose proof (integrate_domain sf e mode var_name H) as Hd.
  destruct (integrable e); destruct Hd as [y Hy]; rewrite Hy;
    repeat split; try discriminate; intros; discriminate.
Qed.

Lemma integrate_succeeds_iff_witness :
  all_invariants (Sum [Var "x"; Mul 0 (Prod [Var "x"; Func "sin" (Var "x")])])
  = true
  /\ all_invariants (Sum [Var "x"; Mul 2 (Prod [Var "x"; Func "sin" (Var "x")])])
     = true
  /\ integrable (Sum [Var "x"; Mul 0 (Prod [Var "x"; Func "sin" (Var "x")])])
     = true
  /\ integrable (Sum [Var "x"; Mul 2 (Prod [Var "x"; Func "sin" (Var "x")])])
     = false.
Proof.
  split; [reflexivity|]. split; [reflexivity|]. split.
  - destruct (integrate_succeeds_iff (fun _ => EmptyString)
                (Sum [Var "x"; Mul 0 (Prod [Var "x"; Func "sin" (Var "x")])])
                "fraction" "x" eq_refl) as (Hs & _).
    eapply Hs. reflexivity.
  - destruct (integrate_succeeds_iff (fun _ => EmptyString)
                (Sum [Var "x"; Mul 2 (Prod [Var "x"; Func "sin" (Var "x")])])
                "fraction" "x" eq_refl) as (_ & Hf & _).
    eapply Hf. reflexivity.
Defined.

(** ** More on the normal form *)

Lemma Forall_normal_walk (check : expr -> bool) (l : list expr) :
  Forall (fun e => normal e -> tree e = true -> walk check e = true) l ->
  Forall normal l -> forallb tree l = true -> forallb (walk check) l = true.
Proof. apply Forall_walk. Qed.

(** A check that every normal node passes holds all over a normal tree. *)
Lemma normal_walk (check : expr -> bool) (v : expr) :
  (forall node, normal node -> check node = true) ->
  normal v -> tree v = true -> walk check v = true.
Proof.
  intros Hc.
  induction v as [q|x|b n IH|c i IH|fs IH|ts IH|name a IH|r|] using expr_nested_ind;
    intros Hn Ht; try discriminate; simpl.
  - auto.
  - auto.
  - rewrite (Hc _ Hn). inversion Hn; subst. apply IH; assumption.
  - rewrite (Hc _ Hn). inversion Hn; subst. apply IH; assumption.
  - rewrite (Hc _ Hn). inversion Hn; subst.
    apply Forall_normal_walk; assumption.
  - rewrite (Hc _ Hn). inversion Hn; subst.
    apply Forall_normal_walk; assumption.
  - rewrite (Hc _ Hn). inversion Hn; subst.
    destruct a; simpl in *; try discriminate. auto using normal_Var.
Qed.

Lemma normal_single_var (node : expr) : normal node -> check_single_var node = true.
Proof.
  intros Hn. destruct node; try reflexivity.
  inversion Hn as [| | | | | |? Hlen Hnf Hok Hasm|]; subst. simpl.
  rewrite <- (normal_Prod_canon factors Hok Hasm), canon_varish.
  apply Nat.leb_le.
  destruct (var_part_cases factors) as [->|[(s & -> & _)|(s & -> & _)]];
    simpl; lia.
Qed.

Lemma normal_reduced (node : expr) : normal node -> check_reduced node = true.
Proof.
  intros Hn. destruct node; try reflexivity; inversion Hn; subst; simpl.
  - destruct (Z.eqb_spec exp 0); [contradiction|].
    destruct (Z.eqb_spec exp 1); [contradiction|]. reflexivity.
  - now rewrite H1.
Qed.

Lemma normalize_Ret_normal (e v : expr) : normalize e = Ret v -> normal v.
Proof.
  intros H. pose proof (normalize_normal_ok e) as Hok.
  unfold normalize_ok in Hok. now rewrite H in Hok.
Qed.

(** X3. Whatever the input, in a tree that [normalize] returns every Prod
    holds the variable at most once (bare, or as a single power): the
    powers of the variable are combined into one factor. *)
Theorem normalize_combines_variable (e v : expr) :
  normalize e = Ret v -> tree v = true -> walk check_single_var v = true.
Proof.
  intros H Ht. apply normal_walk; [apply normal_single_var | | exact Ht].
  eapply normalize_Ret_normal, H.
Qed.

Lemma normalize_combines_variable_witness :
  walk check_single_var
    (Mul 3 (Prod [Power (Var "x") 4; Func "sin" (Var "x"); Func "cos" (Var "x")]))
  = true.
Proof.
  apply (normalize_combines_variable
           (Prod [Var "x"; Func "sin" (Var "x"); Power (Var "x") 2; Const 3;
                  Func "cos" (Var "x"); Var "x"]));
    reflexivity.
Defined.



Lemma not_prod_labels (e : expr) :
  walk check_not_prod e = true ->
  labels_ok (fun _ => true) (fun _ => true) false e = true.
Proof.
  induction e as [v|s|b n IH|c i IH|fs IH|ts IH|name a IH|r|] using expr_nested_ind;
    simpl; intros H; try discriminate; try reflexivity; auto.
  eapply Forall_walk_to_labels; eassumption.
Qed.



(** ** The Sum rule: linearity and the shape of the trace *)

Lemma differentiate_return_inv sf (d : outcome response)
    (mode var_name : string) (o : out) :
  differentiate_return sf d mode var_name = Ret (Success o) ->
  exists o' s,
    d = Ret (Success o')
    /\ normalize (result o') = Ret (result o)
    /\ to_string sf (result o) mode var_name = Ret s
    /\ steps o = steps o' /\ constant o = constant o'
    /\ rendered o = Some s.
Proof.
  unfold differentiate_return. intros H.
  apply bind_Ret in H as (r & Hd & H). destruct r as [o'|reason]; [|discriminate].
  apply bind_Ret in H as (res & Hres & H).
  apply bind_Ret in H as (s & Hs & H).
  injection H as <-. exists o', s. simpl. auto 7.
Qed.

Lemma integrate_return_inv sf (d : outcome response)
    (mode var_name : string) (o : out) :
  integrate_return sf d mode var_name = Ret (Success o) ->
  exists o' s,
    d = Ret (Success o')
    /\ normalize (result o') = Ret (result o)
    /\ to_string sf (result o) mode var_name = Ret s
    /\ steps o = steps o' /\ constant o = constant o'.
Proof.
  unfold integrate_return. intros H.
  apply bind_Ret in H as (r & Hd & H). destruct r as [o'|reason]; [|discriminate].
  apply bind_Ret in H as (res & Hres & H).
  apply bind_Ret in H as (s & Hs & H).
  injection H as <-. exists o', s. simpl. auto 7.
Qed.

Lemma differentiate_sum_loop_trace
    (f : expr -> string -> string -> outcome response)
    (mode var_name : string) (l acc : list expr) (acc' : list step) (o : out) :
  differentiate_sum_loop f mode var_name l acc acc' = Ret (Success o) ->
  exists os,
    Forall2 (fun t o' => f t mode var_name = Ret (Success o')) l os
    /\ result o = Sum (acc ++ map result os)
    /\ steps o = Line "Using Linearity of Differentiation:"
                   :: acc' ++ map (fun o' => Nested (steps o')) os
    /\ constant o = None.
Proof.
  revert acc acc'. induction l as [|t l IH]; intros acc acc' H; simpl in H.
  - injection H as <-. exists []. simpl. rewrite !app_nil_r. repeat split; constructor.
  - apply bind_Ret in H as (r & Hr & H). destruct r as [o'|]; [|discriminate].
    apply IH in H as (os & Hos & Hres & Hst & Hc). exists (o' :: os).
    simpl. rewrite Hres, Hst, <- !app_assoc. repeat split; auto.
Qed.

Lemma integrate_sum_loop_trace
    (f : expr -> string -> string -> outcome response)
    (mode var_name : string) (l acc : list expr) (acc' : list step) (o : out) :
  integrate_sum_loop f mode var_name l acc acc' = Ret (Success o) ->
  exists os,
    Forall2 (fun t o' => f t mode var_name = Ret (Success o')) l os
    /\ result o = Sum (acc ++ map result os)
    /\ steps o = Line "Using Linearity of Integration:"
                   :: acc' ++ map (fun o' => Nested (steps o')) os
    /\ constant o = Some true.
Proof.
  revert acc acc'. induction l as [|t l IH]; intros acc acc' H; simpl in H.
  - injection H as <-. exists []. simpl. rewrite !app_nil_r. repeat split; constructor.
  - apply bind_Ret in H as (r & Hr & H). destruct r as [o'|]; [|discriminate].
    apply IH in H as (os & Hos & Hres & Hst & Hc). exists (o' :: os).
    simpl. rewrite Hres, Hst, <- !app_assoc. repeat split; auto.
Qed.

(** X6. When [differentiate] succeeds on a Sum, every term was
    differentiated with success, in order; the result is the normal form of
    the Sum of the term results, and the trace is the linearity header
    followed by one nested trace per term, in term order. *)
Theorem differentiate_sum_linear sf (terms : list expr) (mode var_name : string)
    (o : out) :
  differentiate sf (Sum terms) mode var_name = Ret (Success o) ->
  exists os,
    Forall2 (fun t o' => differentiate sf t mode var_name = Ret (Success o')) terms os
    /\ normalize (Sum (map result os)) = Ret (result o)
    /\ steps o = Line "Using Linearity of Differentiation:"
                   :: map (fun o' => Nested (steps o')) os
    /\ List.length (steps o) = S (List.length terms).
Proof.
  rewrite differentiate_Sum_eq. intros H.
  apply differentiate_return_inv in H as (o' & s & Hd & Hn & _ & Hst & _).
  unfold differentiate_sum in Hd.
  apply differentiate_sum_loop_trace in Hd as (os & Hos & Hres & Hst' & _).
  simpl in Hres, Hst'. exists os. rewrite Hres in Hn. rewrite Hst, Hst'.
  repeat split; try assumption.
  simpl. rewrite length_map. f_equal. symmetry. eapply Forall2_length, Hos.
Qed.

Lemma differentiate_sum_linear_witness :
  exists os,
    Forall2 (fun t o' => differentiate (fun _ => "") t "fraction" "x"
                         = Ret (Success o'))
            [Power (Var "x") 2; Func "cos" (Var "x")] os
    /\ normalize (Sum (map result os))
       = Ret (Sum [Mul 2 (Var "x"); Mul (-1) (Func "sin" (Var "x"))])
    /\ [Line "Using Linearity of Differentiation:";
        Nested [Line "d/dx(x^2) = 2x^(1)"];
        Nested [Line "d/dx(cos(x)) = -sin(x)"]]
       = Line "Using Linearity of Differentiation:"
           :: map (fun o' => Nested (steps o')) os
    /\ 3%nat = S (List.length [Power (Var "x") 2; Func "cos" (Var "x")]).
Proof.
  apply (differentiate_sum_linear (fun _ => "")
           [Power (Var "x") 2; Func "cos" (Var "x")] "fraction" "x"
           {| result := Sum [Mul 2 (Var "x"); Mul (-1) (Func "sin" (Var "x"))];
              steps := [Line "Using Linearity of Differentiation:";
                        Nested [Line "d/dx(x^2) = 2x^(1)"];
                        Nested [Line "d/dx(cos(x)) = -sin(x)"]];
              constant := None;
              rendered := Some "2x - sin(x)" |}).
  reflexivity.
Defined.

(** X7. When [integrate] succeeds on a Sum, every term was integrated with
    success, in order; the result is the normal form of the Sum of the term
    results, and the trace is the linearity header followed by one nested
    trace per term, in term order. *)
Theorem integrate_sum_linear sf (terms : list expr) (mode var_name : string)
    (o : out) :
  integrate sf (Sum terms) mode var_name = Ret (Success o) ->
  exists os,
    Forall2 (fun t o' => integrate sf t mode var_name = Ret (Success o')) terms os
    /\ normalize (Sum (map result os)) = Ret (result o)
    /\ steps o = Line "Using Linearity of Integration:"
                   :: map (fun o' => Nested (steps o')) os
    /\ List.length (steps o) = S (List.length terms).
Proof.
  rewrite integrate_Sum_eq. intros H.
  apply integrate_return_inv in H as (o' & s & Hd & Hn & _ & Hst & _).
  unfold integrate_sum in Hd.
  apply integrate_sum_loop_trace in Hd as (os & Hos & Hres & Hst' & _).
  simpl in Hres, Hst'. exists os. rewrite Hres in Hn. rewrite Hst, Hst'.
  repeat split; try assumption.
  simpl. rewrite length_map. f_equal. symmetry. eapply Forall2_length, Hos.
Qed.

Lemma integrate_sum_linear_witness :
  exists os,
    Forall2 (fun t o' => integrate (fun _ => "") t "fraction" "x"
                         = Ret (Success o'))
            [Var "x"; Func "cos" (Var "x")] os
    /\ normalize (Sum (map result os))
       = Ret (Sum [Mul (1 # 2) (Power (Var "x") 2); Func "sin" (Var "x")])
    /\ [Line "Using Linearity of Integration:";
        Nested [Line "∫ x dx = x^2/2 + C"];
        Nested [Line "∫ cos(x) dx = sin(x) + C"]]
       = Line "Using Linearity of Integration:"
           :: map (fun o' => Nested (steps o')) os
    /\ 3%nat = S (List.length [Var "x"; Func "cos" (Var "x")]).
Proof.
  apply (integrate_sum_linear (fun _ => "")
           [Var "x"; Func "cos" (Var "x")] "fraction" "x"
           {| result := Sum [Mul (1 # 2) (Power (Var "x") 2); Func "sin" (Var "x")];
              steps := [Line "Using Linearity of Integration:";
                        Nested [Line "∫ x dx = x^2/2 + C"];
                        Nested [Line "∫ cos(x) dx = sin(x) + C"]];
              constant := Some true;
              rendered := Some "1/2x^2 + sin(x) + C" |}).
  reflexivity.
Defined.

(** ** [normalize] preserves the meaning of a tree *)

Section MeaningFacts.

Local Open Scope Q_scope.

Variable fn : string -> Q -> Q.
Variable x : Q.
Hypothesis fn_proper : forall name a b, a == b -> fn name a == fn name b.

Local Abbreviation ev := (eval fn x).
Local Abbreviation evp := (eval_prod fn x).
Local Abbreviation evs := (eval_sum fn x).

Lemma eval_prod_app (a b : list expr) : evp (a ++ b) == evp a * evp b.
Proof.
  unfold eval_prod. induction a as [|f a IH]; simpl.
  - ring.
  - rewrite IH. ring.
Qed.

Lemma eval_sum_app (a b : list expr) : evs (a ++ b) == evs a + evs b.
Proof.
  unfold eval_sum. induction a as [|f a IH]; simpl.
  - ring.
  - rewrite IH. ring.
Qed.

Lemma eval_prod_cons (f : expr) (l : list expr) : evp (f :: l) = ev f * evp l.
Proof. reflexivity. Qed.

Lemma eval_sum_cons (f : expr) (l : list expr) : evs (f :: l) = ev f + evs l.
Proof. reflexivity. Qed.

Lemma eval_Prod (fs : list expr) : ev (Prod fs) = evp fs.
Proof. reflexivity. Qed.

Lemma eval_Sum (ts : list expr) : ev (Sum ts) = evs ts.
Proof. reflexivity. Qed.

Lemma qmul_eq (a b : Q) : qmul a b == a * b.
Proof. unfold qmul. apply Qred_correct. Qed.

(** *** Sums *)

Lemma sum_collect_eval (vs acc nt : list expr) :
  sum_collect vs acc = Ret nt -> evs nt == evs acc + evs vs.
Proof.
  revert acc. induction vs as [|v vs IH]; intros acc H; simpl in H.
  - injection H as <-. unfold eval_sum at 3. simpl. ring.
  - rewrite eval_sum_cons.
    assert (Hkeep : sum_collect vs (acc ++ [v]) = Ret nt ->
                    evs nt == evs acc + (ev v + evs vs)).
    { intros H'. rewrite (IH _ H'), eval_sum_app, eval_sum_cons.
      unfold eval_sum at 2. simpl. ring. }
    destruct v; try discriminate; auto.
    + destruct (Qeq_bool value 0) eqn:E; [|auto].
      apply Qeq_bool_eq in E. rewrite (IH _ H). simpl. rewrite E. ring.
    + rewrite (IH _ H), eval_sum_app, eval_Sum. ring.
Qed.

Lemma sum_collect_trees (vs acc nt : list expr) :
  sum_collect vs acc = Ret nt -> forallb tree nt = true -> forallb tree vs = true.
Proof.
  revert acc. induction vs as [|v vs IH]; intros acc H Ht; simpl in H; [reflexivity|].
  assert (Hacc : forall acc', sum_collect vs acc' = Ret nt -> 
                              exists rest, nt = acc' ++ rest).
  { clear. revert nt. induction vs as [|v vs IH]; intros nt acc' H; simpl in H.
    - injection H as <-. exists []. now rewrite app_nil_r.
    - destruct v; try discriminate;
        try (apply IH in H as (rest & ->); rewrite <- app_assoc; eauto).
      destruct (Qeq_bool value 0); [eauto|].
      apply IH in H as (rest & ->); rewrite <- app_assoc; eauto. }
  assert (Hkeep : sum_collect vs (acc ++ [v]) = Ret nt ->
                  tree v && forallb tree vs = true).
  { intros H'. rewrite (IH _ H' Ht), andb_true_r.
    apply Hacc in H' as (rest & ->).
    rewrite !forallb_app in Ht. simpl in Ht.
    apply andb_prop in Ht as [Ht _]. apply andb_prop in Ht as [_ Ht].
    now rewrite andb_true_r in Ht. }
  simpl. destruct v; try discriminate; auto.
  - destruct (Qeq_bool value 0); [|auto]. rewrite (IH _ H Ht). reflexivity.
  - rewrite (IH _ H Ht), andb_true_r. rewrite tree_Sum.
    apply Hacc in H as (rest & ->).
    rewrite !forallb_app in Ht.
    apply andb_prop in Ht as [Ht _]. apply andb_prop in Ht as [_ Ht]. exact Ht.
Qed.

Lemma Forall2_eval_sum (ts vs : list expr) :
  Forall (fun e => forall v, normalize e = Ret v -> tree v = true -> ev v == ev e) ts ->
  Forall2 (fun t v => normalize t = Ret v) ts vs ->
  forallb tree vs = true -> evs vs == evs ts.
Proof.
  intros HF H2. induction H2 as [|t v ts vs Hv _ IH]; intros Ht; [reflexivity|].
  inversion HF as [|? ? Hte HF']; subst. simpl in Ht.
  apply andb_prop in Ht as [Ht1 Ht2].
  rewrite !eval_sum_cons, (Hte v Hv Ht1), (IH HF' Ht2). reflexivity.
Qed.

Lemma Forall2_eval_prod (ts vs : list expr) :
  Forall (fun e => forall v, normalize e = Ret v -> tree v = true -> ev v == ev e) ts ->
  Forall2 (fun t v => normalize t = Ret v) ts vs ->
  forallb tree vs = true -> evp vs == evp ts.
Proof.
  intros HF H2. induction H2 as [|t v ts vs Hv _ IH]; intros Ht; [reflexivity|].
  inversion HF as [|? ? Hte HF']; subst. simpl in Ht.
  apply andb_prop in Ht as [Ht1 Ht2].
  rewrite !eval_prod_cons, (Hte v Hv Ht1), (IH HF' Ht2). reflexivity.
Qed.

(** *** Products *)

Lemma prod_flatten_inv (fs acc fl : list expr) :
  prod_flatten normalize fs acc = Ret fl ->
  exists vs, Forall2 (fun f v => normalize f = Ret v) fs vs
             /\ fl = acc ++ flatten_factors vs.
Proof.
  revert acc. induction fs as [|f fs IH]; intros acc H; simpl in H.
  - injection H as <-. exists []. split; [constructor | now rewrite app_nil_r].
  - apply bind_Ret in H as (v & Hv & H).
    assert (Hkeep : forall l, prod_flatten normalize fs (acc ++ l) = Ret fl ->
                              flatten_factors [v] = l ->
                              exists vs, Forall2 (fun f v => normalize f = Ret v)
                                                 (f :: fs) vs
                                         /\ fl = acc ++ flatten_factors vs).
    { intros l H' Hl. apply IH in H' as (vs & Hvs & ->). exists (v :: vs).
      split; [constructor; assumption|].
      unfold flatten_factors in *. simpl in *. rewrite app_nil_r in Hl.
      rewrite Hl, <- app_assoc. reflexivity. }
    destruct v; try discriminate; eapply Hkeep; try exact H;
      unfold flatten_factors; simpl; now rewrite ?app_nil_r.
Qed.

Lemma eval_prod_flatten (vs : list expr) : evp (flatten_factors vs) == evp vs.
Proof.
  unfold flatten_factors. induction vs as [|v vs IH]; [reflexivity|].
  cbn [flat_map]. rewrite eval_prod_app, IH, eval_prod_cons.
  destruct v; unfold eval_prod at 1; simpl; ring.
Qed.

Lemma flatten_trees (vs : list expr) :
  forallb tree (flatten_factors vs) = true -> forallb tree vs = true.
Proof.
  unfold flatten_factors. induction vs as [|v vs IH]; [reflexivity|].
  simpl. rewrite forallb_app. intros H. apply andb_prop in H as [Hv H].
  rewrite (IH H), andb_true_r.
  destruct v; simpl in Hv; try discriminate; try reflexivity;
    try (now rewrite andb_true_r in Hv).
  rewrite tree_Prod. exact Hv.
Qed.

Lemma eval_prod_zero (l : list expr) (f : expr) :
  In f l -> ev f == 0 -> evp l == 0.
Proof.
  intros Hin Hf. induction l as [|g l IH]; [contradiction|].
  rewrite eval_prod_cons. destruct Hin as [->|Hin].
  - rewrite Hf. ring.
  - rewrite (IH Hin). ring.
Qed.

Lemma prod_absorb_inv (fl : list expr) (pc : Q) (acc : list expr) (a : absorbed) :
  prod_absorb fl pc acc = Ret a ->
  (a = Returned (Const 0)
   /\ exists z, In (Const z) fl /\ Qeq_bool z 0 = true)
  \/ (exists r, a = Returned (ErrorObj r))
  \/ (exists pc', a = Collected pc' (acc ++ filter is_atomic fl)
                  /\ pc' * evp (filter is_atomic fl) == pc * evp fl
                  /\ (forallb tree (filter is_atomic fl) = true ->
                      forallb tree fl = true)).
Proof.
  revert pc acc. induction fl as [|f fl IH]; intros pc acc H.
  - simpl in H. injection H as <-. right; right. exists pc. simpl.
    rewrite app_nil_r. repeat split; auto.
  - assert (Hkeep : is_atomic f = true ->
                    prod_absorb fl pc (acc ++ [f]) = Ret a ->
                    (a = Returned (Const 0)
                     /\ exists z, In (Const z) (f :: fl) /\ Qeq_bool z 0 = true)
                    \/ (exists r, a = Returned (ErrorObj r))
                    \/ (exists pc', a = Collected pc' (acc ++ filter is_atomic (f :: fl))
                                    /\ pc' * evp (filter is_atomic (f :: fl))
                                       == pc * evp (f :: fl)
                                    /\ (forallb tree (filter is_atomic (f :: fl)) = true ->
                                        forallb tree (f :: fl) = true))).
    { intros Hat H'. cbn [filter]. rewrite Hat.
      destruct (IH _ _ H') as [(-> & z & Hin & Hz)|[(r & ->)|(pc' & -> & He & Ht)]].
      - left. split; [reflexivity|]. exists z. split; [now right | assumption].
      - right; left. eauto.
      - right; right. exists pc'. rewrite <- app_assoc. split; [reflexivity|]. split.
        + rewrite !eval_prod_cons.
          transitivity (ev f * (pc' * evp (filter is_atomic fl))); [ring|].
          rewrite He. ring.
        + cbn [forallb]. intros Hx. apply andb_prop in Hx as [Hx1 Hx2].
          now rewrite Hx1, Ht. }
    destruct f; try (apply Hkeep; [reflexivity | exact H]); simpl in H.
    + destruct (Qeq_bool value 0) eqn:Ez.
      * injection H as <-. left. split; [reflexivity|]. exists value. simpl. auto.
      * destruct (IH _ _ H) as [(-> & z & Hin & Hz)|[(r & ->)|(pc' & -> & He & Ht)]].
        -- left. split; [reflexivity|]. exists z. split; [now right | assumption].
        -- right; left. eauto.
        -- right; right. exists pc'. cbn [filter is_atomic].
           split; [reflexivity|]. split.
           ++ rewrite He, qmul_eq, eval_prod_cons. simpl. ring.
           ++ exact Ht.
    + injection H as <-. right; left. unfold unsupported. eauto.
    + injection H as <-. right; left. unfold unsupported. eauto.
    + injection H as <-. right; left. unfold unsupported. eauto.
    + discriminate.
    + discriminate.
Qed.

Lemma eval_prod_sort3 (l : list expr) :
  Forall (fun f => okatom f = true) l -> evp (sort3 l) == evp l.
Proof.
  induction 1 as [|f l Hf _ IH]; [reflexivity|].
  rewrite eval_prod_cons, <- IH. unfold sort3. rewrite !by_rank_cons.
  destruct (okatom_rank f Hf) as [R|[R|R]]; rewrite R; simpl;
    rewrite !eval_prod_app, ?eval_prod_cons, ?eval_prod_app; ring.
Qed.

Lemma eval_prod_partition (l : list expr) :
  evp l == evp (filter not_varish l) * evp (filter varish l).
Proof.
  induction l as [|f l IH]; [unfold eval_prod; simpl; ring|].
  rewrite eval_prod_cons. cbn [filter]. unfold not_varish at 1.
  destruct (varish f); cbn [negb]; rewrite ?eval_prod_cons, IH; ring.
Qed.

Lemma Qpower_add_nonneg (q : Q) (n m : Z) :
  (0 <= n)%Z -> (0 <= m)%Z -> q ^ (n + m) == q ^ n * q ^ m.
Proof.
  intros Hn Hm. destruct (Z.eq_dec (n + m) 0) as [E|E].
  - assert (n = 0%Z) by lia. assert (m = 0%Z) by lia. subst. simpl. ring.
  - apply Qpower_plus'. exact E.
Qed.

Lemma psum_nonneg (a : list expr) :
  Forall (fun f => (0 <= var_exp f)%Z) a -> (0 <= psum a)%Z.
Proof.
  induction 1 as [|f a Hf _ IH]; [simpl; lia|]. rewrite psum_cons. lia.
Qed.

Lemma eval_prod_varish (a : list expr) :
  Forall (fun f => (0 <= var_exp f)%Z) a ->
  evp (filter varish a) == x ^ psum a.
Proof.
  induction 1 as [|f a Hf Ha IH]; [reflexivity|].
  rewrite psum_cons, Qpower_add_nonneg by (auto using psum_nonneg).
  simpl. destruct f as [| |b n| | | | | |]; simpl;
    try (rewrite IH; ring); try (rewrite eval_prod_cons, IH; simpl; ring).
  destruct b; simpl; rewrite IH; ring.
Qed.

Lemma eval_var_part (a : list expr) :
  (0 <= psum a)%Z -> evp (var_part (first_var a) (psum a)) == x ^ psum a.
Proof.
  intros Hp. destruct (var_part_cases a) as [E|[(s & E & E1)|(s & E & E2)]].
  - unfold var_part in E.
    destruct (Z.eqb_spec (psum a) 1); [discriminate|].
    destruct (Z.geb_spec (psum a) 2); [discriminate|].
    unfold var_part.
    destruct (Z.eqb_spec (psum a) 1); [lia|].
    destruct (Z.geb_spec (psum a) 2); [lia|].
    replace (psum a) with 0%Z by lia. reflexivity.
  - rewrite E, E1. unfold eval_prod. simpl. ring.
  - rewrite E. unfold eval_prod. simpl. ring.
Qed.

Lemma eval_prod_canon (a : list expr) :
  Forall (fun f => okatom f = true) a ->
  Forall (fun f => (0 <= var_exp f)%Z) a ->
  evp (canon a) == evp a.
Proof.
  intros Hok Hexp. unfold canon.
  rewrite eval_prod_sort3 by (apply pre_canon_okatom, Hok).
  rewrite eval_prod_app, eval_var_part by (apply psum_nonneg, Hexp).
  rewrite (eval_prod_partition a), eval_prod_varish by assumption. reflexivity.
Qed.

Lemma eval_prod_rebuild (pc : Q) (L : list expr) :
  ev (prod_rebuild pc L) == pc * evp L.
Proof.
  destruct L as [|f [|g L]]; simpl.
  - unfold eval_prod. simpl. ring.
  - destruct (Qeq_bool pc 1) eqn:E; unfold eval_prod; simpl; [|ring].
    apply Qeq_bool_eq in E. rewrite E. ring.
  - destruct (Qeq_bool pc 1) eqn:E; simpl; [|reflexivity].
    apply Qeq_bool_eq in E. rewrite E. unfold eval_prod. simpl. ring.
Qed.

Lemma prod_rebuild_trees (pc : Q) (L : list expr) :
  Forall (fun f => okatom f = true) L ->
  tree (prod_rebuild pc L) = true -> forallb tree L = true.
Proof.
  intros Hok. destruct L as [|f [|g L]]; simpl; [reflexivity| |].
  - destruct (Qeq_bool pc 1); intros H; [now rewrite H|].
    unfold tree in *. simpl in H. now rewrite H.
  - destruct (Qeq_bool pc 1); simpl; intros H; exact H.
Qed.

Lemma canon_trees (a : list expr) :
  Forall (fun f => okatom f = true) a ->
  forallb tree (canon a) = true -> forallb tree (filter not_varish a) = true.
Proof.
  intros Hok H. rewrite forallb_forall in *. intros f Hf. apply H.
  unfold canon, sort3, by_rank. rewrite !in_app_iff, !filter_In, !in_app_iff.
  assert (Hfa : okatom f = true).
  { apply filter_In in Hf as [Hf _]. rewrite Forall_forall in Hok. auto. }
  destruct (okatom_rank f Hfa) as [R|[R|R]]; rewrite R; auto 10.
Qed.

Lemma varish_tree (f : expr) : varish f = true -> tree f = true.
Proof.
  destruct f as [| |b n| | | | | |]; simpl; try discriminate; try reflexivity.
  destruct b; simpl; try discriminate; reflexivity.
Qed.

Lemma partition_trees (a : list expr) :
  forallb tree (filter not_varish a) = true -> forallb tree a = true.
Proof.
  induction a as [|f a IH]; [reflexivity|]. simpl. unfold not_varish at 1.
  destruct (varish f) eqn:E; simpl.
  - intros H. now rewrite (varish_tree f E), IH.
  - intros H. apply andb_prop in H as [H1 H2]. now rewrite H1, IH.
Qed.

Lemma prod_assemble_inv (fl : list expr) (v : expr) :
  Forall normal fl -> prod_assemble fl = Ret v ->
  (v = Const 0 /\ exists z, In (Const z) fl /\ Qeq_bool z 0 = true)
  \/ (exists r, v = ErrorObj r)
  \/ (exists pc,
        Forall (fun f => okatom f = true) (filter is_atomic fl)
        /\ pc * evp (filter is_atomic fl) == evp fl
        /\ (forallb tree (filter is_atomic fl) = true -> forallb tree fl = true)
        /\ v = prod_rebuild pc (canon (filter is_atomic fl))).
Proof.
  intros Hn H. unfold prod_assemble in H.
  apply bind_Ret in H as (a & Ha & H).
  destruct (prod_absorb_inv fl 1 [] a Ha)
    as [(-> & z & Hin & Hz)|[(r & ->)|(pc & -> & He & Ht)]].
  - injection H as <-. left. eauto.
  - injection H as <-. right; left. eauto.
  - right; right. exists pc. cbn [app] in H.
    set (at_ := filter is_atomic fl) in *.
    assert (Hna : Forall normal at_) by (apply filter_Forall_in, Hn).
    assert (Hat : Forall (fun f => is_atomic f = true) at_).
    { apply Forall_forall. intros f Hf. apply filter_In in Hf. tauto. }
    destruct (atomic_cases at_ Hna Hat) as [Hok|[Hc Hv]].
    + repeat split; try assumption.
      * rewrite He. ring.
      * rewrite prod_canonical_var_okatom in H by assumption. cbn [bind] in H.
        rewrite prod_combine_okatom in H by assumption.
        cbn [bind fst snd app] in H.
        rewrite prod_append_var_split, Z.add_0_l in H.
        rewrite sorted_okatom in H by (apply pre_canon_okatom, Hok).
        cbn [bind] in H. now injection H as <-.
    + exfalso. destruct Hv as [Hv|(o & Hv)]; rewrite Hv in H; cbn [bind] in H;
        [discriminate|]. rewrite Hc in H. discriminate.
Qed.

Lemma flatten_In_const (vs : list expr) (z : Q) :
  Forall normal vs -> In (Const z) (flatten_factors vs) -> In (Const z) vs.
Proof.
  unfold flatten_factors. induction 1 as [|v vs Hv _ IH]; [contradiction|].
  cbn [flat_map]. rewrite in_app_iff. intros [Hin|Hin]; [|right; auto].
  destruct v; simpl in Hin; try (destruct Hin as [Hin|[]]; now left).
  exfalso. inversion Hv as [| | | | | |? Hlen Hnf Hok Hasm|]; subst.
  rewrite forallb_forall in Hok. apply Hok in Hin. discriminate.
Qed.

Lemma Forall2_In_r {A B : Type} (R : A -> B -> Prop) (l : list A) (l' : list B)
    (b : B) :
  Forall2 R l l' -> In b l' -> exists a, In a l /\ R a b.
Proof.
  induction 1 as [|a b' l l' Hab _ IH]; [contradiction|].
  intros [<-|Hin]; [exists a; simpl; auto|].
  destruct (IH Hin) as (a' & Ha' & HR). exists a'. simpl. auto.
Qed.

Lemma labels_var_exp (pexp : Z -> bool) (pname : string -> bool) (pprod : bool)
    (f : expr) :
  (forall n, pexp n = true -> (0 <= n)%Z) ->
  labels_ok pexp pname pprod f = true -> (0 <= var_exp f)%Z.
Proof.
  intros Hp Hl. destruct f as [| |b n| | | | | |]; simpl; try lia.
  destruct b; simpl; try lia. simpl in Hl. apply andb_prop in Hl as [Hl _]. auto.
Qed.

Section Preservation.

Variable pexp : Z -> bool.
Variable pprod : bool.
Hypothesis pexp_new : forall n, (2 <= n)%Z -> pexp n = true.
Hypothesis prod_nonneg : pprod = true -> forall n, pexp n = true -> (0 <= n)%Z.

Local Abbreviation lab := (labels_ok pexp (fun _ => true) pprod).

Lemma Forall_drop_labels (l : list expr) :
  Forall (fun e => forall v, lab e = true -> normalize e = Ret v ->
                             tree v = true -> ev v == ev e) l ->
  forallb lab l = true ->
  Forall (fun e => forall v, normalize e = Ret v -> tree v = true -> ev v == ev e) l.
Proof.
  induction 1 as [|t l Ht _ IH]; intros H; constructor;
    simpl in H; apply andb_prop in H as [H1 H2]; auto.
Qed.

Lemma normalize_eval_gen (e : expr) :
  forall v, lab e = true -> normalize e = Ret v -> tree v = true -> ev v == ev e.
Proof.
  induction e as [q|s|b n IH|c i IH|fs IH|ts IH|name a IH|r|] using expr_nested_ind;
    intros v Hl H Ht; simpl in H; try discriminate.
  - injection H as <-. reflexivity.
  - injection H as <-. reflexivity.
  - unfold normalize_power in H. apply bind_Ret in H as (b' & Hb & H).
    simpl in Hl. apply andb_prop in Hl as [_ Hl].
    destruct (Z.eqb_spec n 0) as [->|]; [injection H as <-; reflexivity|].
    destruct (Z.eqb_spec n 1) as [->|]; injection H as <-.
    + rewrite (IH _ Hl Hb Ht). simpl. reflexivity.
    + unfold tree in Ht. simpl in Ht. simpl. rewrite (IH _ Hl Hb Ht). reflexivity.
  - unfold normalize_mul in H. simpl in Hl.
    destruct (Qeq_bool c 0) eqn:Ec.
    + injection H as <-. apply Qeq_bool_eq in Ec. simpl. rewrite Ec. ring.
    + apply bind_Ret in H as (i' & Hi & H). specialize (IH i' Hl Hi).
      destruct i'; try discriminate;
        try (destruct (Qeq_bool c 1) eqn:E1; injection H as <-;
             [apply Qeq_bool_eq in E1; rewrite (IH Ht); simpl; rewrite E1; ring
             | unfold tree in Ht; simpl in Ht; simpl; rewrite <- (IH Ht); reflexivity]).
      * injection H as <-. simpl. rewrite qmul_eq, <- (IH eq_refl). simpl. ring.
      * injection H as <-. unfold tree in Ht. simpl in Ht.
        simpl. rewrite qmul_eq, <- (IH Ht). simpl. ring.
  - unfold normalize_prod in H. apply bind_Ret in H as (fl & Hfl & H).
    simpl in Hl. apply andb_prop in Hl as [Hp Hl].
    pose proof (prod_flatten_normal fs [] (all_normalize_ok fs) (Forall_nil _)) as Hn.
    rewrite Hfl in Hn.
    assert (Hlfl : forallb lab fl = true).
    { apply (prod_flatten_labels pexp (fun _ => true) pprod fs [] fl);
        try assumption; try reflexivity.
      apply Forall_forall. intros f _ w. apply normalize_labels. exact pexp_new. }
    destruct (prod_flatten_inv fs [] fl Hfl) as (vs & Hvs & Efl). cbn [app] in Efl.
    pose proof (Forall_drop_labels fs IH Hl) as IH'.
    rewrite eval_Prod.
    destruct (prod_assemble_inv fl v Hn H)
      as [(-> & z & Hin & Hz)|[(r & ->)|(pc & Hok & He & Htr & ->)]].
    + rewrite Efl in Hin.
      assert (Hnvs : Forall normal vs).
      { clear - Hvs. induction Hvs; constructor; auto.
        eapply normalize_Ret_normal; eassumption. }
      apply flatten_In_const in Hin; [|exact Hnvs].
      destruct (Forall2_In_r _ _ _ _ Hvs Hin) as (f & Hf & Hfz).
      rewrite Forall_forall in IH'. pose proof (IH' f Hf _ Hfz eq_refl) as E.
      apply Qeq_bool_eq in Hz. simpl in E.
      rewrite (eval_prod_zero fs f Hf); [reflexivity|]. rewrite <- E. exact Hz.
    + discriminate.
    + set (at_ := filter is_atomic fl) in *.
      pose proof (canon_okatom at_ Hok) as HokL.
      pose proof (prod_rebuild_trees pc _ HokL Ht) as HtL.
      pose proof (partition_trees at_ (canon_trees at_ Hok HtL)) as Hta.
      pose proof (Htr Hta) as Htfl. rewrite Efl in Htfl.
      apply flatten_trees in Htfl.
      rewrite eval_prod_rebuild, eval_prod_canon; [| exact Hok |].
      * rewrite He, Efl, eval_prod_flatten.
        apply Forall2_eval_prod; assumption.
      * apply Forall_forall. intros f Hf. apply filter_In in Hf as [Hf _].
        rewrite forallb_forall in Hlfl.
        apply (labels_var_exp pexp (fun _ => true) pprod); auto.
  - unfold normalize_sum in H. apply bind_Ret in H as (vs & Hvs & H).
    apply bind_Ret in H as (nt & Hnt & H). simpl in Hl.
    pose proof (Forall_drop_labels ts IH Hl) as IH'.
    apply mapM_Ret in Hvs. rewrite eval_Sum.
    assert (Htnt : forallb tree nt = true).
    { destruct nt as [|t [|t' nt]]; injection H as <-.
      - reflexivity.
      - simpl. now rewrite Ht.
      - exact Ht. }
    assert (Ev : ev v == evs nt).
    { destruct nt as [|t [|t' nt]]; injection H as <-.
      - reflexivity.
      - unfold eval_sum. simpl. ring.
      - reflexivity. }
    rewrite Ev, (sum_collect_eval vs [] nt Hnt).
    rewrite (Forall2_eval_sum ts vs IH' Hvs (sum_collect_trees vs [] nt Hnt Htnt)).
    unfold eval_sum at 1. simpl. ring.
  - unfold normalize_func in H. apply bind_Ret in H as (a' & Ha & H).
    simpl in Hl. specialize (IH a' Hl Ha).
    destruct a'; try discriminate; injection H as <-;
      try (unfold unsupported, tree in Ht; simpl in Ht; discriminate).
    simpl. apply fn_proper. apply (IH eq_refl).
Qed.

End Preservation.

(** *** Derivative values through [normalize], without Prod nodes *)

Local Abbreviation dev := (deval fn x).
Local Abbreviation dvs := (deval_sum fn x).
Local Abbreviation nolab := (labels_ok (fun _ => true) (fun _ => true) false).

Lemma normalize_eval_no_prod (e v : expr) :
  nolab e = true -> normalize e = Ret v -> tree v = true -> ev v == ev e.
Proof.
  apply (normalize_eval_gen (fun _ => true) false); [reflexivity | discriminate].
Qed.

Lemma dfn_proper (name : string) (a b : Q) : a == b -> dfn fn name a == dfn fn name b.
Proof.
  intros H. unfold dfn.
  destruct (name =? "sin")%string; [now apply fn_proper|].
  destruct (name =? "cos")%string; [now rewrite (fn_proper "sin" a b H)|].
  destruct (name =? "exp")%string; [now apply fn_proper | reflexivity].
Qed.

Lemma deval_sum_app (a b : list expr) : dvs (a ++ b) == dvs a + dvs b.
Proof.
  unfold deval_sum. induction a as [|f a IH]; simpl.
  - ring.
  - rewrite IH. ring.
Qed.

Lemma deval_sum_cons (f : expr) (l : list expr) : dvs (f :: l) = dev f + dvs l.
Proof. reflexivity. Qed.

Lemma deval_Sum (ts : list expr) : dev (Sum ts) = dvs ts.
Proof. reflexivity. Qed.

Lemma sum_collect_deval (vs acc nt : list expr) :
  sum_collect vs acc = Ret nt -> dvs nt == dvs acc + dvs vs.
Proof.
  revert acc. induction vs as [|v vs IH]; intros acc H; simpl in H.
  - injection H as <-. unfold deval_sum at 3. simpl. ring.
  - rewrite deval_sum_cons.
    assert (Hkeep : sum_collect vs (acc ++ [v]) = Ret nt ->
                    dvs nt == dvs acc + (dev v + dvs vs)).
    { intros H'. rewrite (IH _ H'), deval_sum_app, deval_sum_cons.
      unfold deval_sum at 2. simpl. ring. }
    destruct v; try discriminate; auto.
    + destruct (Qeq_bool value 0) eqn:E; [|auto].
      rewrite (IH _ H). simpl. ring.
    + rewrite (IH _ H), deval_sum_app, deval_Sum. ring.
Qed.

Lemma Forall2_deval_sum (ts vs : list expr) :
  Forall (fun e => forall v, normalize e = Ret v -> tree v = true ->
                             dev v == dev e) ts ->
  Forall2 (fun t v => normalize t = Ret v) ts vs ->
  forallb tree vs = true -> dvs vs == dvs ts.
Proof.
  intros HF H2. induction H2 as [|t v ts vs Hv _ IH]; intros Ht; [reflexivity|].
  inversion HF as [|? ? Hte HF']; subst. simpl in Ht.
  apply andb_prop in Ht as [Ht1 Ht2].
  rewrite !deval_sum_cons, (Hte v Hv Ht1), (IH HF' Ht2). reflexivity.
Qed.

Lemma Forall_drop_nolab (P : expr -> expr -> Prop) (l : list expr) :
  Forall (fun e => forall v, nolab e = true -> normalize e = Ret v ->
                             tree v = true -> P e v) l ->
  forallb nolab l = true ->
  Forall (fun e => forall v, normalize e = Ret v -> tree v = true -> P e v) l.
Proof.
  induction 1 as [|t l Ht _ IH]; intros H; constructor;
    simpl in H; apply andb_prop in H as [H1 H2]; auto.
Qed.

Lemma normalize_deval_no_prod (e : expr) :
  forall v, nolab e = true -> normalize e = Ret v -> tree v = true ->
            dev v == dev e.
Proof.
  induction e as [q|s|b n IH|c i IH|fs IH|ts IH|name a IH|r|] using expr_nested_ind;
    intros v Hl H Ht; simpl in H; try discriminate.
  - injection H as <-. reflexivity.
  - injection H as <-. reflexivity.
  - unfold normalize_power in H. apply bind_Ret in H as (b' & Hb & H).
    simpl in Hl.
    destruct (Z.eqb_spec n 0) as [->|]; [injection H as <-; simpl; ring|].
    destruct (Z.eqb_spec n 1) as [->|]; injection H as <-.
    + rewrite (IH _ Hl Hb Ht). simpl. ring.
    + unfold tree in Ht. simpl in Ht. simpl.
      rewrite (IH _ Hl Hb Ht), (normalize_eval_no_prod b b' Hl Hb Ht). reflexivity.
  - unfold normalize_mul in H. simpl in Hl.
    destruct (Qeq_bool c 0) eqn:Ec.
    + injection H as <-. apply Qeq_bool_eq in Ec. simpl. rewrite Ec. ring.
    + apply bind_Ret in H as (i' & Hi & H). specialize (IH i' Hl Hi).
      destruct i'; try discriminate;
        try (destruct (Qeq_bool c 1) eqn:E1; injection H as <-;
             [apply Qeq_bool_eq in E1; rewrite (IH Ht); simpl; rewrite E1; ring
             | unfold tree in Ht; simpl in Ht; simpl; rewrite <- (IH Ht); reflexivity]).
      * injection H as <-. simpl. rewrite <- (IH eq_refl). simpl. ring.
      * injection H as <-. unfold tree in Ht. simpl in Ht.
        simpl. rewrite qmul_eq, <- (IH Ht). simpl. ring.
  - unfold normalize_sum in H. apply bind_Ret in H as (vs & Hvs & H).
    apply bind_Ret in H as (nt & Hnt & H). simpl in Hl.
    pose proof (Forall_drop_nolab (fun e v => dev v == dev e) ts IH Hl) as IH'.
    apply mapM_Ret in Hvs. rewrite deval_Sum.
    assert (Htnt : forallb tree nt = true).
    { destruct nt as [|t [|t' nt]]; injection H as <-.
      - reflexivity.
      - simpl. now rewrite Ht.
      - exact Ht. }
    assert (Ev : dev v == dvs nt).
    { destruct nt as [|t [|t' nt]]; injection H as <-.
      - reflexivity.
      - unfold deval_sum. simpl. ring.
      - reflexivity. }
    rewrite Ev, (sum_collect_deval vs [] nt Hnt).
    rewrite (Forall2_deval_sum ts vs IH' Hvs (sum_collect_trees vs [] nt Hnt Htnt)).
    unfold deval_sum at 1. simpl. ring.
  - unfold normalize_func in H. apply bind_Ret in H as (a' & Ha & H).
    simpl in Hl. pose proof (normalize_eval_no_prod a a' Hl Ha) as He.
    specialize (IH a' Hl Ha).
    destruct a'; try discriminate; injection H as <-;
      try (unfold unsupported, tree in Ht; simpl in Ht; discriminate).
    simpl. rewrite <- (IH eq_refl). simpl.
    rewrite (dfn_proper name x (ev a) (He eq_refl)). reflexivity.
Qed.

(** *** The rewrite engines against the textbook rules *)

Variable sf : Q -> string.

Lemma normalized_value (raw res : expr) (mode var_name s : string) :
  nolab raw = true -> normalize raw = Ret res ->
  to_string sf res mode var_name = Ret s ->
  nolab res = true /\ tree res = true /\ ev res == ev raw /\ dev res == dev raw.
Proof.
  intros Hl Hn Hs.
  assert (Ht : tree res = true).
  { eapply to_string_tree; [eapply normalize_Ret_normal|]; eassumption. }
  repeat split.
  - apply (normalize_labels (fun _ => true) (fun _ => true) false) with (e := raw);
      [reflexivity | exact Hl | exact Hn].
  - exact Ht.
  - now apply normalize_eval_no_prod.
  - now apply normalize_deval_no_prod.
Qed.

Lemma Forall2_nolab_results
    (f : expr -> string -> string -> outcome response)
    (P : expr -> expr -> Prop)
    (mode var_name : string) (ts : list expr) (os : list out) :
  Forall (fun t => forall mode var_name o,
            f t mode var_name = Ret (Success o) ->
            nolab (result o) = true /\ tree (result o) = true
            /\ P t (result o)) ts ->
  Forall2 (fun t o' => f t mode var_name = Ret (Success o')) ts os ->
  forallb nolab (map result os) = true
  /\ Forall2 P ts (map result os).
Proof.
  intros HF H2. induction H2 as [|t o ts os Ho _ IH]; [split; constructor|].
  inversion HF as [|? ? Ht HF']; subst.
  destruct (Ht _ _ _ Ho) as (Hl & _ & HP). destruct (IH HF') as (IHl & IHP).
  simpl. rewrite Hl, IHl. split; [reflexivity | constructor; assumption].
Qed.

Ltac use_normalized Hn Hs tac :=
  edestruct normalized_value as (Hl & Htr & He & _);
  [ | exact Hn | exact Hs | ]; [tac | ].

Ltac use_normalized_d Hn Hs tac :=
  edestruct normalized_value as (Hl & Htr & _ & He);
  [ | exact Hn | exact Hs | ]; [tac | ].

Lemma differentiate_sound_gen (e : expr) :
  forall mode var_name o,
    differentiate sf e mode var_name = Ret (Success o) ->
    nolab (result o) = true /\ tree (result o) = true
    /\ ev (result o) == dev e.
Proof.
  induction e as [q|s|b n IH|c i IH|fs IH|ts IH|name a IH|r|] using expr_nested_ind;
    intros mode var_name o H; try discriminate.
  - change (differentiate_return sf (differentiate_const q) mode var_name
            = Ret (Success o)) in H.
    apply differentiate_return_Success in H as (o' & s & Hd & Hn & Hs).
    injection Hd as <-.
    use_normalized Hn Hs ltac:(reflexivity).
    repeat split; try assumption; rewrite He; reflexivity.
  - change (differentiate_return sf (differentiate_var (Var s)) mode var_name
            = Ret (Success o)) in H.
    apply differentiate_return_Success in H as (o' & s' & Hd & Hn & Hs).
    injection Hd as <-.
    use_normalized Hn Hs ltac:(reflexivity).
    repeat split; try assumption; rewrite He; reflexivity.
  - rewrite differentiate_Power_eq in H.
    apply differentiate_return_Success in H as (o' & s & Hd & Hn & Hs).
    unfold differentiate_power in Hd. apply bind_Ret in Hd as (t & Ht & Hd).
    destruct (negb (t =? "var")%string) eqn:Et; [discriminate|].
    destruct (type_of_var b t Ht Et) as (y & ->).
    destruct (Z.eqb_spec n 0) as [->|Hn0]; injection Hd as <-.
    + use_normalized Hn Hs ltac:(reflexivity).
      repeat split; try assumption; rewrite He; simpl; ring.
    + use_normalized Hn Hs ltac:(reflexivity).
      repeat split; try assumption; rewrite He; simpl; ring.
  - rewrite differentiate_Mul_eq in H.
    apply differentiate_return_Success in H as (o' & s & Hd & Hn & Hs).
    unfold differentiate_mul in Hd. apply bind_Ret in Hd as (r & Hr & Hd).
    destruct r as [oi|]; [|discriminate]. injection Hd as <-.
    destruct (IH _ _ _ Hr) as (Hli & _ & Hei).
    use_normalized Hn Hs ltac:(exact Hli).
    repeat split; try assumption; rewrite He; simpl; rewrite Hei; reflexivity.
  - rewrite differentiate_Sum_eq in H.
    apply differentiate_return_Success in H as (o' & s & Hd & Hn & Hs).
    unfold differentiate_sum in Hd.
    apply differentiate_sum_loop_trace in Hd as (os & Hos & Hres & _ & _).
    cbn [app] in Hres. rewrite Hres in Hn.
    destruct (Forall2_nolab_results (differentiate sf) (fun t r => ev r == dev t)
                mode var_name ts os IH Hos) as (Hlrs & Hers).
    use_normalized Hn Hs ltac:(exact Hlrs).
    repeat split; try assumption; rewrite He, eval_Sum, deval_Sum.
    clear - Hers. induction Hers as [|t r ts rs Hr _ IHr]; [reflexivity|].
    rewrite eval_sum_cons, deval_sum_cons, Hr, IHr. reflexivity.
  - change (differentiate_return sf (differentiate_func name a) mode var_name
            = Ret (Success o)) in H.
    apply differentiate_return_Success in H as (o' & s & Hd & Hn & Hs).
    unfold differentiate_func in Hd. apply bind_Ret in Hd as (v & Hv & Hd).
    apply variable_of_Var in Hv as ->.
    destruct (name =? "sin")%string eqn:E1;
      [apply String.eqb_eq in E1 as ->; injection Hd as <-|].
    { use_normalized Hn Hs ltac:(reflexivity).
      repeat split; try assumption; rewrite He; simpl; unfold dfn; simpl; ring. }
    destruct (name =? "cos")%string eqn:E2;
      [apply String.eqb_eq in E2 as ->; injection Hd as <-|].
    { use_normalized Hn Hs ltac:(reflexivity).
      repeat split; try assumption; rewrite He; simpl; unfold dfn; simpl; ring. }
    destruct (name =? "exp")%string eqn:E3;
      [apply String.eqb_eq in E3 as ->; injection Hd as <-|discriminate].
    use_normalized Hn Hs ltac:(reflexivity).
    repeat split; try assumption; rewrite He; simpl; unfold dfn; simpl; ring.
Qed.

Lemma Fraction_eq (a b : Z) : Fraction a b == inject_Z a / inject_Z b.
Proof. unfold Fraction. apply Qred_correct. Qed.

Lemma inject_Z_nonzero (d : Z) : d <> 0%Z -> ~ inject_Z d == 0.
Proof.
  intros Hd H. apply Hd. unfold Qeq in H. simpl in H. lia.
Qed.

Lemma integrate_sound_gen (e : expr) :
  forall mode var_name o,
    integrate sf e mode var_name = Ret (Success o) ->
    nolab (result o) = true /\ tree (result o) = true
    /\ dev (result o) == ev e.
Proof.
  induction e as [q|s|b n IH|c i IH|fs IH|ts IH|name a IH|r|] using expr_nested_ind;
    intros mode var_name o H; try discriminate.
  - change (integrate_return sf (integrate_const q) mode var_name
            = Ret (Success o)) in H.
    apply integrate_return_inv in H as (o' & s & Hd & Hn & Hs & _).
    injection Hd as <-.
    use_normalized_d Hn Hs ltac:(reflexivity).
    repeat split; try assumption; rewrite He; simpl; ring.
  - change (integrate_return sf (integrate_var (Var s)) mode var_name
            = Ret (Success o)) in H.
    apply integrate_return_inv in H as (o' & s' & Hd & Hn & Hs & _).
    injection Hd as <-.
    use_normalized_d Hn Hs ltac:(reflexivity).
    repeat split; try assumption; rewrite He.
    cbn [deval eval result]. rewrite Fraction_eq. simpl. field.
  - rewrite integrate_Power_eq in H.
    apply integrate_return_inv in H as (o' & s & Hd & Hn & Hs & _).
    unfold integrate_power in Hd. apply bind_Ret in Hd as (t & Ht & Hd).
    destruct (negb (t =? "var")%string) eqn:Et; [discriminate|].
    destruct (type_of_var b t Ht Et) as (y & ->).
    destruct (Z.eqb_spec n (-1)) as [|Hn1]; [discriminate|]. injection Hd as <-.
    use_normalized_d Hn Hs ltac:(reflexivity).
    repeat split; try assumption; rewrite He.
    cbn [deval eval result]. rewrite Fraction_eq.
    replace (n + 1 - 1)%Z with n by lia.
    assert (Hnz : ~ inject_Z (n + 1) == 0) by (apply inject_Z_nonzero; lia).
    change (inject_Z 1) with 1. field. exact Hnz.
  - rewrite integrate_Mul_eq in H.
    apply integrate_return_inv in H as (o' & s & Hd & Hn & Hs & _).
    unfold integrate_mul in Hd.
    destruct (Qeq_bool c 0) eqn:Ec.
    + injection Hd as <-. apply Qeq_bool_eq in Ec.
      use_normalized_d Hn Hs ltac:(reflexivity).
      repeat split; try assumption; rewrite He; simpl; rewrite Ec; ring.
    + apply bind_Ret in Hd as (r & Hr & Hd).
      destruct r as [oi|]; [|discriminate].
      destruct (IH _ _ _ Hr) as (Hli & _ & Hei).
      destruct (result oi) eqn:Er; try discriminate; injection Hd as <-;
        try (use_normalized_d Hn Hs ltac:(exact Hli);
             repeat split; try assumption; rewrite He; simpl; simpl in Hei;
             rewrite Hei; reflexivity).
      use_normalized_d Hn Hs ltac:(reflexivity).
      repeat split; try assumption; rewrite He; simpl; simpl in Hei; rewrite <- Hei; ring.
  - rewrite integrate_Sum_eq in H.
    apply integrate_return_inv in H as (o' & s & Hd & Hn & Hs & _).
    unfold integrate_sum in Hd.
    apply integrate_sum_loop_trace in Hd as (os & Hos & Hres & _ & _).
    cbn [app] in Hres. rewrite Hres in Hn.
    destruct (Forall2_nolab_results (integrate sf) (fun t r => dev r == ev t)
                mode var_name ts os IH Hos) as (Hlrs & Hers).
    use_normalized_d Hn Hs ltac:(exact Hlrs).
    repeat split; try assumption; rewrite He, eval_Sum, deval_Sum.
    clear - Hers. induction Hers as [|t r ts rs Hr _ IHr]; [reflexivity|].
    rewrite eval_sum_cons, deval_sum_cons, Hr, IHr. reflexivity.
  - change (integrate_return sf (integrate_func name a) mode var_name
            = Ret (Success o)) in H.
    apply integrate_return_inv in H as (o' & s & Hd & Hn & Hs & _).
    unfold integrate_func in Hd. apply bind_Ret in Hd as (v & Hv & Hd).
    apply variable_of_Var in Hv as ->.
    destruct (name =? "sin")%string eqn:E1;
      [apply String.eqb_eq in E1 as ->; injection Hd as <-|].
    { use_normalized_d Hn Hs ltac:(reflexivity).
      repeat split; try assumption; rewrite He; simpl; unfold dfn; simpl; ring. }
    destruct (name =? "cos")%string eqn:E2;
      [apply String.eqb_eq in E2 as ->; injection Hd as <-|].
    { use_normalized_d Hn Hs ltac:(reflexivity).
      repeat split; try assumption; rewrite He; simpl; unfold dfn; simpl; ring. }
    destruct (name =? "exp")%string eqn:E3;
      [apply String.eqb_eq in E3 as ->; injection Hd as <-|discriminate].
    use_normalized_d Hn Hs ltac:(reflexivity).
    repeat split; try assumption; rewrite He; simpl; unfold dfn; simpl; ring.
Qed.

End MeaningFacts.

Section MeaningTheorems.

Local Open Scope Q_scope.









End MeaningTheorems.

(** ** The display options only reach the rendered string *)

Section Display.

Variables sf sf' : Q -> string.
Variables mode mode' var_name var_name' : string.

Lemma status_bind {A B : Type} (m m' : outcome A) (k k' : A -> outcome B) :
  status m = status m' ->
  (forall a a', status (k a) = status (k' a')) ->
  status (bind m k) = status (bind m' k').
Proof.
  intros Hm Hk. destruct m, m'; simpl in *; try discriminate; auto.
Qed.

Lemma mapM_status (f g : expr -> outcome string) (l : list expr) :
  Forall (fun e => status (f e) = status (g e)) l ->
  status (mapM f l) = status (mapM g l).
Proof.
  induction 1 as [|e l He _ IH]; [reflexivity|]. simpl.
  apply status_bind; [exact He|]. intros a a'.
  apply status_bind; [exact IH|]. reflexivity.
Qed.

Lemma join_terms_status (f g : expr -> outcome string) (l : list expr)
    (acc acc' : string) :
  Forall (fun e => status (f e) = status (g e)) l ->
  status (join_terms f l acc) = status (join_terms g l acc').
Proof.
  intros H. revert acc acc'. induction H as [|e l He _ IH]; intros acc acc';
    [reflexivity|]. simpl.
  apply status_bind; [exact He|]. intros a a'. apply IH.
Qed.

(** Whether the pretty-printer returns, and what it raises, is the same for
    all modes, variable names and float formatters. *)
Lemma to_string_status (e : expr) :
  status (to_string sf e mode var_name) = status (to_string sf' e mode' var_name').
Proof.
  induction e as [q|s|b n IH|c i IH|fs IH|ts IH|name a IH|r|] using expr_nested_ind;
    simpl; try reflexivity.
  - apply status_bind; [exact IH|]. intros bs bs'.
    destruct (type_of b); reflexivity.
  - apply status_bind; [exact IH|]. intros bs bs'.
    destruct (type_of i); simpl; [|reflexivity].
    destruct (Qeq_bool c (-1)); reflexivity.
  - apply status_bind; [|reflexivity]. apply mapM_status, IH.
  - destruct ts as [|t ts]; [reflexivity|].
    inversion IH as [|? ? Ht IH']; subst.
    apply status_bind; [exact Ht|]. intros a a'. apply join_terms_status, IH'.
Qed.

Lemma forget_Success (d d' : outcome response) (o : out) :
  forget_rendered d = forget_rendered d' -> d = Ret (Success o) ->
  exists o', d' = Ret (Success o') /\ result o' = result o
             /\ steps o' = steps o /\ constant o' = constant o.
Proof.
  intros H ->. destruct d' as [[o'|r]|x]; simpl in H; try discriminate.
  injection H as H1 H2 H3. eauto.
Qed.

Lemma forget_other (d d' : outcome response) :
  forget_rendered d = forget_rendered d' ->
  (forall o, d <> Ret (Success o)) -> d' = d.
Proof.
  intros H Hd. destruct d as [[o|r]|x]; [destruct (Hd o eq_refl)| |];
    destruct d' as [[o'|r']|x']; simpl in H; congruence.
Qed.

Lemma differentiate_return_forget (d d' : outcome response) :
  forget_rendered d = forget_rendered d' ->
  forget_rendered (differentiate_return sf d mode var_name)
  = forget_rendered (differentiate_return sf' d' mode' var_name').
Proof.
  intros H. destruct d as [[o|r]|x].
  - destruct (forget_Success _ _ o H eq_refl) as (o' & -> & Hr & Hs & Hc).
    unfold differentiate_return. cbn [bind]. rewrite Hr, Hs, Hc.
    destruct (normalize (result o)) as [res|y]; [|reflexivity]. cbn [bind].
    pose proof (to_string_status res) as Hst.
    destruct (to_string sf res mode var_name),
             (to_string sf' res mode' var_name'); simpl in Hst;
      try discriminate; [reflexivity | now injection Hst as ->].
  - rewrite (forget_other _ _ H) by discriminate. reflexivity.
  - rewrite (forget_other _ _ H) by discriminate. reflexivity.
Qed.

Lemma integrate_return_forget (d d' : outcome response) :
  forget_rendered d = forget_rendered d' ->
  forget_rendered (integrate_return sf d mode var_name)
  = forget_rendered (integrate_return sf' d' mode' var_name').
Proof.
  intros H. destruct d as [[o|r]|x].
  - destruct (forget_Success _ _ o H eq_refl) as (o' & -> & Hr & Hs & Hc).
    unfold integrate_return. cbn [bind]. rewrite Hr, Hs, Hc.
    destruct (normalize (result o)) as [res|y]; [|reflexivity]. cbn [bind].
    pose proof (to_string_status res) as Hst.
    destruct (to_string sf res mode var_name),
             (to_string sf' res mode' var_name'); simpl in Hst;
      try discriminate; [reflexivity | now injection Hst as ->].
  - rewrite (forget_other _ _ H) by discriminate. reflexivity.
  - rewrite (forget_other _ _ H) by discriminate. reflexivity.
Qed.

Lemma forget_cases (d d' : outcome response) :
  forget_rendered d = forget_rendered d' ->
  (exists o o', d = Ret (Success o) /\ d' = Ret (Success o')
                /\ result o' = result o /\ steps o' = steps o)
  \/ (d' = d /\ forall o, d <> Ret (Success o)).
Proof.
  intros H. destruct d as [[o|r]|x].
  - destruct (forget_Success _ _ o H eq_refl) as (o' & -> & Hr & Hs & Hc).
    left. eauto 8.
  - right. split; [apply (forget_other _ _ H)|]; discriminate.
  - right. split; [apply (forget_other _ _ H)|]; discriminate.
Qed.

Lemma differentiate_sum_loop_forget
    (f f' : expr -> string -> string -> outcome response) (l : list expr) :
  Forall (fun t => forget_rendered (f t mode var_name)
                   = forget_rendered (f' t mode' var_name')) l ->
  forall acc acc',
    differentiate_sum_loop f mode var_name l acc acc'
    = differentiate_sum_loop f' mode' var_name' l acc acc'.
Proof.
  induction 1 as [|t l Ht _ IH]; intros acc acc'; [reflexivity|]. simpl.
  destruct (forget_cases _ _ Ht) as [(o & o' & -> & -> & Hr & Hs)|(-> & Hd)].
  - cbn [bind]. rewrite Hr, Hs. apply IH.
  - destruct (f t mode var_name) as [[o|r]|x]; [destruct (Hd o eq_refl)| |];
      reflexivity.
Qed.

Lemma integrate_sum_loop_forget
    (f f' : expr -> string -> string -> outcome response) (l : list expr) :
  Forall (fun t => forget_rendered (f t mode var_name)
                   = forget_rendered (f' t mode' var_name')) l ->
  forall acc acc',
    integrate_sum_loop f mode var_name l acc acc'
    = integrate_sum_loop f' mode' var_name' l acc acc'.
Proof.
  induction 1 as [|t l Ht _ IH]; intros acc acc'; [reflexivity|]. simpl.
  destruct (forget_cases _ _ Ht) as [(o & o' & -> & -> & Hr & Hs)|(-> & Hd)].
  - cbn [bind]. rewrite Hr, Hs. apply IH.
  - destruct (f t mode var_name) as [[o|r]|x]; [destruct (Hd o eq_refl)| |];
      reflexivity.
Qed.

Lemma differentiate_forget (e : expr) :
  forget_rendered (differentiate sf e mode var_name)
  = forget_rendered (differentiate sf' e mode' var_name').
Proof.
  induction e as [q|s|b n IH|c i IH|fs IH|ts IH|name a IH|r|] using expr_nested_ind.
  - apply (differentiate_return_forget _ _ eq_refl).
  - apply (differentiate_return_forget _ _ eq_refl).
  - rewrite !differentiate_Power_eq. apply (differentiate_return_forget _ _ eq_refl).
  - rewrite !differentiate_Mul_eq. apply differentiate_return_forget. f_equal.
    unfold differentiate_mul.
    destruct (forget_cases _ _ IH) as [(o & o' & -> & -> & Hr & Hs)|(-> & Hd)].
    + cbn [bind]. now rewrite Hr, Hs.
    + reflexivity.
  - reflexivity.
  - rewrite !differentiate_Sum_eq. apply differentiate_return_forget. f_equal.
    unfold differentiate_sum. apply differentiate_sum_loop_forget, IH.
  - apply (differentiate_return_forget _ _ eq_refl).
  - reflexivity.
  - reflexivity.
Qed.

Lemma integrate_forget (e : expr) :
  forget_rendered (integrate sf e mode var_name)
  = forget_rendered (integrate sf' e mode' var_name').
Proof.
  induction e as [q|s|b n IH|c i IH|fs IH|ts IH|name a IH|r|] using expr_nested_ind.
  - apply (integrate_return_forget _ _ eq_refl).
  - apply (integrate_return_forget _ _ eq_refl).
  - rewrite !integrate_Power_eq. apply (integrate_return_forget _ _ eq_refl).
  - rewrite !integrate_Mul_eq. apply integrate_return_forget. f_equal.
    unfold integrate_mul. destruct (Qeq_bool c 0); [reflexivity|].
    destruct (forget_cases _ _ IH) as [(o & o' & -> & -> & Hr & Hs)|(-> & Hd)].
    + cbn [bind]. now rewrite Hr, Hs.
    + reflexivity.
  - reflexivity.
  - rewrite !integrate_Sum_eq. apply integrate_return_forget. f_equal.
    unfold integrate_sum. apply integrate_sum_loop_forget, IH.
  - apply (integrate_return_forget _ _ eq_refl).
  - reflexivity.
  - reflexivity.
Qed.

End Display.

(** X12. The display mode, the variable name and the float formatting only
    reach the rendered string: two calls of [differentiate], or of
    [integrate], on the same input that both return, return the same
    dictionary once the ["string"] key is dropped (a success with the same
    result, trace and flag, or the same failure), whatever the options.
    (Whether a call returns can depend on the mode, through the printing of
    a number, which is outside the model.) *)
Theorem display_options_only_render sf sf' (mode mode' var_name var_name' : string)
    (e : expr) (r r' : response) :
  (differentiate sf e mode var_name = Ret r ->
   differentiate sf' e mode' var_name' = Ret r' ->
   forget_rendered (Ret r) = forget_rendered (Ret r'))
  /\ (integrate sf e mode var_name = Ret r ->
      integrate sf' e mode' var_name' = Ret r' ->
      forget_rendered (Ret r) = forget_rendered (Ret r')).
Proof.
  split; intros H H'; rewrite <- H, <- H';
    [apply differentiate_forget | apply integrate_forget].
Qed.

Lemma display_options_only_render_witness :
  let e := Sum [Mul (3 # 2) (Power (Var "t") 2); Func "sin" (Var "t")] in
  let o := {| result := Sum [Mul 3 (Var "t"); Func "cos" (Var "t")];
              steps := [Line "Using Linearity of Differentiation:";
                        Nested [Line "Extracted the constant 3/2:";
                                Line "d/dx(x^2) = 2x^(1)"];
                        Nested [Line "d/dx(sin(t)) = cos(t)"]];
              constant := None;
              rendered := Some "3t + cos(t)"%string |} in
  let o' := {| result := result o; steps := steps o; constant := None;
               rendered := Some "3x + cos(x)"%string |} in
  differentiate (fun _ => "1.5"%string) e "decimal" "t" = Ret (Success o)
  /\ differentiate (fun _ => EmptyString) e "fraction" "x" = Ret (Success o')
  /\ forget_rendered (Ret (Success o)) = forget_rendered (Ret (Success o')).
Proof.
  cbv zeta. split; [reflexivity|]. split; [reflexivity|].
  apply (proj1 (display_options_only_render
                  (fun _ => "1.5"%string) (fun _ => EmptyString)
                  "decimal" "fraction" "t" "x"
                  (Sum [Mul (3 # 2) (Power (Var "t") 2); Func "sin" (Var "t")])
                  _ _));
    reflexivity.
Defined.

(** ** Nested sums *)

Lemma sum_collect_prefix (vs acc' acc : list expr) :
  sum_collect vs (acc' ++ acc)
  = (nt <- sum_collect vs acc ;; Ret (acc' ++ nt)).
Proof.
  revert acc. induction vs as [|v vs IH]; intros acc; simpl; [reflexivity|].
  destruct v; try reflexivity; try (rewrite <- app_assoc; apply IH).
  destruct (Qeq_bool value 0); [apply IH | rewrite <- app_assoc; apply IH].
Qed.

Lemma sum_collect_app (a b acc : list expr) :
  sum_collect (a ++ b) acc = (m <- sum_collect a acc ;; sum_collect b m).
Proof.
  revert acc. induction a as [|v a IH]; intros acc; simpl; [reflexivity|].
  destruct v; try reflexivity; try apply IH.
  destruct (Qeq_bool value 0); apply IH.
Qed.

(** The node [normalize_sum] builds from the collected terms, collected
    again, gives these terms back. *)
Lemma sum_collect_rebuilt (nt acc : list expr) :
  forallb sum_term_ok nt = true ->
  sum_collect [match nt with [] => Const 0 | [t] => t | _ => Sum nt end] acc
  = Ret (acc ++ nt).
Proof.
  intros Hok. destruct nt as [|t [|t' nt]].
  - simpl. now rewrite app_nil_r.
  - now apply sum_collect_fixed.
  - reflexivity.
Qed.

Lemma mapM_normalize_normal (ts : list expr) :
  match mapM normalize ts with
  | Ret vs => Forall normal vs
  | Raise x => forallb tree ts = true -> x = KeyError "type"
  end.
Proof.
  apply mapM_normalize_ok. apply Forall_forall. intros e _.
  apply normalize_normal_ok.
Qed.



(** ** The assertion harness *)

Lemma and_then_Passed (a b : Invariants.verdict) :
  Invariants.and_then a b = Invariants.Passed
  <-> a = Invariants.Passed /\ b = Invariants.Passed.
Proof.
  destruct a; simpl; (split; [intros H | intros [H1 H2]]); auto; congruence.
Qed.

Lemma each_Passed (body : expr -> Invariants.verdict) (l : list expr) :
  Invariants.each body l = Invariants.Passed
  <-> Forall (fun x => body x = Invariants.Passed) l.
Proof.
  induction l as [|x l IH]; simpl.
  - split; auto.
  - rewrite and_then_Passed, IH. split.
    + intros [H1 H2]. now constructor.
    + intros H. inversion H; subst. auto.
Qed.

Lemma each_forallb (body : expr -> Invariants.verdict) (q : expr -> bool)
    (l : list expr) :
  (forall x, body x = Invariants.Passed -> q x = true) ->
  Invariants.each body l = Invariants.Passed -> forallb q l = true.
Proof.
  intros Hq H. apply each_Passed in H. apply forallb_Forall.
  eapply Forall_impl; [|exact H]. exact Hq.
Qed.

Lemma forallb_each (body : expr -> Invariants.verdict) (q : expr -> bool)
    (l : list expr) :
  (forall x, tree x = true -> q x = true -> body x = Invariants.Passed) ->
  forallb tree l = true -> forallb q l = true ->
  Invariants.each body l = Invariants.Passed.
Proof.
  intros Hq Ht H. apply each_Passed.
  apply forallb_Forall in Ht. apply forallb_Forall in H.
  induction l as [|x l IH]; constructor;
    inversion Ht; inversion H; subst; auto.
Qed.

(** A walk of the harness passes exactly when the boolean walk accepts,
    for a check and a predicate that agree on the nodes of a tree. *)
Lemma walk_Passed (fn : expr -> Invariants.verdict) (p : expr -> bool) :
  (forall n, fn n = Invariants.Passed -> p n = true) ->
  (forall n, tree n = true -> p n = true -> fn n = Invariants.Passed) ->
  forall e, Invariants.walk fn e = Invariants.Passed <-> walk p e = true.
Proof.
  intros H1 H2.
  assert (Hlist : forall l,
             Forall (fun e => Invariants.walk fn e = Invariants.Passed
                              <-> walk p e = true) l ->
             Invariants.each (Invariants.walk fn) l = Invariants.Passed
             <-> forallb (walk p) l = true).
  { intros l Hl. rewrite each_Passed, forallb_Forall.
    induction Hl as [|x l Hx _ IH]; split; intros H; try constructor;
      inversion H; subst; try (now apply Hx); now apply IH. }
  induction e as [v|s|b n IH|c i IH|fs IH|ts IH|name a IH|r|] using expr_nested_ind;
    cbn [Invariants.walk walk]; rewrite and_then_Passed.
  - split; [intros [H _]; auto | intros H; split; auto].
  - split; [intros [H _]; auto | intros H; split; auto].
  - rewrite IH. split.
    + intros [Hf Hb]. now rewrite (H1 _ Hf), Hb.
    + intros H. apply andb_prop in H as [Hp Hb]. split; [|assumption].
      apply H2; [|assumption]. unfold tree. simpl. now apply walk_tree in Hb.
  - rewrite IH. split.
    + intros [Hf Hb]. now rewrite (H1 _ Hf), Hb.
    + intros H. apply andb_prop in H as [Hp Hb]. split; [|assumption].
      apply H2; [|assumption]. unfold tree. simpl. now apply walk_tree in Hb.
  - rewrite (Hlist fs IH). split.
    + intros [Hf Hb]. now rewrite (H1 _ Hf), Hb.
    + intros H. apply andb_prop in H as [Hp Hb]. split; [|assumption].
      apply H2; [|assumption]. unfold tree. simpl.
      eapply forallb_impl; [|exact Hb]. intros a. apply walk_tree.
  - rewrite (Hlist ts IH). split.
    + intros [Hf Hb]. now rewrite (H1 _ Hf), Hb.
    + intros H. apply andb_prop in H as [Hp Hb]. split; [|assumption].
      apply H2; [|assumption]. unfold tree. simpl.
      eapply forallb_impl; [|exact Hb]. intros a. apply walk_tree.
  - rewrite IH. split.
    + intros [Hf Hb]. now rewrite (H1 _ Hf), Hb.
    + intros H. apply andb_prop in H as [Hp Hb]. split; [|assumption].
      apply H2; [|assumption]. unfold tree. simpl. now apply walk_tree in Hb.
  - split; [intros [_ H] | intros H]; discriminate.
  - split; [intros [_ H] | intros H]; discriminate.
Qed.

Lemma leb_length (l : list expr) :
  (2 <=? List.length l)%nat = (2 <=? Z.of_nat (List.length l)).
Proof.
  destruct (Nat.leb_spec 2 (List.length l)), (Z.leb_spec 2 (Z.of_nat (List.length l)));
    try reflexivity; lia.
Qed.

Section HarnessFacts.

Variable repr : expr -> string.

Local Abbreviation Passed := Invariants.Passed.

Ltac split_walk :=
  apply walk_Passed;
  [ intros n Hn; destruct n; cbn -[Nat.leb Z.leb] in Hn |- *;
    try discriminate; try reflexivity
  | intros n Ht Hn; unfold tree in Ht;
    destruct n; cbn -[Nat.leb Z.leb] in Ht, Hn |- *;
    try discriminate; try reflexivity ].

Lemma assert_no_nested_mul_iff (e : expr) :
  Invariants.assert_no_nested_mul e = Passed
  <-> walk (fun n => match n with Mul _ (Mul _ _) => false | _ => true end) e = true.
Proof.
  unfold Invariants.assert_no_nested_mul. split_walk.
  - destruct n; simpl in Hn; try discriminate; reflexivity.
  - destruct n; simpl in Ht, Hn |- *; try discriminate; reflexivity.
Qed.

Lemma assert_mul_expr_not_const_iff (e : expr) :
  Invariants.assert_mul_expr_not_const e = Passed
  <-> walk (fun n => match n with Mul _ (Const _) => false | _ => true end) e = true.
Proof.
  unfold Invariants.assert_mul_expr_not_const. split_walk.
  - destruct n; simpl in Hn; try discriminate; reflexivity.
  - destruct n; simpl in Ht, Hn |- *; try discriminate; reflexivity.
Qed.

Lemma assert_normalized_power_iff (e : expr) :
  Invariants.assert_normalized_power e = Passed <-> walk check_power_exp e = true.
Proof.
  unfold Invariants.assert_normalized_power. split_walk.
  - destruct (2 <=? exp); [reflexivity | discriminate].
  - now rewrite Hn.
Qed.

Lemma assert_valid_sum_iff (e : expr) :
  Invariants.assert_valid_sum e = Passed <-> walk check_sum_length e = true.
Proof.
  unfold Invariants.assert_valid_sum. split_walk.
  - rewrite leb_length in Hn.
    destruct (2 <=? Z.of_nat (List.length terms)); [reflexivity | discriminate].
  - rewrite leb_length. now rewrite Hn.
Qed.

Lemma assert_valid_prod_iff (e : expr) :
  Invariants.assert_valid_prod e = Passed
  <-> walk (fun n => match n with
                     | Prod factors => 2 <=? Z.of_nat (List.length factors)
                     | _ => true
                     end) e = true.
Proof.
  unfold Invariants.assert_valid_prod. split_walk.
  - rewrite leb_length in Hn.
    destruct (2 <=? Z.of_nat (List.length factors)); [reflexivity | discriminate].
  - rewrite leb_length. now rewrite Hn.
Qed.

Lemma assert_prod_atomic_iff (e : expr) :
  Invariants.assert_prod_atomic repr e = Passed
  <-> walk (fun n => match n with
                     | Prod factors => forallb is_atomic factors
                     | _ => true
                     end) e = true.
Proof.
  unfold Invariants.assert_prod_atomic. split_walk.
  - eapply each_forallb; [|exact Hn].
    intros f Hf. destruct f; simpl in Hf; try discriminate; reflexivity.
  - eapply forallb_each; [|exact Ht|exact Hn].
    intros f _ Hf. destruct f; simpl in Hf; try discriminate; reflexivity.
Qed.

Lemma assert_no_nested_prod_iff (e : expr) :
  Invariants.assert_no_nested_prod e = Passed
  <-> walk (fun n => match n with
                     | Prod factors =>
                         forallb (fun f => match f with Prod _ => false | _ => true end)
                                 factors
                     | _ => true
                     end) e = true.
Proof.
  unfold Invariants.assert_no_nested_prod. split_walk.
  - eapply each_forallb; [|exact Hn].
    intros f Hf. destruct f; simpl in Hf; try discriminate; reflexivity.
  - eapply forallb_each; [|exact Ht|exact Hn].
    intros f Hf Hq. unfold tree in Hf.
    destruct f; simpl in Hf, Hq; try discriminate; reflexivity.
Qed.

Lemma assert_prod_power_base_iff (e : expr) :
  Invariants.assert_prod_power_base repr e = Passed
  <-> walk check_prod_power_base e = true.
Proof.
  unfold Invariants.assert_prod_power_base. split_walk.
  - eapply each_forallb; [|exact Hn].
    intros f Hf. destruct f; simpl in Hf; try discriminate; try reflexivity.
    destruct f; simpl in Hf; try discriminate; reflexivity.
  - eapply forallb_each; [|exact Ht|exact Hn].
    intros f Hf Hq. unfold tree in Hf.
    destruct f; simpl in Hf, Hq; try discriminate; try reflexivity.
    destruct f; simpl in Hf, Hq; try discriminate; reflexivity.
Qed.

Lemma assert_valid_func_name_iff (e : expr) :
  Invariants.assert_valid_func_name e = Passed <-> walk check_func_name e = true.
Proof.
  unfold Invariants.assert_valid_func_name. split_walk.
  - unfold allowed_func.
    destruct (String.eqb name "sin" || String.eqb name "cos" || String.eqb name "exp");
      [reflexivity | discriminate].
  - unfold allowed_func in Hn. now rewrite Hn.
Qed.

Lemma assert_func_arg_is_var_iff (e : expr) :
  Invariants.assert_func_arg_is_var e = Passed <-> walk check_func_arg e = true.
Proof.
  unfold Invariants.assert_func_arg_is_var. split_walk.
  - destruct n; simpl in Hn; try discriminate; reflexivity.
  - destruct n; simpl in Ht, Hn |- *; try discriminate; reflexivity.
Qed.

End HarnessFacts.

Lemma walk_impl (p q : expr -> bool) (e : expr) :
  (forall n, p n = true -> q n = true) -> walk p e = true -> walk q e = true.
Proof.
  intros Hpq.
  induction e as [v|s|b n IH|c i IH|fs IH|ts IH|name a IH|r|] using expr_nested_ind;
    simpl; auto; intros H; apply andb_prop in H as [Hp H];
    apply andb_true_intro; split; auto.
  - apply forallb_Forall. apply forallb_Forall in H. clear Hp.
    induction IH; inversion H; subst; constructor; auto.
  - apply forallb_Forall. apply forallb_Forall in H. clear Hp.
    induction IH; inversion H; subst; constructor; auto.
Qed.

Lemma walk_and_iff (p q r : expr -> bool) (e : expr) :
  (forall n, p n = q n && r n) ->
  walk p e = true <-> walk q e = true /\ walk r e = true.
Proof.
  intros H. split.
  - intros Hp. split; (eapply walk_impl; [|exact Hp]); intros n Hn;
      rewrite H in Hn; apply andb_prop in Hn; tauto.
  - intros [Hq Hr].
    assert (Hqr : walk (fun n => q n && r n) e = true)
      by (rewrite walk_andb; now rewrite Hq, Hr).
    eapply walk_impl; [|exact Hqr]. intros n Hn. now rewrite H.
Qed.

Lemma harness_invariants_iff repr (e : expr) :
  Invariants.assert_all_invariants repr e = Invariants.Passed
  <-> harness_invariants e = true.
Proof.
  unfold Invariants.assert_all_invariants, harness_invariants.
  rewrite !and_then_Passed.
  rewrite assert_no_nested_mul_iff, assert_mul_expr_not_const_iff,
    assert_normalized_power_iff, assert_valid_sum_iff, assert_valid_prod_iff,
    assert_no_nested_prod_iff, assert_prod_atomic_iff, assert_prod_power_base_iff,
    assert_valid_func_name_iff, assert_func_arg_is_var_iff.
  rewrite !andb_true_iff.
  rewrite (walk_and_iff check_mul_inner
             (fun n => match n with Mul _ (Mul _ _) => false | _ => true end)
             (fun n => match n with Mul _ (Const _) => false | _ => true end))
    by (intros [ | | | ? [] | | | | | ]; reflexivity).
  rewrite (walk_and_iff check_prod_factors
             (fun n => match n with
                       | Prod factors => 2 <=? Z.of_nat (List.length factors)
                       | _ => true
                       end)
             (fun n => match n with
                       | Prod factors => forallb is_atomic factors
                       | _ => true
                       end))
    by (intros []; reflexivity).
  split.
  - tauto.
  - intros H.
    assert (Hnest :
              walk (fun n => match n with
                             | Prod factors => forallb is_atomic factors
                             | _ => true
                             end) e = true ->
              walk (fun n => match n with
                             | Prod factors =>
                                 forallb (fun f => match f with
                                                   | Prod _ => false
                                                   | _ => true
                                                   end) factors
                             | _ => true
                             end) e = true).
    { apply walk_impl. intros n Hn. destruct n; try reflexivity.
      eapply forallb_impl; [|exact Hn].
      intros f Hf. destruct f; simpl in Hf; congruence. }
    tauto.
Qed.

Lemma to_string_sum_length sf (mode var_name : string) (e : expr) :
  walk check_sum_length e = true -> exists s, to_string sf e mode var_name = Ret s.
Proof.
  assert (Hlist : forall l,
             Forall (fun e => walk check_sum_length e = true ->
                              exists s, to_string sf e mode var_name = Ret s) l ->
             forallb (walk check_sum_length) l = true ->
             Forall (fun t => exists r, to_string sf t mode var_name = Ret r) l).
  { induction 1 as [|a l Ha _ IH]; intros H; constructor;
      simpl in H; apply andb_prop in H as [H1 H2]; auto. }
  induction e as [q|x|b n IH|c i IH|fs IH|ts IH|name a IH|r|] using expr_nested_ind;
    intros H; simpl in H; try discriminate; simpl.
  - eauto.
  - eauto.
  - destruct (IH H) as (s & ->). simpl.
    destruct b; simpl in H; try discriminate; simpl; eauto.
  - destruct (IH H) as (s & ->). simpl.
    destruct i; simpl in H; try discriminate; simpl;
      destruct (Qeq_bool c (-1)); eauto.
  - destruct (mapM_total (fun f => to_string sf f mode var_name) fs) as (parts & ->).
    + now apply Hlist.
    + simpl. eauto.
  - apply andb_prop in H as [Hlen H].
    pose proof (Hlist ts IH H) as Hr.
    destruct ts as [|t ts]; [discriminate|].
    inversion Hr as [|? ? (r & Hrt) Hr']; subst. rewrite Hrt. simpl.
    apply join_terms_total, Hr'.
  - eauto.
Qed.

Lemma all_invariants_harness (e : expr) :
  all_invariants e = true -> harness_invariants e = true.
Proof.
  unfold all_invariants, harness_invariants. rewrite !andb_true_iff.
  intros H.
  assert (Hs : walk check_sum e = true -> walk check_sum_length e = true).
  { apply walk_impl. intros n Hn. destruct n; try reflexivity.
    unfold check_sum in Hn. apply andb_prop in Hn. apply Hn. }
  tauto.
Qed.

(** X15. [assert_all_invariants] passes exactly on the trees in which no Mul
    wraps a Const or a Mul, every Power has an exponent of at least 2, every
    Sum has at least 2 terms, every Prod has at least 2 factors, all of them
    Var, Power or Func, with a Var under every Power factor, and every Func
    has an allowed name and a Var as argument. The order of the factors of
    a Prod and the kinds of the terms of a Sum are not looked at. *)
Theorem harness_passes_iff repr (e : expr) :
  Invariants.assert_all_invariants repr e = Invariants.Passed
  <-> harness_invariants e = true.
Proof.
  apply harness_invariants_iff.
Qed.

(** The harness accepts a tree that breaks invariant 3 (a Sum term that is a
    Sum, a zero Const term) and invariant 5 (a Func factor before a Var). *)
Example harness_misses_order_and_terms repr :
  let e := Sum [Sum [Var "x"; Const 0];
                Prod [Func "sin" (Var "x"); Var "x"]] in
  Invariants.assert_all_invariants repr e = Invariants.Passed
  /\ walk check_sum e = false /\ walk check_prod_order e = false.
Proof.
  repeat split.
Qed.

(** X16. A tree that satisfies the eight invariants and whose numbers can
    be printed (at most 4300 digits each) passes the whole harness: every
    assertion of [assert_all_invariants] holds and the pretty-printer
    renders it, so [assert_valid_and_renderable] returns normally. *)
Theorem invariants_pass_harness repr str_exn sf (e : expr) :
  all_invariants e = true -> printable e = true ->
  Invariants.assert_valid_and_renderable repr str_exn sf e = Invariants.Passed.
Proof.
  intros H _. apply all_invariants_harness in H.
  unfold Invariants.assert_valid_and_renderable. apply and_then_Passed. split.
  - now apply harness_invariants_iff.
  - unfold Invariants.assert_printable.
    unfold harness_invariants in H. rewrite !andb_true_iff in H.
    destruct (to_string_sum_length sf "fraction" "x" e) as (s & ->); tauto.
Qed.

Lemma invariants_pass_harness_witness :
  let e := Sum [Mul 3 (Prod [Var "x"; Power (Var "x") 2; Func "cos" (Var "x")]);
                Func "exp" (Var "x"); Const 10] in
  all_invariants e = true /\ printable e = true
  /\ Invariants.assert_valid_and_renderable
       (fun _ => EmptyString) (fun _ => EmptyString) (fun _ => EmptyString) e
     = Invariants.Passed.
Proof.
  split; [reflexivity|]. split; [reflexivity|].
  apply (invariants_pass_harness
           (fun _ => EmptyString) (fun _ => EmptyString) (fun _ => EmptyString));
    reflexivity.
Defined.

(** *** The harness on a tree *)

Lemma and_then_no_crash (a b : Invariants.verdict) :
  (forall x, a <> Invariants.Crashed x) -> (forall x, b <> Invariants.Crashed x) ->
  forall x, Invariants.and_then a b <> Invariants.Crashed x.
Proof.
  intros Ha Hb x. destruct a; simpl; auto.
Qed.

Lemma each_no_crash (body : expr -> Invariants.verdict) (l : list expr) :
  (forall f, tree f = true -> forall x, body f <> Invariants.Crashed x) ->
  forallb tree l = true ->
  forall x, Invariants.each body l <> Invariants.Crashed x.
Proof.
  intros Hb. induction l as [|a l IH]; intros Ht; simpl; [discriminate|].
  simpl in Ht. apply andb_prop in Ht as [Hta Htl].
  apply and_then_no_crash; auto.
Qed.

(** On a tree a walk never stops at an exception, if the check never does
    on the nodes of a tree. *)
Lemma walk_no_crash (fn : expr -> Invariants.verdict) :
  (forall n, tree n = true -> forall x, fn n <> Invariants.Crashed x) ->
  forall e, tree e = true -> forall x, Invariants.walk fn e <> Invariants.Crashed x.
Proof.
  intros Hfn.
  assert (Hlist : forall l,
             Forall (fun e => tree e = true ->
                              forall x, Invariants.walk fn e <> Invariants.Crashed x) l ->
             forallb tree l = true ->
             forall x, Invariants.each (Invariants.walk fn) l <> Invariants.Crashed x).
  { induction 1 as [|a l Ha _ IH]; intros Ht; simpl; [discriminate|].
    simpl in Ht. apply andb_prop in Ht as [Hta Htl].
    apply and_then_no_crash; auto. }
  induction e as [v|s|b n IH|c i IH|fs IH|ts IH|name a IH|r|] using expr_nested_ind;
    intros Ht; pose proof Ht as Ht'; unfold tree in Ht; simpl in Ht;
    try discriminate; cbn [Invariants.walk];
    (apply and_then_no_crash; [now apply Hfn|]).
  - discriminate.
  - discriminate.
  - now apply IH.
  - now apply IH.
  - now apply Hlist.
  - now apply Hlist.
  - now apply IH.
Qed.

Ltac node_cases n Ht :=
  unfold tree in Ht; destruct n; cbn -[Nat.leb Z.leb] in Ht |- *;
  try discriminate.

Lemma assert_all_invariants_no_crash repr (e : expr) :
  tree e = true ->
  forall x, Invariants.assert_all_invariants repr e <> Invariants.Crashed x.
Proof.
  intros Ht. unfold Invariants.assert_all_invariants.
  repeat apply and_then_no_crash;
    (apply walk_no_crash; [clear e Ht | exact Ht]); intros n Ht x;
    node_cases n Ht.
  - node_cases n Ht.
  - node_cases n Ht.
  - destruct (2 <=? exp); discriminate.
  - destruct (2 <=? List.length terms)%nat; discriminate.
  - destruct (2 <=? List.length factors)%nat; discriminate.
  - apply each_no_crash; [|exact Ht]. clear. intros f Ht x. node_cases f Ht.
  - apply each_no_crash; [|exact Ht]. clear. intros f Ht x. node_cases f Ht.
  - apply each_no_crash; [|exact Ht]. clear. intros f Ht x. node_cases f Ht.
    node_cases f Ht.
  - destruct (String.eqb name "sin" || String.eqb name "cos" || String.eqb name "exp");
      discriminate.
  - node_cases n Ht.
Qed.

(** X17. On a tree whose numbers can be printed (at most 4300 digits each,
    so that the message of a failed [assert] can be built) the harness
    never stops at an exception: each run of [assert_valid_and_renderable]
    either returns normally or fails an [assert]. On a value that holds an
    error dictionary or [None] it never returns normally. *)
Theorem harness_reports_by_assertion repr str_exn sf (e : expr) :
  (tree e = true -> printable e = true ->
   forall x, Invariants.assert_valid_and_renderable repr str_exn sf e
             <> Invariants.Crashed x)
  /\ (tree e = false ->
      Invariants.assert_valid_and_renderable repr str_exn sf e
      <> Invariants.Passed).
Proof.
  split.
  - intros Ht _. unfold Invariants.assert_valid_and_renderable.
    apply and_then_no_crash; [now apply assert_all_invariants_no_crash|].
    intros x. unfold Invariants.assert_printable.
    destruct (to_string sf e "fraction" "x"); discriminate.
  - intros Ht H. unfold Invariants.assert_valid_and_renderable in H.
    apply and_then_Passed in H as [H _]. apply harness_invariants_iff in H.
    unfold harness_invariants in H. rewrite !andb_true_iff in H.
    assert (Hw : walk check_func_name e = true) by tauto.
    apply walk_tree in Hw. congruence.
Qed.

Lemma harness_reports_by_assertion_witness :
  (tree (Mul 2 (Const 3)) = true /\ printable (Mul 2 (Const 3)) = true
   /\ tree (Sum [Var "x"; ErrorObj "bad"]) = false)
  /\ (forall x, Invariants.assert_valid_and_renderable
                  (fun _ => EmptyString) (fun _ => EmptyString)
                  (fun _ => EmptyString) (Mul 2 (Const 3))
                <> Invariants.Crashed x)
  /\ Invariants.assert_valid_and_renderable
       (fun _ => EmptyString) (fun _ => EmptyString) (fun _ => EmptyString)
       (Sum [Var "x"; ErrorObj "bad"])
     <> Invariants.Passed.
Proof.
  split; [repeat split|]. split.
  - apply (harness_reports_by_assertion
             (fun _ => EmptyString) (fun _ => EmptyString) (fun _ => EmptyString)
             (Mul 2 (Const 3))); reflexivity.
  - apply (harness_reports_by_assertion
             (fun _ => EmptyString) (fun _ => EmptyString) (fun _ => EmptyString)
             (Sum [Var "x"; ErrorObj "bad"])).
    reflexivity.
Defined.

(** ** The parser *)

Section ParserFacts.

Import Parser.

Lemma and_then_Done {A B : Type} (m : run A) (k : A -> run B) (b : B) :
  and_then m k = Done b -> exists a, m = Done a /\ k a = Done b.
Proof.
  destruct m; simpl; intros H; try discriminate. eauto.
Qed.

Lemma consume_current (tokens : list token) (pos : nat) (t : token) :
  current_pos tokens pos = Some t -> consume tokens pos = Done (t, S pos).
Proof.
  unfold current_pos, consume. now intros ->.
Qed.

Lemma current_pos_length (tokens : list token) (pos : nat) (t : token) :
  current_pos tokens pos = Some t -> (pos < List.length tokens)%nat.
Proof.
  unfold current_pos. intros H. apply nth_error_Some. congruence.
Qed.

Lemma raw_ast_Mul (c : Q) (e : expr) : raw_ast (Mul c e) = raw_ast e.
Proof. reflexivity. Qed.

Lemma raw_ast_Func (name : string) (e : expr) : raw_ast (Func name e) = raw_ast e.
Proof. reflexivity. Qed.

Lemma raw_ast_Power (b : expr) (n : Z) :
  raw_ast (Power b n) = (0 <=? n) && raw_ast b.
Proof. reflexivity. Qed.

Lemma raw_ast_Prod (fs : list expr) : raw_ast (Prod fs) = forallb raw_ast fs.
Proof. reflexivity. Qed.

Lemma raw_ast_Sum (ts : list expr) : raw_ast (Sum ts) = forallb raw_ast ts.
Proof. reflexivity. Qed.

Lemma absorb_Done (node : expr) (factors factors' : list expr) (c c' : Q) :
  absorb node factors c = Done (factors', c') ->
  (exists v, node = Const v /\ factors' = factors /\ c' = qmul c v)
  \/ (factors' = factors ++ [node] /\ c' = c).
Proof.
  destruct node; simpl; intros H; try discriminate; injection H as <- <-; eauto.
Qed.

Lemma absorb_raw (node : expr) (factors factors' : list expr) (c c' : Q) :
  absorb node factors c = Done (factors', c') ->
  raw_ast node = true -> forallb raw_ast factors = true ->
  forallb raw_ast factors' = true.
Proof.
  intros H Hn Hf. apply absorb_Done in H as [(v & _ & -> & _)|[-> _]]; auto.
  rewrite forallb_app, Hf. simpl. now rewrite Hn.
Qed.

Lemma build_mul_raw (factors : list expr) (c : Q) :
  forallb raw_ast factors = true -> raw_ast (build_mul factors c) = true.
Proof.
  intros H. destruct factors as [|f [|g fs]]; cbn [build_mul].
  - reflexivity.
  - simpl in H. apply andb_prop in H as [H _].
    destruct (Qeq_bool c 1); [|rewrite raw_ast_Mul]; exact H.
  - destruct (negb (Qeq_bool c 1)); [rewrite raw_ast_Mul|]; rewrite raw_ast_Prod;
      exact H.
Qed.

Lemma build_power_Done (base exponent ast : expr) :
  build_power base exponent = Done ast ->
  exists v, exponent = Const v /\ ast = Power base (Qnum v) /\ 0 <= Qnum v.
Proof.
  destruct exponent; unfold build_power; intros H; try discriminate.
  destruct (negb (Qden value =? 1)%positive); [discriminate|].
  destruct (Z.ltb_spec (Qnum value) 0); [discriminate|].
  injection H as <-. eauto.
Qed.

Ltac run_step H :=
  let r := fresh "r" in
  let Hr := fresh "Hr" in
  apply and_then_Done in H as (r & Hr & H).

(** Every run of the six functions that returns gives raw ASTs and moves
    forward in the token list. *)
Lemma parse_advances (tokens : list token) (fuel : nat) :
  (forall pos, advances tokens pos (parse_term fuel tokens pos))
  /\ (forall pos, advances tokens pos (parse_power fuel tokens pos))
  /\ (forall pos, advances tokens pos (parse_mul fuel tokens pos))
  /\ (forall pos, advances tokens pos (parse_expr fuel tokens pos))
  /\ (forall factors c pos factors' c' pos',
        parse_mul_loop fuel tokens factors c pos = Done (factors', c', pos') ->
        forallb raw_ast factors = true -> (pos <= List.length tokens)%nat ->
        forallb raw_ast factors' = true /\ (pos <= pos' <= List.length tokens)%nat)
  /\ (forall terms pos terms' pos',
        parse_expr_loop fuel tokens terms pos = Done (terms', pos') ->
        forallb raw_ast terms = true -> (pos <= List.length tokens)%nat ->
        forallb raw_ast terms' = true /\ (pos <= pos' <= List.length tokens)%nat).
Proof.
  induction fuel as [|fuel (IHt & IHp & IHm & IHe & IHml & IHel)].
  - repeat split; try (intros pos ast pos' H; discriminate);
      intros; discriminate.
  - split; [|split; [|split; [|split; [|split]]]].
    + (* parse_term *)
      intros pos ast pos' H. cbn [parse_term] in H.
      destruct (current_pos tokens pos) as [t|] eqn:Hc; [|discriminate].
      pose proof (current_pos_length _ _ _ Hc) as Hlen.
      rewrite (consume_current _ _ _ Hc) in H. cbn [and_then] in H.
      destruct t as [n|name|name|[]| |]; try discriminate.
      * injection H as <- <-. split; [reflexivity | lia].
      * injection H as <- <-. split; [reflexivity | lia].
      * destruct (current_pos tokens (S pos)) as [[]|] eqn:Hlp; try discriminate.
        rewrite (consume_current _ _ _ Hlp) in H. cbn [and_then] in H.
        run_step H. destruct r as [arg p].
        destruct (IHe _ _ _ Hr) as [Hraw Hp].
        destruct (current_pos tokens p) as [[]|] eqn:Hrp; try discriminate.
        rewrite (consume_current _ _ _ Hrp) in H. cbn [and_then] in H.
        injection H as <- <-. apply current_pos_length in Hrp.
        rewrite raw_ast_Func. split; [assumption | lia].
      * run_step H. destruct r as [next p].
        destruct (IHt _ _ _ Hr) as [Hraw Hp].
        injection H as <- <-. rewrite raw_ast_Mul. split; [assumption | lia].
      * run_step H. destruct r as [inner p].
        destruct (IHe _ _ _ Hr) as [Hraw Hp].
        destruct (current_pos tokens p) as [[]|] eqn:Hrp; try discriminate.
        rewrite (consume_current _ _ _ Hrp) in H. cbn [and_then] in H.
        injection H as <- <-. apply current_pos_length in Hrp.
        split; [assumption | lia].
    + (* parse_power *)
      intros pos ast pos' H. cbn [parse_power] in H.
      run_step H. destruct r as [base p].
      destruct (IHt _ _ _ Hr) as [Hraw Hp].
      destruct (current_pos tokens p) as [t|] eqn:Hc.
      2:{ injection H as <- <-. auto. }
      destruct t as [n|name|name|[]| |];
        try (injection H as <- <-; now auto).
      rewrite (consume_current _ _ _ Hc) in H. cbn [and_then] in H.
      run_step H. destruct r as [exponent p'].
      destruct (IHp _ _ _ Hr0) as [Hraw' Hp'].
      run_step H. injection H as <- <-.
      apply build_power_Done in Hr1 as (v & -> & -> & Hv).
      rewrite raw_ast_Power, Hraw. split; [|lia].
      destruct (Z.leb_spec 0 (Qnum v)); [reflexivity | lia].
    + (* parse_mul *)
      intros pos ast pos' H. cbn [parse_mul] in H.
      run_step H. destruct r as [node p].
      destruct (IHp _ _ _ Hr) as [Hraw Hp].
      run_step H. destruct r as [factors c].
      run_step H. destruct r as [[factors' c'] p'].
      injection H as <- <-.
      pose proof (absorb_raw _ _ _ _ _ Hr0 Hraw eq_refl) as Hf.
      destruct (IHml _ _ _ _ _ _ Hr1 Hf) as [Hf' Hp']; [lia|].
      split; [now apply build_mul_raw | lia].
    + (* parse_expr *)
      intros pos ast pos' H. cbn [parse_expr] in H.
      run_step H. destruct r as [leftnode p].
      destruct (IHm _ _ _ Hr) as [Hraw Hp].
      run_step H. destruct r as [terms p'].
      assert (Hl : forallb raw_ast [leftnode] = true) by (simpl; now rewrite Hraw).
      destruct (IHel _ _ _ _ Hr0 Hl) as [Ht Hp']; [lia|].
      destruct terms as [|t [|t' terms]]; injection H as <- <-.
      * split; [reflexivity | lia].
      * simpl in Ht. apply andb_prop in Ht as [Ht _]. split; [assumption | lia].
      * rewrite raw_ast_Sum. split; [assumption | lia].
    + (* parse_mul_loop *)
      intros factors c pos factors' c' pos' H Hf Hlen. cbn [parse_mul_loop] in H.
      cbv zeta in H.
      destruct (current_pos tokens pos) as [t|] eqn:Hc.
      2:{ simpl in H. injection H as <- <- <-. split; [assumption | lia]. }
      pose proof (current_pos_length _ _ _ Hc) as Hlt.
      destruct t as [n|name|name|[]| |]; cbn [can_start_term negb andb] in H;
        try (injection H as <- <- <-; split; [assumption | lia]);
        try rewrite (consume_current _ _ _ Hc) in H; cbn [and_then snd] in H;
        run_step H; destruct r as [node p];
        destruct (IHp _ _ _ Hr) as [Hraw Hp];
        run_step H; destruct r as [factors1 c1];
        pose proof (absorb_raw _ _ _ _ _ Hr0 Hraw Hf) as Hf1;
        (destruct (IHml _ _ _ _ _ _ H Hf1) as [Hf' Hp']; [lia|]);
        (split; [assumption | lia]).
    + (* parse_expr_loop *)
      intros terms pos terms' pos' H Ht Hlen. cbn [parse_expr_loop] in H.
      destruct (current_pos tokens pos) as [t|] eqn:Hc.
      2:{ injection H as <- <-. split; [assumption | lia]. }
      pose proof (current_pos_length _ _ _ Hc) as Hlt.
      destruct t as [n|name|name|[]| |];
        try (injection H as <- <-; split; [assumption | lia]);
        rewrite (consume_current _ _ _ Hc) in H; cbn [and_then] in H;
        run_step H; destruct r as [rightnode p];
        destruct (IHm _ _ _ Hr) as [Hraw Hp];
        (eapply IHel in H; [| |lia]);
        [ destruct H; split; [assumption | lia]
        | rewrite forallb_app, Ht; simpl; try rewrite raw_ast_Mul; now rewrite Hraw
        | destruct H; split; [assumption | lia]
        | rewrite forallb_app, Ht; simpl; try rewrite raw_ast_Mul; now rewrite Hraw ].
Qed.

End ParserFacts.

Section ParserFuel.

Import Parser.

Lemma and_then_fuel {A B : Type} (m : run A) (k : A -> run B) :
  m <> OutOfFuel -> (forall a, m = Done a -> k a <> OutOfFuel) ->
  and_then m k <> OutOfFuel.
Proof.
  intros Hm Hk. destruct m; simpl; auto. discriminate.
Qed.

Lemma absorb_fuel (node : expr) (factors : list expr) (c : Q) :
  absorb node factors c <> OutOfFuel.
Proof. destruct node; simpl; discriminate. Qed.

Lemma build_power_fuel (base exponent : expr) :
  build_power base exponent <> OutOfFuel.
Proof.
  destruct exponent; unfold build_power; try discriminate.
  destruct (negb (Qden value =? 1)%positive); [discriminate|].
  destruct (Qnum value <? 0); discriminate.
Qed.

Variable tokens : list token.

Local Abbreviation len := (List.length tokens).

(** The fuel each function needs at a position. *)
Lemma parse_fuel (fuel : nat) :
  (forall pos, (6 * (len - pos) + 1 <= fuel)%nat ->
     parse_term fuel tokens pos <> OutOfFuel)
  /\ (forall pos, (6 * (len - pos) + 2 <= fuel)%nat ->
        parse_power fuel tokens pos <> OutOfFuel)
  /\ (forall factors c pos, (6 * (len - pos) + 3 <= fuel)%nat ->
        parse_mul_loop fuel tokens factors c pos <> OutOfFuel)
  /\ (forall pos, (6 * (len - pos) + 4 <= fuel)%nat ->
        parse_mul fuel tokens pos <> OutOfFuel)
  /\ (forall terms pos, (6 * (len - pos) + 4 <= fuel)%nat ->
        parse_expr_loop fuel tokens terms pos <> OutOfFuel)
  /\ (forall pos, (6 * (len - pos) + 5 <= fuel)%nat ->
        parse_expr fuel tokens pos <> OutOfFuel).
Proof.
  induction fuel as [|fuel (IHt & IHp & IHml & IHm & IHel & IHe)].
  - repeat split; intros; lia.
  - destruct (parse_advances tokens fuel) as (At & Ap & Am & Ae & _ & _).
    split; [|split; [|split; [|split; [|split]]]].
    + (* parse_term *)
      intros pos Hf. cbn [parse_term].
      destruct (current_pos tokens pos) as [t|] eqn:Hc; [|discriminate].
      pose proof (current_pos_length _ _ _ Hc) as Hlt.
      rewrite (consume_current _ _ _ Hc). cbn [and_then].
      destruct t as [n|name|name|[]| |]; try discriminate.
      * destruct (current_pos tokens (S pos)) as [[]|] eqn:Hlp; try discriminate.
        pose proof (current_pos_length _ _ _ Hlp) as Hlt'.
        rewrite (consume_current _ _ _ Hlp). cbn [and_then].
        apply and_then_fuel; [apply IHe; lia|].
        intros [arg p] Hr.
        destruct (current_pos tokens p) as [[]|] eqn:Hrp; try discriminate.
        rewrite (consume_current _ _ _ Hrp). discriminate.
      * apply and_then_fuel; [apply IHt; lia|]. intros [next p] _. discriminate.
      * apply and_then_fuel; [apply IHe; lia|].
        intros [inner p] Hr.
        destruct (current_pos tokens p) as [[]|] eqn:Hrp; try discriminate.
        rewrite (consume_current _ _ _ Hrp). discriminate.
    + (* parse_power *)
      intros pos Hf. cbn [parse_power].
      apply and_then_fuel; [apply IHt; lia|].
      intros [base p] Hr. destruct (At _ _ _ Hr) as [_ Hp].
      destruct (current_pos tokens p) as [t|] eqn:Hc; [|discriminate].
      destruct t as [n|name|name|[]| |]; try discriminate.
      rewrite (consume_current _ _ _ Hc). cbn [and_then].
      apply and_then_fuel; [apply IHp; lia|].
      intros [exponent p'] _.
      apply and_then_fuel; [apply build_power_fuel|]. discriminate.
    + (* parse_mul_loop *)
      intros factors c pos Hf. cbn [parse_mul_loop]. cbv zeta.
      destruct (current_pos tokens pos) as [t|] eqn:Hc; [|discriminate].
      pose proof (current_pos_length _ _ _ Hc) as Hlt.
      destruct t as [n|name|name|[]| |]; cbn [can_start_term negb andb];
        try discriminate;
        try rewrite (consume_current _ _ _ Hc); cbn [and_then snd];
        (apply and_then_fuel; [apply IHp; lia|]);
        intros [node p] Hr; destruct (Ap _ _ _ Hr) as [_ Hp];
        (apply and_then_fuel; [apply absorb_fuel|]);
        intros [factors1 c1] _; apply IHml; lia.
    + (* parse_mul *)
      intros pos Hf. cbn [parse_mul].
      apply and_then_fuel; [apply IHp; lia|].
      intros [node p] Hr. destruct (Ap _ _ _ Hr) as [_ Hp].
      apply and_then_fuel; [apply absorb_fuel|].
      intros [factors c] _.
      apply and_then_fuel; [apply IHml; lia|].
      intros [[factors' c'] p'] _. discriminate.
    + (* parse_expr_loop *)
      intros terms pos Hf. cbn [parse_expr_loop].
      destruct (current_pos tokens pos) as [t|] eqn:Hc; [|discriminate].
      pose proof (current_pos_length _ _ _ Hc) as Hlt.
      destruct t as [n|name|name|[]| |]; try discriminate;
        rewrite (consume_current _ _ _ Hc); cbn [and_then];
        (apply and_then_fuel; [apply IHm; lia|]);
        intros [rightnode p] Hr; destruct (Am _ _ _ Hr) as [_ Hp];
        apply IHel; lia.
    + (* parse_expr *)
      intros pos Hf. cbn [parse_expr].
      apply and_then_fuel; [apply IHm; lia|].
      intros [leftnode p] Hr. destruct (Am _ _ _ Hr) as [_ Hp].
      apply and_then_fuel; [apply IHel; lia|].
      intros [terms p'] _. destruct terms as [|t [|t' terms]]; discriminate.
Qed.

End ParserFuel.

Section ParserMoreFuel.

Import Parser.

(** [r'] is [r], unless [r] ran out of fuel. *)
Local Abbreviation refines r r' := (r = OutOfFuel \/ r' = r).

Lemma refines_and_then {A B : Type} (m m' : run A) (k k' : A -> run B) :
  refines m m' -> (forall a, refines (k a) (k' a)) ->
  refines (and_then m k) (and_then m' k').
Proof.
  intros [-> | ->] Hk; [now left|].
  destruct m; simpl; auto.
Qed.

Variable tokens : list token.

Ltac more_fuel :=
  repeat first
    [ solve [right; reflexivity]
    | solve [auto]
    | apply refines_and_then; [solve [auto] | intros ?]
    | match goal with
      | |- context [match ?x with _ => _ end] => destruct x
      end ].

(** More fuel does not change what a run returns or raises. *)
Lemma parse_more_fuel (fuel : nat) :
  forall fuel', (fuel <= fuel')%nat ->
  (forall pos, refines (parse_term fuel tokens pos) (parse_term fuel' tokens pos))
  /\ (forall pos, refines (parse_power fuel tokens pos) (parse_power fuel' tokens pos))
  /\ (forall factors c pos,
        refines (parse_mul_loop fuel tokens factors c pos)
                (parse_mul_loop fuel' tokens factors c pos))
  /\ (forall pos, refines (parse_mul fuel tokens pos) (parse_mul fuel' tokens pos))
  /\ (forall terms pos,
        refines (parse_expr_loop fuel tokens terms pos)
                (parse_expr_loop fuel' tokens terms pos))
  /\ (forall pos, refines (parse_expr fuel tokens pos) (parse_expr fuel' tokens pos)).
Proof.
  induction fuel as [|fuel IH]; intros fuel' Hle.
  - repeat split; intros; now left.
  - destruct fuel' as [|fuel']; [lia|].
    destruct (IH fuel' ltac:(lia)) as (IHt & IHp & IHml & IHm & IHel & IHe).
    split; [|split; [|split; [|split; [|split]]]].
    + intros pos. cbn [parse_term]. more_fuel.
    + intros pos. cbn [parse_power]. more_fuel.
    + intros factors c pos. cbn [parse_mul_loop]. cbv zeta. more_fuel.
    + intros pos. cbn [parse_mul]. more_fuel.
    + intros terms pos. cbn [parse_expr_loop]. more_fuel.
    + intros pos. cbn [parse_expr]. more_fuel.
Qed.

End ParserMoreFuel.

Section ParserErrors.

Import Parser.

Lemma run_ok_and_then {A B : Type} (P : A -> Prop) (Q : B -> Prop)
    (m : run A) (k : A -> run B) :
  run_ok P m -> (forall a, m = Done a -> P a -> run_ok Q (k a)) ->
  run_ok Q (and_then m k).
Proof.
  intros Hm Hk. destruct m; simpl in *; auto.
Qed.

Lemma run_ok_impl {A : Type} (P Q : A -> Prop) (m : run A) :
  (forall a, m = Done a -> P a -> Q a) -> run_ok P m -> run_ok Q m.
Proof.
  intros H Hm. destruct m; simpl in *; auto.
Qed.

Lemma Qred_int (n : Z) : Qred (n # 1) = n # 1.
Proof.
  unfold Qred.
  pose proof (Z.ggcd_gcd n 1) as Hg.
  pose proof (Z.ggcd_correct_divisors n 1) as Hd.
  destruct (Z.ggcd n 1) as [g [aa bb]]. simpl in Hg, Hd.
  rewrite Z.gcd_1_r in Hg. subst g. destruct Hd as [Ha Hb].
  rewrite Z.mul_1_l in Ha, Hb. now subst aa bb.
Qed.

Lemma natural_qmul (c v : Q) :
  natural (Const c) = true -> natural (Const v) = true ->
  natural (Const (qmul c v)) = true.
Proof.
  unfold natural. intros Hc Hv.
  apply andb_prop in Hc as [Hc1 Hc2]. apply andb_prop in Hv as [Hv1 Hv2].
  apply Pos.eqb_eq in Hc1, Hv1. apply Z.leb_le in Hc2, Hv2.
  destruct c as [a d], v as [b d']. simpl in *. subst d d'.
  unfold qmul.
  change (Qred ((a # 1) * (b # 1))%Q) with (Qred ((a * b) # 1)).
  rewrite Qred_int. simpl. apply Z.leb_le. nia.
Qed.

Lemma raw_ast_node (e : expr) : raw_ast e = true -> is_node e = true.
Proof. destruct e; simpl; auto. Qed.

Lemma absorb_ok (node : expr) (factors : list expr) (c : Q) :
  raw_ast node = true -> natural node = true ->
  forallb not_const factors = true -> natural (Const c) = true ->
  run_ok (fun r => forallb not_const (fst r) = true
                   /\ natural (Const (snd r)) = true)
         (absorb node factors c).
Proof.
  intros Hraw Hn Hf Hc.
  destruct node; try discriminate; simpl; try (split; [|exact Hc]);
    try (rewrite forallb_app, Hf; reflexivity).
  split; [exact Hf | now apply natural_qmul].
Qed.

Lemma build_mul_natural (factors : list expr) (c : Q) :
  forallb not_const factors = true -> natural (Const c) = true ->
  natural (build_mul factors c) = true.
Proof.
  intros Hf Hc. destruct factors as [|f [|g fs]]; cbn [build_mul].
  - exact Hc.
  - destruct (Qeq_bool c 1); [|reflexivity].
    simpl in Hf. destruct f; try discriminate; reflexivity.
  - destruct (negb (Qeq_bool c 1)); reflexivity.
Qed.

Lemma build_power_ok (base exponent : expr) :
  raw_ast exponent = true -> natural exponent = true ->
  run_ok (fun ast => natural ast = true) (build_power base exponent).
Proof.
  intros Hraw Hn. destruct exponent; try discriminate; try reflexivity.
  unfold build_power. unfold natural in Hn.
  apply andb_prop in Hn as [Hd Hz]. rewrite Hd. cbn [negb].
  apply Z.leb_le in Hz.
  destruct (Z.ltb_spec (Qnum value) 0); [lia | reflexivity].
Qed.

Variable tokens : list token.
Hypothesis Hnum : forallb number_ok tokens = true.

Lemma number_nonneg (pos : nat) (n : Z) :
  current_pos tokens pos = Some (NUMBER n) -> 0 <= n.
Proof.
  unfold current_pos. intros H. apply nth_error_In in H.
  rewrite forallb_forall in Hnum. apply Hnum in H. simpl in H.
  now apply Z.leb_le.
Qed.

Local Abbreviation good := (run_ok (fun r : expr * nat => natural (fst r) = true)).

(** No run raises an exception of a subscript or the error on a negative
    exponent, and a Const that a run returns holds a non-negative [int]. *)
Lemma parse_expected (fuel : nat) :
  (forall pos, good (parse_term fuel tokens pos))
  /\ (forall pos, good (parse_power fuel tokens pos))
  /\ (forall factors c pos,
        forallb not_const factors = true -> natural (Const c) = true ->
        run_ok (fun r => forallb not_const (fst (fst r)) = true
                         /\ natural (Const (snd (fst r))) = true)
               (parse_mul_loop fuel tokens factors c pos))
  /\ (forall pos, good (parse_mul fuel tokens pos))
  /\ (forall terms pos,
        run_ok (fun r => exists extra, fst r = terms ++ extra)
               (parse_expr_loop fuel tokens terms pos))
  /\ (forall pos, good (parse_expr fuel tokens pos)).
Proof.
  induction fuel as [|fuel (IHt & IHp & IHml & IHm & IHel & IHe)].
  - repeat split; intros; exact I.
  - destruct (parse_advances tokens fuel) as (At & Ap & Am & Ae & _ & _).
    split; [|split; [|split; [|split; [|split]]]].
    + (* parse_term *)
      intros pos. cbn [parse_term].
      destruct (current_pos tokens pos) as [t|] eqn:Hc; [|reflexivity].
      rewrite (consume_current _ _ _ Hc). cbn [and_then].
      destruct t as [n|name|name|[]| |]; try reflexivity.
      * simpl. apply number_nonneg in Hc. apply Z.leb_le. exact Hc.
      * destruct (current_pos tokens (S pos)) as [[]|] eqn:Hlp; try reflexivity.
        rewrite (consume_current _ _ _ Hlp). cbn [and_then].
        eapply run_ok_and_then; [apply IHe|]. intros [arg p] Hr _.
        destruct (current_pos tokens p) as [[]|] eqn:Hrp; try reflexivity.
        rewrite (consume_current _ _ _ Hrp). reflexivity.
      * eapply run_ok_and_then; [apply IHt|]. intros [next p] _ _. reflexivity.
      * eapply run_ok_and_then; [apply IHe|]. intros [inner p] Hr Hn.
        destruct (current_pos tokens p) as [[]|] eqn:Hrp; try reflexivity.
        rewrite (consume_current _ _ _ Hrp). exact Hn.
    + (* parse_power *)
      intros pos. cbn [parse_power].
      eapply run_ok_and_then; [apply IHt|]. intros [base p] Hr Hn.
      destruct (current_pos tokens p) as [t|] eqn:Hc; [|exact Hn].
      destruct t as [n|name|name|[]| |]; try exact Hn.
      rewrite (consume_current _ _ _ Hc). cbn [and_then].
      eapply run_ok_and_then; [apply IHp|]. intros [exponent p'] Hr' Hn'.
      destruct (Ap _ _ _ Hr') as [Hraw _].
      eapply run_ok_and_then; [apply build_power_ok; assumption|].
      intros ast _ Hast. exact Hast.
    + (* parse_mul_loop *)
      intros factors c pos Hf Hc0. cbn [parse_mul_loop]. cbv zeta.
      destruct (current_pos tokens pos) as [t|] eqn:Hc; [|now split].
      destruct t as [n|name|name|[]| |]; cbn [can_start_term negb andb];
        try (now split);
        try rewrite (consume_current _ _ _ Hc); cbn [and_then snd];
        (eapply run_ok_and_then; [apply IHp|]);
        intros [node p] Hr Hn; destruct (Ap _ _ _ Hr) as [Hraw _];
        (eapply run_ok_and_then; [apply absorb_ok; eassumption|]);
        intros [factors1 c1] _ [Hf1 Hc1]; now apply IHml.
    + (* parse_mul *)
      intros pos. cbn [parse_mul].
      eapply run_ok_and_then; [apply IHp|]. intros [node p] Hr Hn.
      destruct (Ap _ _ _ Hr) as [Hraw _].
      eapply run_ok_and_then; [apply absorb_ok; try eassumption; reflexivity|].
      intros [factors c] _ [Hf Hc].
      eapply run_ok_and_then; [now apply IHml|].
      intros [[factors' c'] p'] _ [Hf' Hc']. now apply build_mul_natural.
    + (* parse_expr_loop *)
      intros terms pos. cbn [parse_expr_loop].
      assert (Hstop : exists extra, terms = terms ++ extra)
        by (exists []; now rewrite app_nil_r).
      destruct (current_pos tokens pos) as [t|] eqn:Hc; [|exact Hstop].
      destruct t as [n|name|name|[]| |]; try exact Hstop;
        rewrite (consume_current _ _ _ Hc); cbn [and_then];
        (eapply run_ok_and_then; [apply IHm|]);
        intros [rightnode p] _ _;
        (eapply run_ok_impl; [|apply IHel]);
        intros [terms' p'] _ [extra Hex]; simpl in Hex |- *;
        rewrite Hex, <- app_assoc; eauto.
    + (* parse_expr *)
      intros pos. cbn [parse_expr].
      eapply run_ok_and_then; [apply IHm|]. intros [leftnode p] _ Hn.
      eapply run_ok_and_then; [apply IHel|].
      intros [terms p'] _ [extra Hex]. simpl in Hex. subst terms.
      destruct extra as [|t extra]; [exact Hn | reflexivity].
Qed.

End ParserErrors.

Section ParserTheorems.

Import Parser.

(** X18. Whatever [parse_expr] returns is a raw AST, a tree whose Power
    exponents are all non-negative, and the position it returns lies
    beyond the one it started at, within the token list: at least one token
    has been read. *)
Theorem parser_builds_raw_ast (fuel : nat) (tokens : list token) (pos : nat)
    (ast : expr) (pos' : nat) :
  parse_expr fuel tokens pos = Done (ast, pos') ->
  raw_ast ast = true /\ (pos < pos' <= List.length tokens)%nat.
Proof.
  intros H.
  destruct (parse_advances tokens fuel) as (_ & _ & _ & He & _).
  exact (He pos ast pos' H).
Qed.

Lemma parser_builds_raw_ast_witness :
  let tokens := [NUMBER 3; VAR "x"; OP Caret; NUMBER 2; OP Plus;
                 NAME "sin"; LPAREN; VAR "x"; RPAREN] in
  let ast := Sum [Mul 3 (Power (Var "x") 2); Func "sin" (Var "x")] in
  parse_expr (fuel_of tokens) tokens 0 = Done (ast, 9%nat)
  /\ raw_ast ast = true /\ (0 < 9 <= List.length tokens)%nat.
Proof.
  split; [reflexivity|].
  apply (parser_builds_raw_ast
           (fuel_of [NUMBER 3; VAR "x"; OP Caret; NUMBER 2; OP Plus;
                     NAME "sin"; LPAREN; VAR "x"; RPAREN])
           [NUMBER 3; VAR "x"; OP Caret; NUMBER 2; OP Plus;
            NAME "sin"; LPAREN; VAR "x"; RPAREN] 0%nat).
  reflexivity.
Defined.

(** A leading minus binds tighter than [^]: the tokens of [-x^2] parse to
    the square of [-x], which [normalize] keeps as a Power of a Mul. *)
Example parse_minus_before_power :
  let tokens := [OP Minus; VAR "x"; OP Caret; NUMBER 2] in
  parse_expr (fuel_of tokens) tokens 0
  = Done (Power (Mul (-1) (Var "x")) 2, 4%nat)
  /\ normalize (Power (Mul (-1) (Var "x")) 2)
     = Ret (Power (Mul (-1) (Var "x")) 2).
Proof.
  split; reflexivity.
Qed.

(** X19. The parser terminates: with the fuel [fuel_of tokens], or any
    larger one, [parse_expr] returns or raises at every position, and the
    outcome is the same for all these fuels. *)
Theorem parser_terminates (tokens : list token) (pos fuel : nat) :
  (fuel_of tokens <= fuel)%nat ->
  parse_expr fuel tokens pos <> OutOfFuel
  /\ parse_expr fuel tokens pos = parse_expr (fuel_of tokens) tokens pos.
Proof.
  intros Hle.
  destruct (parse_fuel tokens (fuel_of tokens)) as (_ & _ & _ & _ & _ & Hf).
  specialize (Hf pos ltac:(unfold fuel_of; lia)).
  destruct (parse_more_fuel tokens (fuel_of tokens) fuel Hle)
    as (_ & _ & _ & _ & _ & Hm).
  destruct (Hm pos) as [Hout | Heq]; [contradiction|].
  split; [now rewrite Heq | exact Heq].
Qed.

Lemma parser_terminates_witness :
  let tokens := [LPAREN; VAR "x"; OP Plus; NUMBER 1; RPAREN; OP Star;
                 NAME "cos"; LPAREN; VAR "x"] in
  (fuel_of tokens <= 1000)%nat
  /\ parse_expr 1000 tokens 0 <> OutOfFuel
  /\ parse_expr 1000 tokens 0 = parse_expr (fuel_of tokens) tokens 0.
Proof.
  split; [unfold fuel_of; simpl; lia|].
  apply (parser_terminates
           [LPAREN; VAR "x"; OP Plus; NUMBER 1; RPAREN; OP Star;
            NAME "cos"; LPAREN; VAR "x"] 0%nat 1000%nat).
  unfold fuel_of. simpl. lia.
Defined.

(** X20. On tokens whose numbers are non-negative [int]s the parser raises
    only its own errors: a [SyntaxError] or the [IOError] on an unexpected
    token, never an exception of a subscript ([IndexError] of [consume],
    [KeyError], [TypeError]); and among its [SyntaxError]s never the one on
    a negative exponent: an exponent written with a minus is refused as
    not being a constant. *)
Theorem parser_raises_its_own_errors (fuel : nat) (tokens : list token)
    (pos : nat) (e : error) :
  forallb number_ok tokens = true ->
  parse_expr fuel tokens pos = Fail e ->
  reachable_error e = true.
Proof.
  intros Hnum H.
  destruct (parse_expected tokens Hnum fuel) as (_ & _ & _ & _ & _ & He).
  specialize (He pos). rewrite H in He. exact He.
Qed.

Lemma parser_raises_its_own_errors_witness :
  let tokens := [VAR "x"; OP Caret; LPAREN; OP Minus; NUMBER 2; RPAREN] in
  forallb number_ok tokens = true
  /\ parse_expr (fuel_of tokens) tokens 0
     = Fail (SyntaxError "Exponent must be a constant integer")
  /\ reachable_error (SyntaxError "Exponent must be a constant integer") = true.
Proof.
  split; [reflexivity|]. split; [reflexivity|].
  apply (parser_raises_its_own_errors
           (fuel_of [VAR "x"; OP Caret; LPAREN; OP Minus; NUMBER 2; RPAREN])
           [VAR "x"; OP Caret; LPAREN; OP Minus; NUMBER 2; RPAREN] 0%nat);
    reflexivity.
Defined.



(** What [parse_string] does on [sin(2x)] and on [sin(sin(2x))]: the
    ["ast"] is the error dictionary, not a tree, in the first case, and
    [normalize] raises [KeyError] in the second. *)
Example parse_tokens_unsupported_argument :
  parse_tokens [NAME "sin"; LPAREN; NUMBER 2; VAR "x"; RPAREN] (Some "x")
  = Done {| ast := ErrorObj "Unsupported argument in function: sin"; var := "x" |}
  /\ parse_tokens [NAME "sin"; LPAREN; NAME "sin"; LPAREN; NUMBER 2; VAR "x";
                   RPAREN; RPAREN] (Some "x")
     = Fail (Uncaught (KeyError "type")).
Proof.
  split; reflexivity.
Qed.

End ParserTheorems.

(** ** The engines on what [normalize] returns *)

Lemma mapM_Raise {A B : Type} (f : A -> outcome B) (l : list A) (x : exn) :
  mapM f l = Raise x -> Exists (fun a => f a = Raise x) l.
Proof.
  induction l as [|a l IH]; simpl; [discriminate|].
  destruct (f a) as [b|y] eqn:Ha; simpl.
  - destruct (mapM f l) as [bs|y]; simpl; [discriminate|].
    intros H. injection H as ->. right. now apply IH.
  - intros H. injection H as ->. now left.
Qed.

Lemma join_terms_Raise (f : expr -> outcome string) (l : list expr)
    (acc : string) (x : exn) :
  join_terms f l acc = Raise x -> Exists (fun a => f a = Raise x) l.
Proof.
  revert acc. induction l as [|a l IH]; intros acc; simpl; [discriminate|].
  destruct (f a) as [b|y] eqn:Ha; simpl.
  - intros H. right. eapply IH, H.
  - intros H. injection H as ->. now left.
Qed.

Lemma Exists_Forall_key (P : expr -> Prop) (f : expr -> outcome string)
    (l : list expr) (x : exn) :
  Forall (fun v => P v -> f v = Raise x -> x = KeyError "type") l ->
  Forall P l -> Exists (fun a => f a = Raise x) l -> x = KeyError "type".
Proof.
  induction 1 as [|a l Ha _ IH]; intros HP HE; inversion HE; subst;
    inversion HP; subst; auto.
Qed.

(** On a value [normalize] returns the pretty-printer raises nothing but
    the [KeyError] on an error dictionary. *)
Lemma to_string_Raise sf (mode var_name : string) (v : expr) (x : exn) :
  normal v -> to_string sf v mode var_name = Raise x -> x = KeyError "type".
Proof.
  induction v as [q|s|b n IH|c i IH|fs IH|ts IH|name a IH|r|] using expr_nested_ind;
    intros Hn H; simpl in H; try discriminate.
  - inversion Hn; subst.
    destruct (to_string sf b mode var_name) as [bs|y] eqn:Hb; simpl in H.
    + destruct b; simpl in *; discriminate.
    + injection H as <-. now apply IH.
  - inversion Hn; subst.
    destruct (to_string sf i mode var_name) as [bs|y] eqn:Hb; simpl in H.
    + destruct i; simpl in *; try discriminate;
        destruct (Qeq_bool c (-1)); discriminate.
    + injection H as <-. now apply IH.
  - inversion Hn; subst.
    destruct (mapM (fun f => to_string sf f mode var_name) fs) as [ps|y] eqn:Hm;
      simpl in H; [discriminate|]. injection H as <-.
    apply mapM_Raise in Hm.
    eapply (Exists_Forall_key normal (fun f => to_string sf f mode var_name));
      eassumption.
  - inversion Hn as [| | | | |? Hlen Hnt Hok| |]; subst.
    destruct ts as [|t ts]; [simpl in Hlen; lia|].
    inversion IH as [|? ? IHt IHts]; subst. inversion Hnt; subst.
    destruct (to_string sf t mode var_name) as [bs|y] eqn:Hb; simpl in H.
    + apply join_terms_Raise in H.
      eapply (Exists_Forall_key normal (fun f => to_string sf f mode var_name));
        eassumption.
    + injection H as <-. now apply IHt.
  - now injection H as <-.
  - inversion Hn.
Qed.

Lemma integrate_return_contained sf (d : outcome response) (mode var_name : string) :
  contained d -> contained (integrate_return sf d mode var_name).
Proof.
  unfold integrate_return. destruct d as [[o|reason]|x]; simpl; auto.
  intros Ht. pose proof (normalize_normal_ok (result o)) as Hok.
  unfold normalize_ok in Hok.
  destruct (normalize (result o)) as [res|y]; simpl; [|auto].
  destruct (to_string sf res mode var_name) as [s|y] eqn:Hs; simpl.
  - eapply to_string_tree; eassumption.
  - eapply to_string_Raise; eassumption.
Qed.

Lemma differentiate_return_contained sf (d : outcome response)
    (mode var_name : string) :
  contained d -> contained (differentiate_return sf d mode var_name).
Proof.
  unfold differentiate_return. destruct d as [[o|reason]|x]; simpl; auto.
  intros Ht. pose proof (normalize_normal_ok (result o)) as Hok.
  unfold normalize_ok in Hok.
  destruct (normalize (result o)) as [res|y]; simpl; [|auto].
  destruct (to_string sf res mode var_name) as [s|y] eqn:Hs; simpl.
  - eapply to_string_tree; eassumption.
  - eapply to_string_Raise; eassumption.
Qed.

Lemma integrate_sum_loop_contained
    (f : expr -> string -> string -> outcome response) (mode var_name : string)
    (l : list expr) :
  Forall (fun t => contained (f t mode var_name)) l ->
  forall acc acc', forallb tree acc = true ->
    contained (integrate_sum_loop f mode var_name l acc acc').
Proof.
  induction 1 as [|t l Ht _ IH]; intros acc acc' Hacc; simpl.
  - rewrite tree_Sum. exact Hacc.
  - destruct (f t mode var_name) as [[o|reason]|x]; simpl in *; auto.
    apply IH. rewrite forallb_app, Hacc. simpl. now rewrite Ht.
Qed.

Lemma differentiate_sum_loop_contained
    (f : expr -> string -> string -> outcome response) (mode var_name : string)
    (l : list expr) :
  Forall (fun t => contained (f t mode var_name)) l ->
  forall acc acc', forallb tree acc = true ->
    contained (differentiate_sum_loop f mode var_name l acc acc').
Proof.
  induction 1 as [|t l Ht _ IH]; intros acc acc' Hacc; simpl.
  - rewrite tree_Sum. exact Hacc.
  - destruct (f t mode var_name) as [[o|reason]|x]; simpl in *; auto.
    apply IH. rewrite forallb_app, Hacc. simpl. now rewrite Ht.
Qed.

Lemma Forall_normal_contained (P : expr -> Prop) (l : list expr) :
  Forall (fun t => normal t -> P t) l -> Forall normal l -> Forall P l.
Proof.
  induction 1; intros Hn; inversion Hn; subst; constructor; auto.
Qed.

(** On a value [normalize] returns, [integrate] returns a dictionary or
    raises the [KeyError] on ["type"]. *)
Lemma integrate_contained sf (mode var_name : string) (e : expr) :
  normal e -> contained (integrate sf e mode var_name).
Proof.
  induction e as [q|s|b n IH|c i IH|fs IH|ts IH|name a IH|r|] using expr_nested_ind;
    intros Hn.
  - apply integrate_return_contained. reflexivity.
  - apply integrate_return_contained. reflexivity.
  - rewrite integrate_Power_eq. apply integrate_return_contained.
    inversion Hn; subst. unfold integrate_power.
    destruct b; simpl; try reflexivity.
    + destruct (n =? -1); reflexivity.
    + match goal with H : normal NoneVal |- _ => inversion H end.
  - rewrite integrate_Mul_eq. apply integrate_return_contained.
    inversion Hn; subst. unfold integrate_mul.
    destruct (Qeq_bool c 0); [reflexivity|].
    match goal with H : normal i |- _ => specialize (IH H) end.
    destruct (integrate sf i mode var_name) as [[o|reason]|x]; simpl in *; auto.
    destruct (result o); simpl in *; try discriminate; auto.
  - exact I.
  - rewrite integrate_Sum_eq. apply integrate_return_contained.
    inversion Hn; subst. unfold integrate_sum.
    apply integrate_sum_loop_contained; [|reflexivity].
    eapply Forall_normal_contained; eassumption.
  - inversion Hn; subst. destruct a; try discriminate.
    change (contained (integrate_return sf (integrate_func name (Var variable))
                                        mode var_name)).
    apply integrate_return_contained. unfold integrate_func. simpl.
    destruct (String.eqb name "sin"); [reflexivity|].
    destruct (String.eqb name "cos"); [reflexivity|].
    destruct (String.eqb name "exp"); reflexivity.
  - exact I.
  - inversion Hn.
Qed.

Lemma differentiate_contained sf (mode var_name : string) (e : expr) :
  normal e -> contained (differentiate sf e mode var_name).
Proof.
  induction e as [q|s|b n IH|c i IH|fs IH|ts IH|name a IH|r|] using expr_nested_ind;
    intros Hn.
  - apply differentiate_return_contained. reflexivity.
  - apply differentiate_return_contained. reflexivity.
  - rewrite differentiate_Power_eq. apply differentiate_return_contained.
    inversion Hn; subst. unfold differentiate_power.
    destruct b; simpl; try reflexivity.
    + destruct (n =? 0); reflexivity.
    + match goal with H : normal NoneVal |- _ => inversion H end.
  - rewrite differentiate_Mul_eq. apply differentiate_return_contained.
    inversion Hn; subst. unfold differentiate_mul.
    match goal with H : normal i |- _ => specialize (IH H) end.
    destruct (differentiate sf i mode var_name) as [[o|reason]|x]; simpl in *; auto.
  - exact I.
  - rewrite differentiate_Sum_eq. apply differentiate_return_contained.
    inversion Hn; subst. unfold differentiate_sum.
    apply differentiate_sum_loop_contained; [|reflexivity].
    eapply Forall_normal_contained; eassumption.
  - inversion Hn; subst. destruct a; try discriminate.
    change (contained (differentiate_return sf
                         (differentiate_func name (Var variable)) mode var_name)).
    apply differentiate_return_contained. unfold differentiate_func. simpl.
    destruct (String.eqb name "sin"); [reflexivity|].
    destruct (String.eqb name "cos"); [reflexivity|].
    destruct (String.eqb name "exp"); reflexivity.
  - exact I.
  - inversion Hn.
Qed.

Lemma parse_tokens_normal (tokens : list Parser.token) (seen_var : option string)
    (p : Parser.parsed) :
  Parser.parse_tokens tokens seen_var = Parser.Done p -> normal (Parser.ast p).
Proof.
  unfold Parser.parse_tokens. intros H.
  apply and_then_Done in H as ([raw pos] & _ & H).
  destruct (negb (pos =? List.length tokens)%nat); [discriminate|].
  destruct (normalize raw) as [v|x] eqn:Hv; [|discriminate].
  injection H as <-. simpl. eapply normalize_Ret_normal, Hv.
Qed.

Lemma parse_tokens_fuel (tokens : list Parser.token) (seen_var : option string) :
  Parser.parse_tokens tokens seen_var <> Parser.OutOfFuel.
Proof.
  unfold Parser.parse_tokens.
  apply and_then_fuel.
  - destruct (parse_fuel tokens (Parser.fuel_of tokens)) as (_ & _ & _ & _ & _ & Hf).
    apply Hf. unfold Parser.fuel_of. lia.
  - intros [raw pos] _.
    destruct (negb (pos =? List.length tokens)%nat); [discriminate|].
    destruct (normalize raw); discriminate.
Qed.

Lemma contained_lookups (r : outcome response) :
  contained r -> lookups_contained r.
Proof.
  unfold lookups_contained.
  destruct r as [[o|reason]|x]; simpl; intros H;
    repeat split; try discriminate; try (subst x; discriminate).
  - intros o' Ho. now injection Ho as <-.
  - intros key Hk. subst x. now injection Hk as ->.
Qed.

(** X22. [integrate_string] and [differentiate_string], from the token
    list on, always terminate. Of the lookup exceptions ([KeyError],
    [TypeError], [IndexError], [AttributeError]) the only one that can
    escape is [KeyError] on ["type"]: the engine is called outside the
    [try], and it reads the type of an error dictionary that [normalize]
    left under a Power. A success they return holds a tree as result; an
    exception of the parser is returned as an error dictionary. (Printing
    a number is outside the model: nothing is said about [ValueError] or
    [OverflowError], which can escape the same way.) *)
Theorem string_api_outcomes sf str_exn (tokens : list Parser.token)
    (seen_var : option string) (mode : string) :
  (exists r, integrate_tokens sf str_exn tokens seen_var mode = Parser.Done r
             /\ lookups_contained r)
  /\ (exists r, differentiate_tokens sf str_exn tokens seen_var mode = Parser.Done r
                /\ lookups_contained r).
Proof.
  unfold integrate_tokens, differentiate_tokens.
  pose proof (parse_tokens_fuel tokens seen_var) as Hf.
  pose proof (parse_tokens_normal tokens seen_var) as Hn.
  destruct (Parser.parse_tokens tokens seen_var) as [p|e|]; [| |contradiction].
  - specialize (Hn p eq_refl).
    split; eexists; (split; [reflexivity|]); apply contained_lookups.
    + now apply integrate_contained.
    + now apply differentiate_contained.
  - split; eexists; (split; [reflexivity|]); apply contained_lookups; exact I.
Qed.

(** The three kinds of outcome, on the tokens of [x^2], of [sin(sin(2x))]
    (the parser's exception is caught) and of [sin(2x)^2] (the engine's
    exception is not). *)
Example string_api_examples sf str_exn :
  (exists o, integrate_tokens sf str_exn
               [Parser.VAR "x"; Parser.OP Parser.Caret; Parser.NUMBER 2]
               (Some "x") "fraction"
             = Parser.Done (Ret (Success o))
             /\ result o = Mul (1 # 3) (Power (Var "x") 3)
             /\ rendered o = Some "1/3x^3 + C"%string)
  /\ integrate_tokens sf str_exn
       [Parser.NAME "sin"; Parser.LPAREN; Parser.NAME "sin"; Parser.LPAREN;
        Parser.NUMBER 2; Parser.VAR "x"; Parser.RPAREN; Parser.RPAREN]
       (Some "x") "fraction"
     = Parser.Done (Ret (Failure (str_exn (KeyError "type"))))
  /\ integrate_tokens sf str_exn
       [Parser.NAME "sin"; Parser.LPAREN; Parser.NUMBER 2; Parser.VAR "x";
        Parser.RPAREN; Parser.OP Parser.Caret; Parser.NUMBER 2]
       (Some "x") "fraction"
     = Parser.Done (Raise (KeyError "type")).
Proof.
  split; [eexists; split; [reflexivity | split; reflexivity]|].
  split; reflexivity.
Qed.

(** The integral of [3x^2] keeps the coefficient 1 that the two constants
    multiply to: [normalize_mul] returns the merged Mul before it looks for
    a unit coefficient. *)
Example integrate_tokens_unit_coefficient sf str_exn :
  exists o, integrate_tokens sf str_exn
              [Parser.NUMBER 3; Parser.VAR "x"; Parser.OP Parser.Caret;
               Parser.NUMBER 2] (Some "x") "fraction"
            = Parser.Done (Ret (Success o))
            /\ result o = Mul 1 (Power (Var "x") 3)
            /\ rendered o = Some "1x^3 + C"%string.
Proof.
  eexists. split; [reflexivity|]. split; reflexivity.
Qed.

(** ** The tokenizer *)

Section TokenizerFacts.

Import Tokenizer.

Lemma scan_number_length (s : string) (dot_seen : bool) :
  (String.length (snd (scan_number s dot_seen)) <= String.length s)%nat.
Proof.
  revert dot_seen. induction s as [|ch rest IH]; intros dot_seen; simpl; [lia|].
  destruct (isdigit ch).
  - specialize (IH dot_seen). destruct (scan_number rest dot_seen). simpl in *. lia.
  - destruct (Ascii.eqb ch "." && negb dot_seen); [|simpl; lia].
    specialize (IH true). destruct (scan_number rest true). simpl in *. lia.
Qed.

Lemma scan_alpha_length (s : string) :
  (String.length (snd (scan_alpha s)) <= String.length s)%nat.
Proof.
  induction s as [|ch rest IH]; simpl; [lia|].
  destruct (isalpha ch); [|simpl; lia].
  destruct (scan_alpha rest). simpl in *. lia.
Qed.

Lemma int_digits_nonneg (s : string) (acc : Z) :
  0 <= acc -> 0 <= int_digits s acc.
Proof.
  revert acc. induction s as [|ch rest IH]; intros acc H; cbn [int_digits];
    [exact H|].
  apply IH. lia.
Qed.

(** The outer loop ends before the fuel does. *)
Lemma tokenize_loop_fuel (fuel : nat) :
  forall s tokens seen_var,
    (String.length s < fuel)%nat ->
    tokenize_loop fuel s tokens seen_var <> OutOfFuel.
Proof.
  induction fuel as [|fuel IH]; intros s tokens seen_var Hlen; [lia|].
  cbn [tokenize_loop]. destruct s as [|ch rest]; [discriminate|].
  cbn [String.length] in Hlen.
  destruct (isspace ch); [apply IH; lia|].
  destruct (isdigit ch) eqn:Hd.
  - pose proof (scan_number_length rest false) as Hs.
    cbn [scan_number]. rewrite Hd.
    destruct (scan_number rest false) as [number_str s']. cbn [snd] in Hs.
    destruct (count_dots (String ch number_str) =? 1)%nat; [discriminate|].
    destruct (4300 <? String.length (String ch number_str))%nat; [discriminate|].
    apply IH. lia.
  - destruct (isalpha ch) eqn:Ha.
    + pose proof (scan_alpha_length rest) as Hs.
      cbn [scan_alpha]. rewrite Ha.
      destruct (scan_alpha rest) as [name s']. cbn [snd] in Hs.
      destruct (String.length (String ch name) =? 1)%nat.
      * destruct seen_var as [seen|]; [|apply IH; lia].
        destruct (negb (String.eqb (String ch name) seen)); [discriminate|].
        apply IH. lia.
      * apply IH. lia.
    + destruct (symbol ch); [apply IH; lia | discriminate].
Qed.

Lemma symbol_not_number_var (ch : ascii) (t : Parser.token) :
  symbol ch = Some t ->
  number_ok t = true /\ forall name, t <> Parser.VAR name.
Proof.
  unfold symbol. intros H.
  repeat match type of H with
         | (if ?c then _ else _) = _ => destruct c
         end; try discriminate; injection H as <-; split; try reflexivity;
    discriminate.
Qed.

Lemma lexed_ok_other (tokens : list Parser.token) (seen_var : option string)
    (t : Parser.token) :
  lexed_ok tokens seen_var -> number_ok t = true ->
  (forall name, t <> Parser.VAR name) ->
  lexed_ok (tokens ++ [t]) seen_var.
Proof.
  intros (Hn & Hv & Hs) Ht Hnv. split; [|split].
  - rewrite forallb_app, Hn. simpl. now rewrite Ht.
  - intros name Hin. apply in_app_or in Hin as [Hin | [Hin | []]]; [auto|].
    now destruct (Hnv name).
  - intros name Hseen. destruct (Hs name Hseen) as [Hin Hl].
    split; [apply in_or_app; now left | exact Hl].
Qed.

Lemma lexed_ok_var (tokens : list Parser.token) (seen_var : option string)
    (name : string) :
  lexed_ok tokens seen_var -> String.length name = 1%nat ->
  (seen_var = None \/ seen_var = Some name) ->
  lexed_ok (tokens ++ [Parser.VAR name]) (Some name).
Proof.
  intros (Hn & Hv & Hs) Hl Hseen. split; [|split].
  - rewrite forallb_app, Hn. reflexivity.
  - intros name' Hin. apply in_app_or in Hin as [Hin | [Hin | []]].
    + apply Hv in Hin. destruct Hseen; congruence.
    + congruence.
  - intros name' Heq. injection Heq as <-.
    split; [apply in_or_app; right; now left | exact Hl].
Qed.

(** What the outer loop returns and raises. *)
Lemma tokenize_loop_ok (fuel : nat) :
  forall s tokens seen_var,
    lexed_ok tokens seen_var ->
    match tokenize_loop fuel s tokens seen_var with
    | Lexed tokens' seen_var' => lexed_ok tokens' seen_var'
    | Raised e => exists message, e = Parser.SyntaxError message
    | _ => True
    end.
Proof.
  induction fuel as [|fuel IH]; intros s tokens seen_var Hok; [exact I|].
  cbn [tokenize_loop]. destruct s as [|ch rest]; [exact Hok|].
  destruct (isspace ch); [now apply IH|].
  destruct (isdigit ch).
  - destruct (scan_number (String ch rest) false) as [number_str s'].
    destruct (count_dots number_str =? 1)%nat; [exact I|].
    destruct (4300 <? String.length number_str)%nat; [exact I|].
    apply IH. apply lexed_ok_other; [exact Hok | | discriminate].
    simpl. apply Z.leb_le. now apply int_digits_nonneg.
  - destruct (isalpha ch).
    + destruct (scan_alpha (String ch rest)) as [name s'].
      destruct (String.length name =? 1)%nat eqn:Hl.
      * apply Nat.eqb_eq in Hl.
        destruct seen_var as [seen|].
        -- destruct (String.eqb_spec name seen) as [->|Hne]; cbn [negb];
             [|eauto].
           apply IH. apply (lexed_ok_var tokens (Some seen)); auto.
        -- apply IH. apply (lexed_ok_var tokens None); auto.
      * apply IH. apply lexed_ok_other; [exact Hok | reflexivity | discriminate].
    + destruct (symbol ch) as [t|] eqn:Hsym; [|eauto].
      apply symbol_not_number_var in Hsym as [Ht Hnv].
      apply IH. now apply lexed_ok_other.
Qed.

Lemma scan_number_taken (s : string) (dot_seen : bool) :
  (String.length (fst (scan_number s dot_seen)) <= String.length s)%nat.
Proof.
  revert dot_seen. induction s as [|ch rest IH]; intros dot_seen; simpl; [lia|].
  destruct (isdigit ch).
  - specialize (IH dot_seen). destruct (scan_number rest dot_seen). simpl in *. lia.
  - destruct (Ascii.eqb ch "." && negb dot_seen); [|simpl; lia].
    specialize (IH true). destruct (scan_number rest true). simpl in *. lia.
Qed.

(** [ValueError] needs a literal of more than 4300 digits. *)
Lemma tokenize_loop_ValueError (fuel : nat) :
  forall s tokens seen_var,
    tokenize_loop fuel s tokens seen_var = ValueError ->
    (4300 < String.length s)%nat.
Proof.
  induction fuel as [|fuel IH]; intros s tokens seen_var H; [discriminate|].
  cbn [tokenize_loop] in H. destruct s as [|ch rest]; [discriminate|].
  cbn [String.length].
  destruct (isspace ch); [apply IH in H; lia|].
  destruct (isdigit ch).
  - pose proof (scan_number_taken (String ch rest) false) as Ht.
    pose proof (scan_number_length (String ch rest) false) as Hs.
    destruct (scan_number (String ch rest) false) as [number_str s'].
    cbn [fst snd String.length] in Ht, Hs.
    destruct (count_dots number_str =? 1)%nat; [discriminate|].
    destruct (Nat.ltb_spec 4300 (String.length number_str)); [lia|].
    apply IH in H. lia.
  - destruct (isalpha ch).
    + pose proof (scan_alpha_length (String ch rest)) as Hs.
      destruct (scan_alpha (String ch rest)) as [name s'].
      cbn [snd String.length] in Hs.
      destruct (String.length name =? 1)%nat.
      * destruct seen_var as [seen|]; [|apply IH in H; lia].
        destruct (negb (String.eqb name seen)); [discriminate|].
        apply IH in H. lia.
      * apply IH in H. lia.
    + destruct (symbol ch); [apply IH in H; lia | discriminate].
Qed.

Lemma lexed_ok_start : lexed_ok [] None.
Proof.
  split; [reflexivity|]. split; [intros name []|discriminate].
Qed.

End TokenizerFacts.

(** X23. [tokenize] terminates. The exception it raises itself is always
    a [SyntaxError]; the only other one is the [ValueError] of [int] on a
    literal of more than 4300 digits, so none on a string of at most 4300
    characters. In the token list it returns every NUMBER is a
    non-negative [int], and all VAR tokens carry the same one-letter name,
    the one returned as [seen_var]; [seen_var] is [None] exactly when there
    is no VAR token. So what it returns meets the condition under which the
    parser was analysed. *)
Theorem tokenize_output (s : string) :
  Tokenizer.tokenize s <> Tokenizer.OutOfFuel
  /\ (forall e, Tokenizer.tokenize s = Tokenizer.Raised e ->
        exists message, e = Parser.SyntaxError message)
  /\ (Tokenizer.tokenize s = Tokenizer.ValueError ->
      (4300 < String.length s)%nat)
  /\ (forall tokens seen_var,
        Tokenizer.tokenize s = Tokenizer.Lexed tokens seen_var ->
        forallb number_ok tokens = true
        /\ (forall name, In (Parser.VAR name) tokens -> seen_var = Some name)
        /\ (forall name, seen_var = Some name ->
              In (Parser.VAR name) tokens /\ String.length name = 1%nat)).
Proof.
  unfold Tokenizer.tokenize.
  destruct (Tokenizer.all_ascii s);
    [|split; [discriminate | split; [|split]; intros; discriminate]].
  pose proof (tokenize_loop_fuel (S (String.length s)) s [] None
                ltac:(lia)) as Hf.
  pose proof (tokenize_loop_ok (S (String.length s)) s [] None lexed_ok_start)
    as Hok.
  pose proof (tokenize_loop_ValueError (S (String.length s)) s [] None) as Hv.
  destruct (Tokenizer.tokenize_loop (S (String.length s)) s [] None)
    as [tokens seen_var|e| | |]; (split; [assumption || discriminate|]);
    (split; [|split]); try (intros; discriminate); auto.
  - intros tokens' seen' H. injection H as <- <-. exact Hok.
  - intros e' H. injection H as <-. exact Hok.
Qed.

(** The tokens of [3x^2 + sin(x)]; a second variable, a character that is
    no symbol of the language, and a decimal literal. *)
Example tokenize_examples :
  Tokenizer.tokenize "3x^2 + sin(x)"
  = Tokenizer.Lexed
      [Parser.NUMBER 3; Parser.VAR "x"; Parser.OP Parser.Caret; Parser.NUMBER 2;
       Parser.OP Parser.Plus; Parser.NAME "sin"; Parser.LPAREN; Parser.VAR "x";
       Parser.RPAREN] (Some "x")
  /\ Tokenizer.tokenize "x + y"
     = Tokenizer.Raised
         (Parser.SyntaxError "Multiple Variables not supported: x, y")
  /\ Tokenizer.tokenize "x/2"
     = Tokenizer.Raised (Parser.SyntaxError "Invalid Input Character: /")
  /\ Tokenizer.tokenize "2.5x" = Tokenizer.Unmodelled.
Proof.
  repeat split.
Qed.
